(** * A first-fit free-list allocator over [sbrk]: shallow embedding of
      [src/alloc.c] and verification of its specification.

    The C program keeps one global, [HEAD], the head of a singly linked list
    of free blocks whose nodes live inside the freed memory itself, and talks
    to the operating system through [sbrk] only.  The embedding threads an
    explicit [state] (memory bytes, [HEAD], the program break, the standard
    output) through every function.  Pointers and [size_t] values are
    integers in [0, 2^64) with the wrap-around written out; memory is byte
    addressed and little endian.  The loops that walk the free list take a
    fuel argument, because the list they walk lives in mutable memory
    and can be cyclic: [None] means that the fuel ran out. *)

From Stdlib Require Import ZArith List Lia Bool String Ascii.
Import ListNotations.
Local Open Scope Z_scope.

(** ** Machine integers *)

Module Mach.

Definition WORD : Z := 2 ^ 64.

(** [size_t] and pointer arithmetic: modulo [2^64]. *)
Definition wrap (z : Z) : Z := z mod WORD.

(** Conversion to [int] (32 bits, two's complement). *)
Definition to_int (z : Z) : Z := (z + 2 ^ 31) mod 2 ^ 32 - 2 ^ 31.

(** Conversion to [intptr_t] (64 bits, two's complement). *)
Definition to_intptr (z : Z) : Z := (z + 2 ^ 63) mod 2 ^ 64 - 2 ^ 63.

Definition NULL : Z := 0.

End Mach.
Import Mach.

(** ** Byte-addressed memory *)

Module Mem.

Definition memory : Type := Z -> Z.

Definition byte_at (m : memory) (a : Z) : Z := m a mod 256.

Definition set_byte (m : memory) (a v : Z) : memory :=
  fun x => if x =? a then v mod 256 else m x.

(** Little-endian load of [n] bytes at [a]. *)
Fixpoint load_le (n : nat) (m : memory) (a : Z) : Z :=
  match n with
  | O => 0
  | S k => byte_at m a + 256 * load_le k m (a + 1)
  end.

(** Little-endian store of the low [n] bytes of [v] at [a]. *)
Fixpoint store_le (n : nat) (m : memory) (a v : Z) : memory :=
  match n with
  | O => m
  | S k => store_le k (set_byte m a v) (a + 1) (v / 256)
  end.

(** [memset(dst, c, n)] *)
Definition memset (m : memory) (dst c n : Z) : memory :=
  fun x => if (dst <=? x) && (x <? dst + n) then c mod 256 else m x.

(** [memcpy(dst, src, n)]: every byte of the destination receives the byte
    the source held before the call. *)
Definition memcpy (m : memory) (dst src n : Z) : memory :=
  fun x => if (dst <=? x) && (x <? dst + n) then m (src + (x - dst)) else m x.

Definition zero_memory : memory := fun _ => 0.

End Mem.
Import Mem.

(** ** The two record shapes of [alloc.h] *)

(** Modelled from the spec: [alloc.h], which declares [header] and
    [free_block], is not part of the sources.  The spec gives a Header the
    fields [size] and [magic], a free-list node the fields [size] and [next],
    and states that a node "occupies the exact same starting address and same
    first field layout as a Header".  With the LP64 data model that
    [alloc.c] is written for ([size_t] and pointers of 8 bytes, [int] of 4)
    this is
    [struct header { size_t size; int magic; }] and
    [struct free_block { size_t size; struct free_block *next; }],
    both 16 bytes long, [size] at offset 0, [magic] and [next] at offset 8. *)
Module Layout.

Definition sizeof_header : Z := 16.
Definition sizeof_free_block : Z := 16.
Definition MAGIC : Z := 0x01234567.

Definition load_size (m : memory) (p : Z) : Z := load_le 8 m p.
Definition store_size (m : memory) (p v : Z) : memory := store_le 8 m p v.

Definition load_next (m : memory) (p : Z) : Z := load_le 8 m (p + 8).
Definition store_next (m : memory) (p v : Z) : memory := store_le 8 m (p + 8) v.

Definition load_magic (m : memory) (p : Z) : Z := to_int (load_le 4 m (p + 8)).
Definition store_magic (m : memory) (p v : Z) : memory := store_le 4 m (p + 8) v.

End Layout.
Import Layout.

(** ** Program state *)

Record state : Type := mkState {
  mem : memory;            (* the address space *)
  HEAD : Z;                (* static free_block *HEAD *)
  brk : Z;                 (* the program break *)
  brk_max : Z;             (* the highest break the OS grants *)
  out : list string        (* what has been printed *)
}.

Definition set_mem (st : state) (m : memory) : state :=
  mkState m (HEAD st) (brk st) (brk_max st) (out st).
Definition set_HEAD (st : state) (h : Z) : state :=
  mkState (mem st) h (brk st) (brk_max st) (out st).
Definition set_brk (st : state) (b : Z) : state :=
  mkState (mem st) (HEAD st) b (brk_max st) (out st).
Definition print (st : state) (s : string) : state :=
  mkState (mem st) (HEAD st) (brk st) (brk_max st) (out st ++ [s]).

(** A process that has not allocated yet. *)
Definition fresh (b bmax : Z) : state := mkState zero_memory NULL b bmax [].

(** ** The operating system: [sbrk] *)

Definition SBRK_FAILED : Z := wrap (-1).

(** [sbrk(incr)] returns the previous break and moves the break by [incr];
    it fails with [(void * ) -1], leaving the break where it was, when the
    new break would leave [0 .. brk_max].  [sbrk(0)] only reports. *)
Definition sbrk (st : state) (incr : Z) : state * Z :=
  if incr =? 0 then (st, brk st)
  else
    let nb := brk st + incr in
    if (0 <=? nb) && (nb <=? brk_max st)
    then (set_brk st nb, brk st)
    else (st, SBRK_FAILED).

(** ** Free-list operations *)

Definition ALIGNMENT : Z := 16.

(** [void *split(free_block *block, int size)] *)
Definition split (st : state) (block size : Z) : state * Z :=
  let m := mem st in
  if load_size m block <? wrap (size + sizeof_free_block)
  then (st, NULL)
  else
    let new_block := wrap (block + size + sizeof_free_block) in
    let m1 := store_size m new_block
                (wrap (load_size m block - size - sizeof_free_block)) in
    let m2 := store_next m1 new_block (load_next m1 block) in
    let m3 := store_size m2 block (wrap size) in
    (set_mem st m3, block).

(** The loop of [find_prev], started at [curr]. *)
Fixpoint find_prev_from (fuel : nat) (m : memory) (curr block : Z) : option Z :=
  match fuel with
  | O => None
  | S k =>
      if curr =? NULL then Some NULL
      else
        let next := wrap (curr + load_size m curr + sizeof_free_block) in
        if next =? block then Some curr
        else find_prev_from k m (load_next m curr) block
  end.

Definition find_prev (fuel : nat) (st : state) (block : Z) : option Z :=
  find_prev_from fuel (mem st) (HEAD st) block.

(** The loop of [find_next], started at [curr]. *)
Fixpoint find_next_from (fuel : nat) (m : memory) (curr block_end : Z) : option Z :=
  match fuel with
  | O => None
  | S k =>
      if curr =? NULL then Some NULL
      else if curr =? block_end then Some curr
      else find_next_from k m (load_next m curr) block_end
  end.

Definition find_next (fuel : nat) (st : state) (block : Z) : option Z :=
  let block_end :=
    wrap (block + load_size (mem st) block + sizeof_free_block) in
  find_next_from fuel (mem st) (HEAD st) block_end.

(** The loop of [remove_free_block], started at [curr]. *)
Fixpoint remove_from (fuel : nat) (m : memory) (curr block : Z) : option memory :=
  match fuel with
  | O => None
  | S k =>
      if curr =? NULL then Some m
      else if load_next m curr =? block
           then Some (store_next m curr (load_next m block))
           else remove_from k m (load_next m curr) block
  end.

Definition remove_free_block (fuel : nat) (st : state) (block : Z) : option state :=
  let curr := HEAD st in
  if curr =? block then Some (set_HEAD st (load_next (mem st) block))
  else
    match remove_from fuel (mem st) curr block with
    | Some m => Some (set_mem st m)
    | None => None
    end.

(** The first half of [coalesce]: merge [block] into its previous
    neighbour; the result is the memory and the block to go on with. *)
Definition coalesce_prev (m : memory) (block prev : Z) : memory * Z :=
  if prev =? NULL then (m, block)
  else
    let end_of_prev := wrap (prev + load_size m prev + sizeof_free_block) in
    if end_of_prev =? block then
      let ma := store_size m prev
                  (wrap (load_size m prev
                         + wrap (load_size m block + sizeof_free_block))) in
      let mb := if load_next ma prev =? block
                then store_next ma prev (load_next ma block)
                else ma in
      (mb, prev)
    else (m, block).

(** The second half of [coalesce]: merge the next neighbour into [block]. *)
Definition coalesce_next (m : memory) (block next : Z) : memory :=
  if next =? NULL then m
  else
    let end_of_block := wrap (block + load_size m block + sizeof_free_block) in
    if end_of_block =? next then
      let m1 := store_size m block
                  (wrap (load_size m block
                         + wrap (load_size m next + sizeof_free_block))) in
      store_next m1 block (load_next m1 next)
    else m.

(** [void *coalesce(free_block *block)] *)
Definition coalesce (fuel : nat) (st : state) (block : Z) : option (state * Z) :=
  if block =? NULL then Some (st, NULL)
  else
    match find_prev fuel st block with
    | None => None
    | Some prev =>
        match find_next fuel st block with
        | None => None
        | Some next =>
            let '(m1, block1) := coalesce_prev (mem st) block prev in
            Some (set_mem st (coalesce_next m1 block1 next), block1)
        end
    end.

(** ** Heap growth *)

(** [void *do_alloc(size_t size)] *)
Definition do_alloc (st : state) (size : Z) : state * Z :=
  let '(st0, pointer) := sbrk st 0 in
  let align := Z.land (to_intptr pointer) (ALIGNMENT - 1) in
  let ag := if align =? 0 then 0 else ALIGNMENT - align in
  let '(st1, mem_) := sbrk st0 (to_intptr (wrap (size + ag + sizeof_header))) in
  if mem_ =? SBRK_FAILED then (st1, NULL)
  else
    let head := wrap (to_intptr mem_ + ag) in
    let m1 := store_size (mem st1) head size in
    let m2 := store_magic m1 head MAGIC in
    (set_mem st1 m2, wrap (head + sizeof_header)).

(** ** The public interface *)

(** The [while] loop of [tumalloc], started at [current]; falling out of the
    loop reaches the final [do_alloc]. *)
Fixpoint tumalloc_from (fuel rfuel : nat) (st : state) (current size : Z)
  : option (state * Z) :=
  match fuel with
  | O => None
  | S k =>
      if current =? NULL then Some (do_alloc st size)
      else if wrap (size + sizeof_header) <=? load_size (mem st) current then
        let '(st1, pointer) :=
          split st current (to_int (wrap (size + sizeof_header))) in
        if pointer =? NULL then Some (st1, NULL)
        else
          match remove_free_block rfuel st1 pointer with
          | None => None
          | Some st2 =>
              let m1 := store_size (mem st2) pointer size in
              let m2 := store_magic m1 pointer MAGIC in
              Some (set_mem st2 m2, wrap (pointer + sizeof_header))
          end
      else tumalloc_from k rfuel st (load_next (mem st) current) size
  end.

(** [void *tumalloc(size_t size)] *)
Definition tumalloc (fuel : nat) (st : state) (size : Z) : option (state * Z) :=
  if HEAD st =? NULL then Some (do_alloc st size)
  else tumalloc_from fuel fuel st (HEAD st) size.

(** [void *tucalloc(size_t num, size_t size)] *)
Definition tucalloc (fuel : nat) (st : state) (num size : Z) : option (state * Z) :=
  match tumalloc fuel st (wrap (size * num)) with
  | None => None
  | Some (st1, pointer) =>
      if pointer =? NULL then Some (st1, NULL)
      else Some (set_mem st1 (memset (mem st1) pointer 0 (wrap (size * num))), pointer)
  end.

(** [void tufree(void *ptr)] *)
Definition tufree (fuel : nat) (st : state) (ptr : Z) : option state :=
  if ptr =? NULL then Some st
  else
    let hdr := wrap (ptr - sizeof_header) in
    if load_magic (mem st) hdr =? MAGIC then
      let block := hdr in
      let m1 := store_size (mem st) block (load_size (mem st) hdr) in
      let m2 := store_next m1 block (HEAD st) in
      match coalesce fuel (set_mem st m2) block with
      | None => None
      | Some (st1, b) => Some (set_HEAD st1 b)
      end
    else Some st.

(** What a call of [turealloc] hands back: a pointer, or nothing at all when
    control reaches the closing brace of the function without a [return]. *)
Inductive retval : Type :=
| Returned (p : Z)
| NoReturn.

Definition corruption_message : string :=
  ("Memory Corruption Error Detected in turealloc" ++ String "010"%char EmptyString)%string.

(** [void *turealloc(void *ptr, size_t new_size)] *)
Definition turealloc (fuel : nat) (st : state) (ptr new_size : Z)
  : option (state * retval) :=
  if ptr =? NULL then
    match tumalloc fuel st new_size with
    | None => None
    | Some (st1, p) => Some (st1, Returned p)
    end
  else
    match tumalloc fuel st new_size with
    | None => None
    | Some (st1, new_pointer) =>
        if new_pointer =? NULL then Some (st1, Returned NULL)
        else
          let hdr := wrap (ptr - sizeof_header) in
          if negb (load_magic (mem st1) hdr =? MAGIC) then
            Some (print st1 corruption_message, NoReturn)
          else
            let m1 := memcpy (mem st1) new_pointer ptr (load_size (mem st1) hdr) in
            match tufree fuel (set_mem st1 m1) ptr with
            | None => None
            | Some st2 => Some (st2, Returned new_pointer)
            end
    end.

(** ** Reading the free list *)

(** The addresses of the nodes met when following [next] links from [h], in
    list order; [None] when the walk does not reach [NULL] within the fuel. *)
Fixpoint nodes_from (fuel : nat) (m : memory) (h : Z) : option (list Z) :=
  match fuel with
  | O => None
  | S k =>
      if h =? NULL then Some []
      else option_map (cons h) (nodes_from k m (load_next m h))
  end.

Definition free_list (fuel : nat) (st : state) : option (list Z) :=
  nodes_from fuel (mem st) (HEAD st).

(** The address one past a node, as [find_prev], [find_next] and [coalesce]
    compute it. *)
Definition node_end (m : memory) (a : Z) : Z :=
  wrap (a + load_size m a + sizeof_free_block).

(** Two nodes of the list [l] are address contiguous. *)
Definition adjacent_pair (m : memory) (l : list Z) : bool :=
  existsb (fun a => existsb (fun b => negb (a =? b) && (node_end m a =? b)) l) l.

(** "No two nodes of the free list are address contiguous", for a list that
    can be walked within the fuel. *)
Definition no_adjacent_nodes (fuel : nat) (st : state) : Prop :=
  forall l, free_list fuel st = Some l -> adjacent_pair (mem st) l = false.

(** The free list as a reader of the heap sees it: every node with its
    [size] field and its computed end address. *)
Definition view (fuel : nat) (st : state) : option (list (Z * Z * Z)) :=
  option_map (map (fun a => (a, load_size (mem st) a, node_end (mem st) a)))
             (free_list fuel st).

(** ** Quantities named by the specification *)

(** The padding [do_alloc] puts in front of a header when the break is [b]. *)
Definition padding (b : Z) : Z :=
  if b mod 16 =? 0 then 0 else ALIGNMENT - b mod 16.

(** The increment [do_alloc] hands to [sbrk]. *)
Definition growth (st : state) (size : Z) : Z :=
  to_intptr (wrap (size + padding (brk st) + sizeof_header)).

(** The memory once [tufree] has rewritten the header at [hdr] as a list
    node whose successor is the current [HEAD]. *)
Definition pushed (st : state) (hdr : Z) : memory :=
  store_next (store_size (mem st) hdr (load_size (mem st) hdr)) hdr (HEAD st).

(** ** Client programs *)

(** A client that only allocates, and releases pointers it was given:
    [Release k] frees the pointer returned by the [k]-th [Alloc]. *)
Inductive op : Type :=
| Alloc (size : Z)
| Release (k : nat).

Fixpoint run (fuel : nat) (ops : list op) (st : state) (ptrs : list Z)
  : option (state * list Z) :=
  match ops with
  | [] => Some (st, ptrs)
  | Alloc n :: rest =>
      match tumalloc fuel st n with
      | Some (st', p) => run fuel rest st' (ptrs ++ [p])
      | None => None
      end
  | Release k :: rest =>
      match tufree fuel st (nth k ptrs NULL) with
      | Some st' => run fuel rest st' ptrs
      | None => None
      end
  end.

(** Run a client program from [st] and look at the outcome through [f]. *)
Definition observe {A : Type} (fuel : nat) (ops : list op) (st : state)
  (f : state -> list Z -> A) : option A :=
  option_map (fun r => f (fst r) (snd r)) (run fuel ops st []).

(** A process whose break starts at 4 KiB and may grow to 64 KiB. *)
Definition boot : state := fresh 4096 65536.

(** A process whose break starts at 16 MiB and may grow to 256 MiB. *)
Definition boot16M : state := fresh 0x1000000 0x10000000.

(** [boot] after one allocation of 64 bytes (the pointer is 4112). *)
Definition booted64 : state := fst (do_alloc boot 64).

(** [booted64] after a further allocation of 32 bytes (the pointer is 4192). *)
Definition regrown : state := fst (do_alloc booted64 32).

(** A state holding one free node at 4096, of size 100, alone on the list. *)
Definition one_node : state :=
  set_HEAD (set_mem boot (store_next (store_size zero_memory 4096 100) 4096 NULL)) 4096.

(** Three blocks of 1 MiB and one of 16 bytes are allocated; then the
    first, the third and the second big block are released, in that order. *)
Definition interleaved_frees : list op :=
  [Alloc 1048576; Alloc 1048576; Alloc 1048576; Alloc 16;
   Release 0; Release 2; Release 1].

(** After that, 2311511 bytes are allocated and the small block is
    released. *)
Definition adjacency_script : list op :=
  interleaved_frees ++ [Alloc 2311511; Release 3].

(** ** Two properties in the words of the specification *)

(** "[Allocate(s)], [Free], [Allocate(s)] hands out memory again without
    requesting additional OS memory." *)
Definition reuses_freed_block (fuel : nat) (st : state) (s : Z) : Prop :=
  forall s1 p s2 s3 q,
    tumalloc fuel st s = Some (s1, p) ->
    tufree fuel s1 p = Some s2 ->
    tumalloc fuel s2 s = Some (s3, q) ->
    q <> NULL /\ brk s3 = brk s2.

(** "Heap Growth grows the break by exactly
    [payload + padding + header_size]." *)
Definition grows_by_exact_sum (st : state) (size : Z) : Prop :=
  forall st' p,
    do_alloc st size = (st', p) -> p <> NULL ->
    brk st' = brk st + (size + padding (brk st) + sizeof_header).

(** ** Further states and predicates *)

(** The headers of the nodes of [l] do not overlap one another. *)
Definition apart (l : list Z) : Prop :=
  forall a b, In a l -> In b l -> a <> b -> a + 16 <= b \/ b + 16 <= a.

(** The state a client program leaves when started in [st0]; [st0] itself if
    the program does not run to its end. *)
Definition after (st0 : state) (fuel : nat) (ops : list op) : state :=
  match run fuel ops st0 [] with
  | Some (st, _) => st
  | None => st0
  end.

(** Two blocks of 8 bytes, both released: the free list is [4128; 4096] and
    the two nodes are not address contiguous. *)
Definition two_nodes : state :=
  after boot 4 [Alloc 8; Alloc 8; Release 0; Release 1].

(** A block of 8 bytes and one of 100, released so that the small node
    (4096) comes first on the free list and the large one (4128) second. *)
Definition small_then_big : state :=
  after boot 4 [Alloc 8; Alloc 100; Release 1; Release 0].

(** A block of 8 bytes and one of 40, released in the same way: the free list
    is [4096; 4128] with sizes 8 and 40. *)
Definition small_then_medium : state :=
  after boot 4 [Alloc 8; Alloc 40; Release 1; Release 0].

(** A process that may grow to 1 TiB, after a block of 4 GiB was allocated
    and released: one free node, at 4096, of size [2^32]. *)
Definition one_huge_node : state :=
  after (fresh 4096 (2 ^ 40)) 4 [Alloc (2 ^ 32); Release 0].

(** Two blocks of 16 bytes, the first released: one free node at 4096 that
    ends at 4128, where the header of the second block starts. *)
Definition one_released : state :=
  after boot 4 [Alloc 16; Alloc 16; Release 0].

(** Five blocks of 16 bytes: their headers are at 4096, 4128, 4160, 4192
    and 4224, each block ending where the next header starts. *)
Definition five_blocks : list op :=
  [Alloc 16; Alloc 16; Alloc 16; Alloc 16; Alloc 16].

(** The first and the last of the five released: the free list is
    [4224; 4096]. *)
Definition freed_0_4 : state :=
  after boot 6 (five_blocks ++ [Release 0; Release 4]).

(** The last and the first released: the free list is [4096; 4224]. *)
Definition freed_4_0 : state :=
  after boot 6 (five_blocks ++ [Release 4; Release 0]).

(** The third, the fifth and the first released: the free list is
    [4096; 4224; 4160]. *)
Definition freed_2_4_0 : state :=
  after boot 6 (five_blocks ++ [Release 2; Release 4; Release 0]).

(** The first and the third released: the free list is [4160; 4096]. *)
Definition freed_0_2 : state :=
  after boot 6 (five_blocks ++ [Release 0; Release 2]).

(** Two blocks of 16 bytes and one of 64, the first released: one free node
    at 4096; the block of 64 bytes has its header at 4160 and no free
    neighbour. *)
Definition big_third : state :=
  after boot 4 [Alloc 16; Alloc 16; Alloc 64; Release 0].

(** ** The heap as the allocator leaves it *)

(** The free list ends and its nodes lie inside the heap, each smaller than
    [2^31] bytes, none with its header inside another node. *)
Definition well_formed (f : nat) (st : state) (l : list Z) : Prop :=
  free_list f st = Some l /\
  0 <= brk st <= WORD - 32 /\
  (forall a, In a l ->
     0 < a /\ load_size (mem st) a < 2 ^ 31 /\
     a + sizeof_free_block + load_size (mem st) a <= brk st) /\
  (forall a b, In a l -> In b l -> a <> b ->
     b + sizeof_free_block <= a \/
     a + sizeof_free_block + load_size (mem st) a <= b).

(** The [len] bytes from [a] lie inside the heap and inside no free node. *)
Definition in_use (st : state) (l : list Z) (a len : Z) : Prop :=
  0 < a /\ a + len <= brk st /\
  forall x, In x l ->
    x + sizeof_free_block + load_size (mem st) x <= a \/ a + len <= x.

(** The [old] bytes that [turealloc] copies to [p] stay inside the heap and
    reach neither the block whose header is at [X] nor the header of a free
    node. *)
Definition copy_is_safe (st1 : state) (l : list Z) (X p old : Z) : Prop :=
  (p + old <= X \/ X + sizeof_header + old <= p) /\
  (forall a, In a l -> a + sizeof_free_block <= p \/ p + old <= a) /\
  p + old <= brk st1.

(** The block whose header is at [X], with [size] bytes of payload, has been
    freed: the node at the head of the free list, which is what [coalesce]
    returned, starts at or below the header and ends at or beyond the end of
    the payload. *)
Definition head_spans (st : state) (X size : Z) : Prop :=
  HEAD st <> NULL /\ HEAD st <= X /\
  X + sizeof_header + size
    <= HEAD st + sizeof_free_block + load_size (mem st) (HEAD st).

(** A block of 200 bytes and one of 64, the first released: one free node at
    4096, of size 200; the block of 64 bytes has its header at 4320 and ends
    at the break, 4400. *)
Definition big_free_then_block : state :=
  after boot 4 [Alloc 200; Alloc 64; Release 0].

(** A block of 100 bytes and one of 1000, the first released: one free node
    at 4096; the block of 1000 bytes has its header at 4224. *)
Definition small_free_then_big_block : state :=
  after boot 4 [Alloc 100; Alloc 1000; Release 0].

(** A block of 100 bytes, released: its header, at 4096, is the only node of
    the free list and no longer carries the sentinel. *)
Definition released_block : state :=
  after boot 4 [Alloc 100; Release 0].

(** ** Two more properties in the words of the specification *)

(** "For every non-null ptr with a valid Header and every new_size, when the
    fresh allocation succeeds it copies the OLD recorded size's worth of
    bytes from the original payload into the new block, then frees the
    original block and returns the new pointer." *)
Definition realloc_frees_and_returns (fuel : nat) (st : state) (ptr n : Z)
  : Prop :=
  let X := wrap (ptr - sizeof_header) in
  ptr <> NULL -> load_magic (mem st) X = MAGIC ->
  forall st1 p, tumalloc fuel st n = Some (st1, p) -> p <> NULL ->
  exists st2,
    turealloc fuel st ptr n = Some (st2, Returned p) /\
    (forall i, 0 <= i < load_size (mem st) X ->
       byte_at (mem st2) (p + i) = byte_at (mem st) (ptr + i)) /\
    head_spans st2 X (load_size (mem st) X).

(** "For every non-null ptr whose preceding Header's magic does not equal
    the sentinel, and for which the fresh allocation succeeds, Reallocate
    only emits a diagnostic: it leaves the original block's Header and the
    free list unchanged." *)
Definition realloc_only_diagnoses (fuel : nat) (st : state) (ptr n : Z)
  : Prop :=
  let X := wrap (ptr - sizeof_header) in
  ptr <> NULL -> load_magic (mem st) X <> MAGIC ->
  forall st1 p, tumalloc fuel st n = Some (st1, p) -> p <> NULL ->
  exists st2 r,
    turealloc fuel st ptr n = Some (st2, r) /\
    out st2 = out st ++ [corruption_message] /\
    (forall a, X <= a < X + sizeof_header ->
       byte_at (mem st2) a = byte_at (mem st) a) /\
    free_list fuel st2 = free_list fuel st.

(** * Proofs *)

(** ** Machine arithmetic *)

Lemma WORD_eq : WORD = 18446744073709551616.
Proof. reflexivity. Qed.

(** Goals about wrapped arithmetic: expose the moduli and let [lia] split
    the quotients. *)
Ltac wrap_lia :=
  unfold node_end, wrap, to_int, to_intptr, sizeof_free_block, sizeof_header,
         NULL, MAGIC, ALIGNMENT in *;
  rewrite ?WORD_eq in *;
  change (2 ^ 64) with 18446744073709551616 in *;
  change (2 ^ 63) with 9223372036854775808 in *;
  change (2 ^ 32) with 4294967296 in *;
  change (2 ^ 31) with 2147483648 in *;
  Z.div_mod_to_equations; lia.

Lemma land_align p : Z.land (to_intptr p) (ALIGNMENT - 1) = p mod 16.
Proof.
  change (ALIGNMENT - 1) with (Z.ones 4). rewrite Z.land_ones by lia.
  change (2 ^ 4) with 16. wrap_lia.
Qed.

Lemma padding_range b : 0 <= padding b < 16 /\ (b + padding b) mod 16 = 0.
Proof.
  unfold padding, ALIGNMENT.
  destruct (Z.eqb_spec (b mod 16) 0); Z.div_mod_to_equations; lia.
Qed.

(** ** Bytes *)

Section Bytes.

Lemma byte_at_range m a : 0 <= byte_at m a < 256.
Proof. unfold byte_at. apply Z.mod_pos_bound. lia. Qed.

Lemma byte_at_set_byte m a v x :
  byte_at (set_byte m a v) x = if x =? a then v mod 256 else byte_at m x.
Proof.
  unfold byte_at, set_byte.
  destruct (x =? a); [apply Z.mod_mod; lia | reflexivity].
Qed.

Lemma store_le_outside n : forall m a v x,
  x < a \/ a + Z.of_nat n <= x -> byte_at (store_le n m a v) x = byte_at m x.
Proof.
  induction n as [|n IH]; intros m a v x Hx; [reflexivity|].
  cbn [store_le]. rewrite IH by lia. rewrite byte_at_set_byte.
  destruct (Z.eqb_spec x a); [lia | reflexivity].
Qed.

Lemma load_le_ext n : forall m1 m2 a,
  (forall i, 0 <= i < Z.of_nat n -> byte_at m1 (a + i) = byte_at m2 (a + i)) ->
  load_le n m1 a = load_le n m2 a.
Proof.
  induction n as [|n IH]; intros m1 m2 a H; [reflexivity|].
  cbn [load_le]. f_equal.
  - specialize (H 0). rewrite Z.add_0_r in H. apply H. lia.
  - f_equal. apply IH. intros i Hi.
    replace (a + 1 + i) with (a + (1 + i)) by lia. apply H. lia.
Qed.

Lemma load_le_range n : forall m a, 0 <= load_le n m a < 2 ^ (8 * Z.of_nat n).
Proof.
  induction n as [|n IH]; intros m a.
  - cbn. lia.
  - cbn [load_le]. specialize (IH m (a + 1)). pose proof (byte_at_range m a).
    replace (8 * Z.of_nat (S n)) with (8 + 8 * Z.of_nat n) by lia.
    rewrite Z.pow_add_r by lia. change (2 ^ 8) with 256. lia.
Qed.

Lemma load_store_same n : forall m a v,
  load_le n (store_le n m a v) a = v mod 2 ^ (8 * Z.of_nat n).
Proof.
  induction n as [|n IH]; intros m a v.
  - cbn. symmetry. apply Z.mod_1_r.
  - cbn [load_le store_le]. rewrite IH.
    rewrite store_le_outside by lia. rewrite byte_at_set_byte, Z.eqb_refl.
    replace (8 * Z.of_nat (S n)) with (8 + 8 * Z.of_nat n) by lia.
    rewrite Z.pow_add_r by lia. change (2 ^ 8) with 256.
    rewrite Z.rem_mul_r by lia. reflexivity.
Qed.

Lemma load_store_other n1 n2 m a1 a2 v :
  a1 + Z.of_nat n1 <= a2 \/ a2 + Z.of_nat n2 <= a1 ->
  load_le n1 (store_le n2 m a2 v) a1 = load_le n1 m a1.
Proof.
  intros H. apply load_le_ext. intros i Hi. apply store_le_outside. lia.
Qed.

Lemma memcpy_inside m dst src n i :
  0 <= i < n -> memcpy m dst src n (dst + i) = m (src + i).
Proof.
  intros Hi. unfold memcpy.
  destruct (Z.leb_spec dst (dst + i)); [|lia].
  destruct (Z.ltb_spec (dst + i) (dst + n)); [|lia].
  cbn. f_equal. lia.
Qed.

Lemma memcpy_outside m dst src n a :
  a < dst \/ dst + n <= a -> memcpy m dst src n a = m a.
Proof.
  intros Ha. unfold memcpy.
  destruct (Z.leb_spec dst a); destruct (Z.ltb_spec a (dst + n));
    cbn; try reflexivity; lia.
Qed.

Lemma memset_inside m dst c n i :
  0 <= i < n -> memset m dst c n (dst + i) = c mod 256.
Proof.
  intros Hi. unfold memset.
  destruct (Z.leb_spec dst (dst + i)); [|lia].
  destruct (Z.ltb_spec (dst + i) (dst + n)); [|lia]. reflexivity.
Qed.

Lemma memset_outside m dst c n a :
  a < dst \/ dst + n <= a -> memset m dst c n a = m a.
Proof.
  intros Ha. unfold memset.
  destruct (Z.leb_spec dst a); destruct (Z.ltb_spec a (dst + n));
    cbn; try reflexivity; lia.
Qed.

End Bytes.

(** ** Fields of [header] and [free_block] *)

Section Fields.

Variable m : memory.

Lemma load_size_range p : 0 <= load_size m p < WORD.
Proof. exact (load_le_range 8 m p). Qed.

Lemma load_next_range p : 0 <= load_next m p < WORD.
Proof. exact (load_le_range 8 m (p + 8)). Qed.

Lemma load_size_store_size p v : load_size (store_size m p v) p = wrap v.
Proof. unfold load_size, store_size. rewrite load_store_same. reflexivity. Qed.

Lemma load_next_store_next p v : load_next (store_next m p v) p = wrap v.
Proof. unfold load_next, store_next. rewrite load_store_same. reflexivity. Qed.

Lemma load_magic_store_magic p : load_magic (store_magic m p MAGIC) p = MAGIC.
Proof. unfold load_magic, store_magic. rewrite load_store_same. reflexivity. Qed.

Lemma load_size_store_size_other p q v :
  p + 8 <= q \/ q + 8 <= p -> load_size (store_size m q v) p = load_size m p.
Proof. intros H. unfold load_size, store_size. apply load_store_other. lia. Qed.

Lemma load_size_store_next_other p q v :
  p <= q \/ q + 16 <= p -> load_size (store_next m q v) p = load_size m p.
Proof. intros H. unfold load_size, store_next. apply load_store_other. lia. Qed.

Lemma load_size_store_magic_other p q v :
  p <= q \/ q + 12 <= p -> load_size (store_magic m q v) p = load_size m p.
Proof. intros H. unfold load_size, store_magic. apply load_store_other. lia. Qed.

Lemma load_next_store_size_other p q v :
  q <= p \/ p + 16 <= q -> load_next (store_size m q v) p = load_next m p.
Proof. intros H. unfold load_next, store_size. apply load_store_other. lia. Qed.

Lemma load_next_store_next_other p q v :
  p + 8 <= q \/ q + 8 <= p -> load_next (store_next m q v) p = load_next m p.
Proof. intros H. unfold load_next, store_next. apply load_store_other. lia. Qed.

Lemma load_next_store_magic_other p q v :
  p + 8 <= q \/ q + 4 <= p -> load_next (store_magic m q v) p = load_next m p.
Proof. intros H. unfold load_next, store_magic. apply load_store_other. lia. Qed.

End Fields.

Create Rewrite HintDb fields.
#[local] Hint Rewrite load_size_store_size load_next_store_next
  load_magic_store_magic : fields.
#[local] Hint Rewrite load_size_store_size_other load_size_store_next_other
  load_size_store_magic_other load_next_store_size_other
  load_next_store_next_other load_next_store_magic_other using lia : fields.

Lemma set_mem_same st : set_mem st (mem st) = st.
Proof. destruct st; reflexivity. Qed.

(** ** Heap growth *)

Lemma sbrk_cases st incr :
  sbrk st incr = (st, SBRK_FAILED) \/
  sbrk st incr = (set_brk st (brk st + incr), brk st).
Proof.
  unfold sbrk. destruct (Z.eqb_spec incr 0) as [->|].
  - right. rewrite Z.add_0_r. destruct st; reflexivity.
  - destruct ((0 <=? brk st + incr) && (brk st + incr <=? brk_max st)); auto.
Qed.

Lemma sbrk_set_HEAD st incr h :
  sbrk (set_HEAD st h) incr = (set_HEAD (fst (sbrk st incr)) h, snd (sbrk st incr)).
Proof.
  unfold sbrk. cbn [set_HEAD brk brk_max]. destruct (incr =? 0); [reflexivity|].
  destruct ((0 <=? brk st + incr) && (brk st + incr <=? brk_max st)); reflexivity.
Qed.

Lemma sbrk_set_mem st incr m :
  sbrk (set_mem st m) incr = (set_mem (fst (sbrk st incr)) m, snd (sbrk st incr)).
Proof.
  unfold sbrk. cbn [set_mem brk brk_max]. destruct (incr =? 0); [reflexivity|].
  destruct ((0 <=? brk st + incr) && (brk st + incr <=? brk_max st)); reflexivity.
Qed.

Lemma sbrk_granted st incr :
  0 <= brk st + incr <= brk_max st -> 0 <= brk st <= WORD - 32 ->
  snd (sbrk st incr) <> SBRK_FAILED.
Proof.
  intros H Hb. unfold sbrk. destruct (incr =? 0); cbn [snd].
  - change SBRK_FAILED with (WORD - 1). lia.
  - destruct (Z.leb_spec 0 (brk st + incr)); [|lia].
    destruct (Z.leb_spec (brk st + incr) (brk_max st)); [|lia].
    cbn [andb snd]. change SBRK_FAILED with (WORD - 1). lia.
Qed.

(** [do_alloc] in closed form, for a break that leaves room for a header
    below the top of the address space. *)
Lemma do_alloc_eq st size :
  0 <= brk st <= WORD - 32 ->
  let head := brk st + padding (brk st) in
  do_alloc st size =
    if snd (sbrk st (growth st size)) =? SBRK_FAILED then (st, NULL)
    else (set_mem (set_brk st (brk st + growth st size))
            (store_magic (store_size (mem st) head size) head MAGIC),
          head + sizeof_header).
Proof.
  intros Hb head. unfold do_alloc. cbn [sbrk Z.eqb]. rewrite land_align.
  change (if brk st mod 16 =? 0 then 0 else ALIGNMENT - brk st mod 16)
    with (padding (brk st)).
  change (to_intptr (wrap (size + padding (brk st) + sizeof_header)))
    with (growth st size).
  pose proof (padding_range (brk st)) as [Hpad _].
  assert (Hne : brk st <> SBRK_FAILED) by (change SBRK_FAILED with (WORD - 1); lia).
  destruct (sbrk_cases st (growth st size)) as [E|E]; rewrite E; cbn [fst snd].
  - rewrite Z.eqb_refl. reflexivity.
  - destruct (Z.eqb_spec (brk st) SBRK_FAILED) as [|_]; [contradiction|].
    assert (Hh : wrap (to_intptr (brk st) + padding (brk st)) = head)
      by (subst head; wrap_lia).
    rewrite Hh. cbn [mem set_brk]. f_equal. subst head. wrap_lia.
Qed.

Lemma do_alloc_null st n st1 :
  0 <= brk st <= WORD - 32 ->
  do_alloc st n = (st1, NULL) -> st1 = st.
Proof.
  intros Hb. rewrite do_alloc_eq by assumption.
  destruct (_ =? SBRK_FAILED); intros E.
  - congruence.
  - apply (f_equal snd) in E. cbn [snd] in E.
    pose proof (padding_range (brk st)). unfold sizeof_header, NULL in *. lia.
Qed.

Lemma do_alloc_granted st size :
  0 <= size -> 0 <= brk st <= WORD - 32 ->
  let head := brk st + padding (brk st) in
  head + sizeof_header + size <= brk_max st ->
  head + sizeof_header + size < 2 ^ 63 ->
  do_alloc st size =
    (set_mem (set_brk st (head + sizeof_header + size))
       (store_magic (store_size (mem st) head size) head MAGIC),
     head + sizeof_header).
Proof.
  intros Hs Hb head Hmax Hlim. rewrite do_alloc_eq by assumption. fold head.
  pose proof (padding_range (brk st)) as [Hp _].
  assert (Hg : growth st size = size + padding (brk st) + sizeof_header).
  { unfold growth. subst head. wrap_lia. }
  rewrite Hg.
  destruct (Z.eqb_spec (snd (sbrk st (size + padding (brk st) + sizeof_header)))
              SBRK_FAILED) as [E|_].
  - exfalso. revert E. apply sbrk_granted; [|assumption]. subst head.
    unfold sizeof_header in *. lia.
  - do 3 f_equal. subst head. lia.
Qed.

(** ** Splitting *)

Lemma split_cases st c T :
  split st c T = (st, NULL) \/ exists st', split st c T = (st', c).
Proof.
  unfold split. destruct (_ <? _); [left; reflexivity|right; eexists; reflexivity].
Qed.

(** [split] in closed form when the block is large enough; the two nodes do
    not overlap. *)
Lemma split_eq st block T :
  0 <= T < 2 ^ 31 -> 0 <= block < WORD ->
  T + sizeof_free_block <= load_size (mem st) block ->
  let right := wrap (block + T + sizeof_free_block) in
  split st block T =
    (set_mem st
       (store_size
          (store_next
             (store_size (mem st) right
                (wrap (load_size (mem st) block - T - sizeof_free_block)))
             right (load_next (mem st) block))
          block (wrap T)),
     block) /\
  (right + 16 <= block \/ block + 16 <= right).
Proof.
  intros HT Hb Hge right.
  pose proof (load_size_range (mem st) block) as RN.
  assert (Hw : wrap (T + sizeof_free_block) = T + 16) by wrap_lia.
  assert (Hdis : right + 16 <= block \/ block + 16 <= right)
    by (subst right; wrap_lia).
  split; [|exact Hdis].
  unfold split. rewrite Hw.
  destruct (Z.ltb_spec (load_size (mem st) block) (T + 16));
    [unfold sizeof_free_block in *; lia|].
  fold right. rewrite load_next_store_size_other by lia. reflexivity.
Qed.

(** C5.  For a free block at [block] whose size field holds [N], and a
    target [T] (a non-negative [int]) with [N >= T + header_size + 1],
    [split] succeeds and returns [block]; afterwards the size field of the
    left block is exactly [T], the right block starts [T + header_size] bytes
    further, its size field is exactly [N - T - header_size], and its
    successor link is the one the original block had.  [HEAD] and the break
    are untouched. *)
Theorem split_correct (st : state) (block T N nxt : Z) :
  0 <= T < 2 ^ 31 ->
  0 <= block < WORD ->
  load_size (mem st) block = N ->
  load_next (mem st) block = nxt ->
  N >= T + sizeof_free_block + 1 ->
  let right := wrap (block + T + sizeof_free_block) in
  exists st',
    split st block T = (st', block) /\
    load_size (mem st') block = T /\
    load_size (mem st') right = N - T - sizeof_free_block /\
    load_next (mem st') right = nxt /\
    HEAD st' = HEAD st /\ brk st' = brk st.
Proof.
  intros HT Hb HN Hn Hge right.
  pose proof (load_size_range (mem st) block) as RN. rewrite HN in RN.
  pose proof (load_next_range (mem st) block) as Rn. rewrite Hn in Rn.
  destruct (split_eq st block T HT Hb) as [E Hdis]; [lia|].
  fold right in E, Hdis. rewrite HN, Hn in E.
  eexists. split; [exact E|]. cbn [mem set_mem HEAD brk].
  repeat split; autorewrite with fields; wrap_lia.
Qed.

Lemma split_correct_witness :
  exists st',
    split one_node 4096 32 = (st', 4096) /\
    load_size (mem st') 4096 = 32 /\
    load_size (mem st') 4144 = 52 /\
    load_next (mem st') 4144 = NULL.
Proof.
  assert (HT : 0 <= 32 < 2 ^ 31) by lia.
  assert (Hb : 0 <= 4096 < WORD) by (unfold WORD; lia).
  assert (HN : load_size (mem one_node) 4096 = 100) by (vm_compute; reflexivity).
  assert (Hn : load_next (mem one_node) 4096 = NULL) by (vm_compute; reflexivity).
  assert (Hge : 100 >= 32 + sizeof_free_block + 1) by (unfold sizeof_free_block; lia).
  destruct (split_correct one_node 4096 32 100 NULL HT Hb HN Hn Hge)
    as (st' & E & L & R & X & _).
  exists st'. repeat split; assumption.
Defined.

(** ** Walking the free list *)

Lemma nodes_from_inv f m h l :
  nodes_from f m h = Some l ->
  (h = NULL /\ l = []) \/
  (h <> NULL /\ exists k l', f = S k /\ l = h :: l' /\
                 nodes_from k m (load_next m h) = Some l').
Proof.
  destruct f as [|k]; cbn [nodes_from]; [discriminate|].
  destruct (Z.eqb_spec h NULL) as [->|Hh].
  - intros [= <-]. left. auto.
  - destruct (nodes_from k m (load_next m h)) as [l'|] eqn:E; [|discriminate].
    intros [= <-]. right. split; [assumption|]. exists k, l'. auto.
Qed.

(** The walk only reads the [next] field of the nodes it visits. *)
Lemma nodes_from_ext f : forall m m' h l,
  (forall n, In n l -> load_next m' n = load_next m n) ->
  nodes_from f m h = Some l -> nodes_from f m' h = Some l.
Proof.
  induction f as [|k IH]; intros m m' h l Hext H; [discriminate|].
  destruct (nodes_from_inv _ _ _ _ H) as [[-> ->]|[Hh (k' & l' & Hk & -> & Hn)]].
  - reflexivity.
  - injection Hk as <-. cbn [nodes_from].
    destruct (Z.eqb_spec h NULL) as [|_]; [contradiction|].
    rewrite (Hext h) by (left; reflexivity).
    rewrite (IH m m' _ l'); [reflexivity | | assumption].
    intros n Hin. apply Hext. right. assumption.
Qed.

(** More fuel never changes a walk that ended. *)
Lemma nodes_from_mono f : forall m h l f',
  nodes_from f m h = Some l -> (f <= f')%nat -> nodes_from f' m h = Some l.
Proof.
  induction f as [|k IH]; intros m h l f' H Hle; [discriminate|].
  destruct f' as [|k']; [lia|].
  destruct (nodes_from_inv _ _ _ _ H) as [[-> ->]|[Hh (k0 & l0 & [= <-] & -> & Hn)]].
  - reflexivity.
  - cbn [nodes_from]. destruct (Z.eqb_spec h NULL) as [|_]; [contradiction|].
    rewrite (IH m _ l0 k'); [reflexivity | assumption | lia].
Qed.

(** On a list that ends, the scans end: more fuel than nodes is enough. *)
Lemma find_prev_from_total f : forall m h l fuel b,
  nodes_from f m h = Some l -> (List.length l < fuel)%nat ->
  exists r, find_prev_from fuel m h b = Some r.
Proof.
  induction f as [|k IH]; intros m h l fuel b H Hlen; [discriminate|].
  destruct fuel as [|fuel]; [lia|]. cbn [find_prev_from].
  destruct (nodes_from_inv _ _ _ _ H) as [[-> ->]|[Hh (k' & l' & Hk & -> & Hn)]].
  - eexists. reflexivity.
  - injection Hk as <-. destruct (Z.eqb_spec h NULL) as [|_]; [contradiction|].
    destruct (_ =? b); [eexists; reflexivity|].
    apply (IH m _ l'); [assumption | cbn in Hlen; lia].
Qed.

Lemma find_next_from_total f : forall m h l fuel e,
  nodes_from f m h = Some l -> (List.length l < fuel)%nat ->
  exists r, find_next_from fuel m h e = Some r.
Proof.
  induction f as [|k IH]; intros m h l fuel e H Hlen; [discriminate|].
  destruct fuel as [|fuel]; [lia|]. cbn [find_next_from].
  destruct (nodes_from_inv _ _ _ _ H) as [[-> ->]|[Hh (k' & l' & Hk & -> & Hn)]].
  - eexists. reflexivity.
  - injection Hk as <-. destruct (Z.eqb_spec h NULL) as [|_]; [contradiction|].
    destruct (h =? e); [eexists; reflexivity|].
    apply (IH m _ l'); [assumption | cbn in Hlen; lia].
Qed.

Lemma coalesce_total f st l fuel b :
  free_list f st = Some l -> (List.length l < fuel)%nat ->
  exists r, coalesce fuel st b = Some r.
Proof.
  intros H Hlen. unfold coalesce.
  destruct (b =? NULL); [eexists; reflexivity|].
  unfold find_prev, find_next.
  destruct (find_prev_from_total _ _ _ _ fuel b H Hlen) as [p ->].
  destruct (find_next_from_total _ _ _ _ fuel
              (wrap (b + load_size (mem st) b + sizeof_free_block)) H Hlen)
    as [n ->].
  destruct (coalesce_prev (mem st) b p). eexists. reflexivity.
Qed.

(** [coalesce] writes to memory only. *)
Lemma coalesce_frame fuel st b st1 b1 :
  coalesce fuel st b = Some (st1, b1) ->
  HEAD st1 = HEAD st /\ brk st1 = brk st /\ out st1 = out st.
Proof.
  unfold coalesce. destruct (b =? NULL); [intros [= <- <-]; auto|].
  destruct (find_prev _ _ _) as [p|]; [|discriminate].
  destruct (find_next _ _ _); [|discriminate].
  destruct (coalesce_prev (mem st) b p) as [m1 b'].
  intros [= <- <-]. auto.
Qed.

Lemma coalesce_empty fuel st b :
  HEAD st = NULL -> b <> NULL -> (1 <= fuel)%nat ->
  coalesce fuel st b = Some (st, b).
Proof.
  intros HH Hb Hf. unfold coalesce, find_prev, find_next.
  destruct (Z.eqb_spec b NULL) as [|_]; [contradiction|].
  destruct fuel as [|k]; [lia|]. rewrite HH.
  cbn [find_prev_from find_next_from Z.eqb NULL].
  unfold coalesce_prev, coalesce_next. cbn [Z.eqb NULL].
  rewrite set_mem_same. reflexivity.
Qed.

(** ** Free *)

(** C6.  [tufree] does nothing on a null pointer.  On a pointer whose
    header does not carry the sentinel it declines silently: the whole state,
    output included, is returned as it was.  When the sentinel matches, the
    header is rewritten in place as a list node that keeps the recorded size
    and links to the current [HEAD], [coalesce] runs on that node, and what
    [coalesce] returns becomes [HEAD]; on a free list that ends, and that the
    freed header does not overlap, the call returns as soon as the fuel
    exceeds the length of the list, printing nothing and leaving the break
    alone. *)
Theorem tufree_spec (fuel : nat) (st : state) (ptr : Z) :
  0 <= HEAD st < WORD ->
  let hdr := wrap (ptr - sizeof_header) in
  (ptr = NULL -> tufree fuel st ptr = Some st) /\
  (ptr <> NULL -> load_magic (mem st) hdr <> MAGIC ->
     tufree fuel st ptr = Some st) /\
  (ptr <> NULL -> load_magic (mem st) hdr = MAGIC ->
     load_size (pushed st hdr) hdr = load_size (mem st) hdr /\
     load_next (pushed st hdr) hdr = HEAD st /\
     (forall a, a < hdr \/ hdr + 16 <= a ->
        byte_at (pushed st hdr) a = byte_at (mem st) a) /\
     tufree fuel st ptr =
       match coalesce fuel (set_mem st (pushed st hdr)) hdr with
       | Some (st1, b) => Some (set_HEAD st1 b)
       | None => None
       end /\
     (forall f l, free_list f st = Some l ->
        Forall (fun n => n + 16 <= hdr \/ hdr + 16 <= n) l ->
        (List.length l < fuel)%nat ->
        exists st', tufree fuel st ptr = Some st' /\
                    out st' = out st /\ brk st' = brk st)).
Proof.
  intros HH hdr. split; [|split].
  - intros ->. reflexivity.
  - intros Hp Hm. unfold tufree.
    destruct (Z.eqb_spec ptr NULL) as [|_]; [contradiction|]. fold hdr.
    destruct (Z.eqb_spec (load_magic (mem st) hdr) MAGIC) as [|_];
      [contradiction|reflexivity].
  - intros Hp Hm.
    assert (Heq : tufree fuel st ptr =
       match coalesce fuel (set_mem st (pushed st hdr)) hdr with
       | Some (st1, b) => Some (set_HEAD st1 b)
       | None => None
       end).
    { unfold tufree. destruct (Z.eqb_spec ptr NULL) as [|_]; [contradiction|].
      fold hdr. rewrite Hm, Z.eqb_refl. reflexivity. }
    pose proof (load_size_range (mem st) hdr) as Rs.
    split; [|split; [|split; [|split]]].
    + unfold pushed. autorewrite with fields. wrap_lia.
    + unfold pushed. autorewrite with fields. wrap_lia.
    + intros a Ha. unfold pushed, store_next, store_size.
      rewrite !store_le_outside by lia. reflexivity.
    + exact Heq.
    + intros f l Hl Hdis Hlen. rewrite Heq.
      assert (Hl' : free_list f (set_mem st (pushed st hdr)) = Some l).
      { unfold free_list in *. cbn [mem HEAD set_mem].
        apply nodes_from_ext with (m := mem st); [|assumption].
        intros n Hin. rewrite Forall_forall in Hdis. specialize (Hdis n Hin).
        unfold pushed. autorewrite with fields. reflexivity. }
      destruct (coalesce_total _ _ _ fuel hdr Hl' Hlen) as [[st1 b] Hc].
      rewrite Hc. eexists. split; [reflexivity|].
      apply coalesce_frame in Hc. cbn [out brk set_HEAD set_mem] in *. tauto.
Qed.

Lemma tufree_spec_witness :
  exists st', tufree 1 booted64 4112 = Some st' /\ brk st' = brk booted64.
Proof.
  assert (HH : 0 <= HEAD booted64 < WORD).
  { replace (HEAD booted64) with 0 by (vm_compute; reflexivity). unfold WORD. lia. }
  destruct (tufree_spec 1 booted64 4112 HH) as (_ & _ & H).
  assert (Hp : 4112 <> NULL) by discriminate.
  assert (Hm : load_magic (mem booted64) (wrap (4112 - sizeof_header)) = MAGIC)
    by (vm_compute; reflexivity).
  destruct (H Hp Hm) as (_ & _ & _ & _ & T).
  destruct (T 1%nat [] eq_refl (Forall_nil _) (Nat.lt_0_succ 0)) as (st' & E & _ & B).
  exists st'. split; assumption.
Defined.

(** ** Allocation that fails *)

Lemma tumalloc_from_null fuel : forall rfuel st cur n st1 f l,
  0 <= brk st <= WORD - 32 ->
  nodes_from f (mem st) cur = Some l ->
  Forall (fun c => 0 < c <= WORD - 32) l ->
  tumalloc_from fuel rfuel st cur n = Some (st1, NULL) -> st1 = st.
Proof.
  induction fuel as [|k IH]; intros rfuel st cur n st1 f l Hb Hl Hok;
    [discriminate|].
  cbn [tumalloc_from].
  destruct (nodes_from_inv _ _ _ _ Hl) as [[-> ->]|[Hh (k' & l' & -> & -> & Hn)]].
  - cbn [Z.eqb NULL]. intros [= E]. apply do_alloc_null in E; assumption.
  - destruct (Z.eqb_spec cur NULL) as [|_]; [contradiction|].
    inversion Hok as [|? ? Hc Hok']; subst.
    destruct (_ <=? _).
    + destruct (split_cases st cur (to_int (wrap (n + sizeof_header))))
        as [E|[st' E]]; rewrite E.
      * cbn [Z.eqb NULL]. congruence.
      * destruct (Z.eqb_spec cur NULL) as [|_]; [contradiction|].
        destruct (remove_free_block rfuel st' cur); [|discriminate].
        intros [= _ E2]. exfalso. wrap_lia.
    + intros H. eapply IH; eauto.
Qed.

(** A [NULL] from [tumalloc] means that nothing was touched, on a heap whose
    break and free nodes leave room for a header below the top of the
    address space. *)
Lemma tumalloc_null fuel st n st1 f l :
  0 <= brk st <= WORD - 32 ->
  free_list f st = Some l ->
  Forall (fun c => 0 < c <= WORD - 32) l ->
  tumalloc fuel st n = Some (st1, NULL) -> st1 = st.
Proof.
  intros Hb Hl Hok. unfold tumalloc.
  destruct (HEAD st =? NULL).
  - intros [= E]. apply do_alloc_null in E; assumption.
  - intros H. eapply tumalloc_from_null; eauto.
Qed.

(** ** First fit *)

Lemma tumalloc_from_no_fit f : forall fuel rfuel st cur n l,
  nodes_from f (mem st) cur = Some l ->
  Forall (fun c => load_size (mem st) c < wrap (n + sizeof_header)) l ->
  (List.length l < fuel)%nat ->
  tumalloc_from fuel rfuel st cur n = Some (do_alloc st n).
Proof.
  induction f as [|k IH]; intros fuel rfuel st cur n l Hl Hsmall Hlen;
    [discriminate|].
  destruct fuel as [|fuel]; [lia|]. cbn [tumalloc_from].
  destruct (nodes_from_inv _ _ _ _ Hl) as [[-> ->]|[Hh (k' & l' & [= <-] & -> & Hn)]].
  - reflexivity.
  - destruct (Z.eqb_spec cur NULL) as [|_]; [contradiction|].
    inversion Hsmall as [|? ? Hc Hrest]; subst.
    destruct (Z.leb_spec (wrap (n + sizeof_header)) (load_size (mem st) cur));
      [lia|].
    apply (IH fuel rfuel st _ n l'); [assumption | assumption | cbn in Hlen; lia].
Qed.

(** When no node of the free list is large enough, [tumalloc] is
    [do_alloc]. *)
Lemma tumalloc_no_fit f fuel st n l :
  free_list f st = Some l ->
  Forall (fun c => load_size (mem st) c < wrap (n + sizeof_header)) l ->
  (List.length l < fuel)%nat ->
  tumalloc fuel st n = Some (do_alloc st n).
Proof.
  intros Hl Hsmall Hlen. unfold tumalloc.
  destruct (HEAD st =? NULL); [reflexivity|].
  eapply tumalloc_from_no_fit; eauto.
Qed.

(** First fit on the head node when [split] refuses it. *)
Lemma tumalloc_head_split_fails fuel st n :
  (1 <= fuel)%nat -> HEAD st <> NULL ->
  0 <= n -> n + sizeof_header < 2 ^ 31 ->
  n + sizeof_header <= load_size (mem st) (HEAD st) < n + sizeof_header + sizeof_free_block ->
  tumalloc fuel st n = Some (st, NULL).
Proof.
  intros Hf Hh Hn Hlim Hsz. unfold tumalloc.
  destruct (Z.eqb_spec (HEAD st) NULL) as [|_]; [contradiction|].
  destruct fuel as [|k]; [lia|]. cbn [tumalloc_from].
  destruct (Z.eqb_spec (HEAD st) NULL) as [|_]; [contradiction|].
  assert (Hw : wrap (n + sizeof_header) = n + 16) by wrap_lia.
  assert (Hi : to_int (n + 16) = n + 16) by wrap_lia.
  rewrite Hw, Hi.
  destruct (Z.leb_spec (n + 16) (load_size (mem st) (HEAD st)));
    [|unfold sizeof_header in *; lia].
  unfold split.
  assert (Hw2 : wrap (n + 16 + sizeof_free_block) = n + 32) by wrap_lia.
  rewrite Hw2.
  destruct (Z.ltb_spec (load_size (mem st) (HEAD st)) (n + 32));
    [|unfold sizeof_header, sizeof_free_block in *; lia].
  reflexivity.
Qed.

(** First fit on the head node when [split] accepts it: the node is handed
    out, [HEAD] moves to its successor, and the remainder that [split] wrote
    is on no list. *)
Lemma tumalloc_head_leaks_remainder fuel f st n c N l' :
  (1 <= fuel)%nat ->
  0 <= n -> n + sizeof_header < 2 ^ 31 ->
  HEAD st = c ->
  free_list f st = Some (c :: l') ->
  load_size (mem st) c = N ->
  n + sizeof_header + sizeof_free_block <= N ->
  0 < c -> c + sizeof_free_block + N <= WORD ->
  Forall (fun x => x + 16 <= c \/ c + sizeof_free_block + N <= x) l' ->
  let r := c + n + sizeof_header + sizeof_free_block in
  exists st',
    tumalloc fuel st n = Some (st', c + sizeof_header) /\
    load_size (mem st') c = n /\ load_magic (mem st') c = MAGIC /\
    load_size (mem st') r = N - n - sizeof_header - sizeof_free_block /\
    HEAD st' = load_next (mem st) c /\
    free_list f st' = Some l' /\ ~ In r l' /\
    brk st' = brk st.
Proof.
  intros Hf Hn Hlim HH Hl HN Hsz Hc Htop Hout r.
  unfold sizeof_header, sizeof_free_block in *.
  assert (Hcn : (c =? NULL) = false) by (apply Z.eqb_neq; unfold NULL; lia).
  assert (Hw : wrap (n + 16) = n + 16) by wrap_lia.
  assert (Hi : to_int (n + 16) = n + 16) by wrap_lia.
  destruct (split_eq st c (n + 16)) as [E Hdis];
    [lia | unfold WORD in *; lia | unfold sizeof_free_block; lia|].
  assert (Hr : wrap (c + (n + 16) + sizeof_free_block) = r) by (subst r; wrap_lia).
  rewrite Hr in E, Hdis. rewrite HN in E.
  set (m1 := store_size
               (store_next (store_size (mem st) r (wrap (N - (n + 16) - sizeof_free_block)))
                  r (load_next (mem st) c))
               c (wrap (n + 16))) in E.
  assert (Hnext1 : load_next m1 c = load_next (mem st) c).
  { subst m1. autorewrite with fields. reflexivity. }
  set (st1 := set_mem st m1) in E.
  set (m2 := store_magic (store_size m1 c n) c MAGIC).
  exists (set_mem (set_HEAD st1 (load_next (mem st) c)) m2).
  assert (Hl0 := Hl). unfold free_list in Hl. rewrite HH in Hl.
  destruct (nodes_from_inv _ _ _ _ Hl) as [[C _]|[_ (k & l0 & -> & [= <-] & Hl')]];
    [unfold NULL in C; lia|].
  split.
  { unfold tumalloc. rewrite HH, Hcn. destruct fuel as [|k']; [lia|].
    cbn [tumalloc_from]. rewrite Hcn. unfold sizeof_header. rewrite Hw, HN, Hi.
    destruct (Z.leb_spec (n + 16) N); [|lia].
    rewrite E, Hcn. unfold remove_free_block.
    cbn [HEAD st1 set_mem mem]. rewrite HH, Z.eqb_refl, Hnext1.
    f_equal. f_equal. wrap_lia. }
  cbn [mem HEAD brk set_mem set_HEAD st1].
  assert (Hext : forall x, In x l' -> load_next m2 x = load_next (mem st) x).
  { intros x Hx. rewrite Forall_forall in Hout. specialize (Hout x Hx).
    subst m2 m1. autorewrite with fields. reflexivity. }
  repeat split.
  - subst m2. autorewrite with fields. wrap_lia.
  - subst m2. apply load_magic_store_magic.
  - subst m2 m1. autorewrite with fields. wrap_lia.
  - unfold free_list. cbn [mem HEAD set_mem set_HEAD].
    apply nodes_from_mono with (f := k); [|lia].
    apply nodes_from_ext with (m := mem st); assumption.
  - intros Hin. rewrite Forall_forall in Hout. specialize (Hout r Hin).
    subst r. lia.
Qed.

(** ** Zeroed allocation *)

(** C9.  [tucalloc num size] allocates [size * num] modulo [2^64] bytes
    through [tumalloc]; it returns [NULL] exactly when that allocation
    returned [NULL], and then adds no effect of its own.  Otherwise it returns
    the pointer that [tumalloc] returned, every byte of the payload is zero,
    and nothing else differs from the state [tumalloc] left. *)
Theorem tucalloc_spec (fuel : nat) (st : state) (num size : Z) :
  let n := wrap (size * num) in
  (tumalloc fuel st n = None -> tucalloc fuel st num size = None) /\
  (forall st1 p, tumalloc fuel st n = Some (st1, p) ->
     exists st2,
       tucalloc fuel st num size = Some (st2, p) /\
       (p = NULL -> st2 = st1) /\
       (p <> NULL ->
          (forall i, 0 <= i < n -> byte_at (mem st2) (p + i) = 0) /\
          (forall a, a < p \/ p + n <= a ->
             byte_at (mem st2) a = byte_at (mem st1) a) /\
          HEAD st2 = HEAD st1 /\ brk st2 = brk st1 /\ out st2 = out st1)).
Proof.
  intros n. split.
  - intros H. unfold tucalloc. fold n. rewrite H. reflexivity.
  - intros st1 p H. unfold tucalloc. fold n. rewrite H.
    destruct (Z.eqb_spec p NULL) as [->|Hp].
    + exists st1. split; [reflexivity|]. split; [reflexivity|].
      intros C. contradiction.
    + eexists. split; [reflexivity|]. split; [contradiction|]. intros _.
      cbn [mem set_mem HEAD brk out]. repeat split.
      * intros i Hi. unfold byte_at. rewrite memset_inside by assumption.
        reflexivity.
      * intros a Ha. unfold byte_at. rewrite memset_outside by assumption.
        reflexivity.
Qed.

Lemma tucalloc_spec_witness :
  exists st2,
    tucalloc 2 boot 4 16 = Some (st2, 4112) /\
    forall i, 0 <= i < 64 -> byte_at (mem st2) (4112 + i) = 0.
Proof.
  destruct (tucalloc_spec 2 boot 4 16) as [_ H].
  assert (Ha : tumalloc 2 boot (wrap (16 * 4)) = Some (booted64, 4112))
    by (vm_compute; reflexivity).
  destruct (H booted64 4112 Ha) as (st2 & E & _ & Z).
  assert (Hq : 4112 <> NULL) by discriminate.
  destruct (Z Hq) as (Zero & _).
  exists st2. split; [exact E | exact Zero].
Defined.

(** ** Allocate, free, allocate again *)

(** C1, as the code has it.  Start from an empty free list with the break
    above 0, and let the OS grant both growths.  [tumalloc s] grows the heap
    and returns a block; [tufree] puts that block, alone, on the free list
    with size [s]; the second [tumalloc s] walks past it, because first fit
    asks for a node of at least [s + header_size], and grows the heap a
    second time: the break moves from [b1] to [b2 > b1].  The pointer returned
    has a header recording [s] and the sentinel and its [s] payload bytes end
    at the new break; the freed block is still the only node of the list. *)
Theorem roundtrip_regrows (fuel : nat) (st : state) (s : Z) :
  (2 <= fuel)%nat ->
  HEAD st = NULL ->
  0 < brk st -> 0 <= s ->
  let h1 := brk st + padding (brk st) in
  let b1 := h1 + sizeof_header + s in
  let h2 := b1 + padding b1 in
  let b2 := h2 + sizeof_header + s in
  b2 <= brk_max st -> b2 < 2 ^ 63 ->
  exists s1 s2 s3,
    tumalloc fuel st s = Some (s1, h1 + sizeof_header) /\
    tufree fuel s1 (h1 + sizeof_header) = Some s2 /\
    tumalloc fuel s2 s = Some (s3, h2 + sizeof_header) /\
    brk s1 = b1 /\ brk s2 = b1 /\ brk s3 = b2 /\ b1 < b2 /\
    free_list fuel s2 = Some [h1] /\ load_size (mem s2) h1 = s /\
    free_list fuel s3 = Some [h1] /\
    load_size (mem s3) h2 = s /\ load_magic (mem s3) h2 = MAGIC.
Proof.
  intros Hf HH Hb Hs h1 b1 h2 b2 Hmax Hlim.
  pose proof (padding_range (brk st)) as [Hp1 _].
  pose proof (padding_range b1) as [Hp2 _].
  assert (H63 : 2 ^ 63 + 32 <= WORD) by (unfold WORD; lia).
  unfold sizeof_header in *.
  set (m1 := store_magic (store_size (mem st) h1 s) h1 MAGIC).
  set (s1 := set_mem (set_brk st b1) m1).
  assert (E1 : tumalloc fuel st s = Some (s1, h1 + 16)).
  { unfold tumalloc. rewrite HH. cbn [Z.eqb NULL].
    rewrite do_alloc_granted; fold h1; unfold sizeof_header; try lia.
    reflexivity. }
  assert (Ls1 : load_size m1 h1 = s).
  { subst m1. autorewrite with fields. wrap_lia. }
  assert (Hhdr : wrap (h1 + 16 - sizeof_header) = h1) by wrap_lia.
  set (m2 := pushed s1 h1).
  set (s2 := set_HEAD (set_mem s1 m2) h1).
  assert (E2 : tufree fuel s1 (h1 + 16) = Some s2).
  { unfold tufree.
    destruct (Z.eqb_spec (h1 + 16) NULL) as [E|_]; [unfold NULL in E; lia|].
    rewrite Hhdr. cbn [mem s1 set_mem]. unfold m1 at 1.
    rewrite load_magic_store_magic, Z.eqb_refl.
    change (store_next (store_size m1 h1 (load_size m1 h1)) h1 (HEAD s1)) with m2.
    rewrite coalesce_empty;
      [reflexivity | cbn; assumption | unfold NULL; lia | lia]. }
  assert (Ls2 : load_size m2 h1 = s).
  { subst m2. unfold pushed. cbn [mem s1 set_mem].
    autorewrite with fields. rewrite Ls1. wrap_lia. }
  assert (Ln2 : load_next m2 h1 = NULL).
  { subst m2. unfold pushed. rewrite load_next_store_next.
    cbn [HEAD s1 set_mem set_brk]. rewrite HH. reflexivity. }
  set (m3 := store_magic (store_size m2 h2 s) h2 MAGIC).
  set (s3 := set_mem (set_brk s2 b2) m3).
  assert (Hh1 : (h1 =? NULL) = false) by (apply Z.eqb_neq; unfold NULL; lia).
  assert (E3 : tumalloc fuel s2 s = Some (s3, h2 + 16)).
  { unfold tumalloc. cbn [HEAD s2 set_HEAD]. rewrite Hh1.
    destruct fuel as [|[|k]]; try lia. cbn [tumalloc_from]. rewrite Hh1.
    cbn [mem s2 set_HEAD set_mem]. rewrite Ls2, Ln2.
    destruct (Z.leb_spec (wrap (s + sizeof_header)) s) as [E|_]; [wrap_lia|].
    cbn [Z.eqb NULL].
    rewrite do_alloc_granted; cbn [brk brk_max s2 s1 set_HEAD set_mem set_brk];
      fold h2; unfold sizeof_header; try lia.
    reflexivity. }
  assert (Ln3 : load_next m3 h1 = NULL).
  { subst m3. autorewrite with fields. exact Ln2. }
  exists s1, s2, s3.
  split; [exact E1|]. split; [exact E2|]. split; [exact E3|].
  split; [reflexivity|]. split; [reflexivity|]. split; [reflexivity|].
  split; [lia|].
  destruct fuel as [|[|k]]; try lia.
  split; [|split; [exact Ls2|split; [|split]]].
  - unfold free_list. cbn [HEAD mem s2 set_HEAD set_mem nodes_from].
    rewrite Hh1, Ln2. reflexivity.
  - unfold free_list. cbn [HEAD mem s3 s2 set_HEAD set_mem set_brk nodes_from].
    rewrite Hh1, Ln3. reflexivity.
  - cbn [mem s3 set_mem]. subst m3. autorewrite with fields. wrap_lia.
  - cbn [mem s3 set_mem]. subst m3. apply load_magic_store_magic.
Qed.

Lemma roundtrip_regrows_witness :
  exists s1 s2 s3,
    tumalloc 2 boot 64 = Some (s1, 4112) /\
    tufree 2 s1 4112 = Some s2 /\
    tumalloc 2 s2 64 = Some (s3, 4192) /\
    brk s2 = 4176 /\ brk s3 = 4256 /\ free_list 2 s3 = Some [4096].
Proof.
  assert (Hf : (2 <= 2)%nat) by lia.
  assert (HH : HEAD boot = NULL) by reflexivity.
  assert (Hb : 0 < brk boot) by (cbn; lia).
  assert (Hs : 0 <= 64) by lia.
  destruct (roundtrip_regrows 2 boot 64 Hf HH Hb Hs)
    as (s1 & s2 & s3 & E1 & E2 & E3 & _ & B2 & B3 & _ & _ & _ & L3 & _).
  - vm_compute. discriminate.
  - vm_compute. reflexivity.
  - exists s1, s2, s3. repeat split; assumption.
Defined.

(** C1, as the specification words it, fails: in a fresh process,
    [tumalloc 64], [tufree], [tumalloc 64] moves the break from 4176 to
    4256 on the second allocation. *)
Lemma roundtrip_64_grows_heap : ~ reuses_freed_block 8 boot 64.
Proof.
  intros H.
  assert (E : match tumalloc 8 boot 64 with
              | Some (s1, p) =>
                  match tufree 8 s1 p with
                  | Some s2 =>
                      match tumalloc 8 s2 64 with
                      | Some (s3, _) => Some (brk s2, brk s3)
                      | None => None
                      end
                  | None => None
                  end
              | None => None
              end = Some (4176, 4256)) by (vm_compute; reflexivity).
  destruct (tumalloc 8 boot 64) as [[s1 p]|] eqn:E1; [|discriminate].
  destruct (tufree 8 s1 p) as [s2|] eqn:E2; [|discriminate].
  destruct (tumalloc 8 s2 64) as [[s3 q]|] eqn:E3; [|discriminate].
  injection E as B2 B3.
  destruct (H s1 p s2 s3 q E1 E2 E3) as [_ Hb]. lia.
Qed.

(** ** Coalescing on a well-formed free list *)

(** What the two scans of [coalesce] report, on a list that ends. *)
Lemma find_prev_from_spec f : forall m h l fuel b r,
  nodes_from f m h = Some l ->
  find_prev_from fuel m h b = Some r ->
  (r = NULL /\ forall a, In a l -> node_end m a <> b) \/
  (In r l /\ node_end m r = b).
Proof.
  induction f as [|k IH]; intros m h l fuel b r Hl Hf; [discriminate|].
  destruct fuel as [|fuel]; [discriminate|]. cbn [find_prev_from] in Hf.
  destruct (nodes_from_inv _ _ _ _ Hl) as [[-> ->]|[Hh (k' & l' & [= <-] & -> & Hn)]].
  - cbn [Z.eqb NULL] in Hf. injection Hf as <-. left. split; [reflexivity|].
    intros a [].
  - destruct (Z.eqb_spec h NULL) as [|_]; [contradiction|].
    fold (node_end m h) in Hf.
    destruct (Z.eqb_spec (node_end m h) b) as [E|E].
    + injection Hf as <-. right. split; [left; reflexivity|exact E].
    + destruct (IH _ _ _ _ _ _ Hn Hf) as [[-> Hno]|[Hin He]].
      * left. split; [reflexivity|]. intros a [<-|Ha]; [exact E|auto].
      * right. split; [right; exact Hin|exact He].
Qed.

Lemma find_next_from_spec f : forall m h l fuel e r,
  nodes_from f m h = Some l ->
  find_next_from fuel m h e = Some r ->
  (r = NULL /\ forall a, In a l -> a <> e) \/ (In r l /\ r = e).
Proof.
  induction f as [|k IH]; intros m h l fuel e r Hl Hf; [discriminate|].
  destruct fuel as [|fuel]; [discriminate|]. cbn [find_next_from] in Hf.
  destruct (nodes_from_inv _ _ _ _ Hl) as [[-> ->]|[Hh (k' & l' & [= <-] & -> & Hn)]].
  - cbn [Z.eqb NULL] in Hf. injection Hf as <-. left. split; [reflexivity|].
    intros a [].
  - destruct (Z.eqb_spec h NULL) as [|_]; [contradiction|].
    destruct (Z.eqb_spec h e) as [E|E].
    + injection Hf as <-. right. split; [left; reflexivity|exact E].
    + destruct (IH _ _ _ _ _ _ Hn Hf) as [[-> Hno]|[Hin He]].
      * left. split; [reflexivity|]. intros a [<-|Ha]; [exact E|auto].
      * right. split; [right; exact Hin|exact He].
Qed.

(** A walk that ends starts in the list (or at [NULL]) and never leaves it. *)
Lemma nodes_from_closed f : forall m h l,
  nodes_from f m h = Some l ->
  (h = NULL \/ In h l) /\
  forall a, In a l -> a <> NULL /\ (load_next m a = NULL \/ In (load_next m a) l).
Proof.
  induction f as [|k IH]; intros m h l Hl; [discriminate|].
  destruct (nodes_from_inv _ _ _ _ Hl) as [[-> ->]|[Hh (k' & l' & [= <-] & -> & Hn)]].
  - split; [left; reflexivity|]. intros a [].
  - destruct (IH _ _ _ Hn) as [Hs Hc]. split; [right; left; reflexivity|].
    intros a [<-|Ha].
    + split; [assumption|]. destruct Hs as [->|Hs]; [left; reflexivity|].
      right. right. exact Hs.
    + destruct (Hc a Ha) as [Hnz [Hz|Hi]]; split; auto.
      right. right. exact Hi.
Qed.

(** A walk stays inside any set that the successor function preserves. *)
Lemma nodes_from_within (S : Z -> Prop) f : forall m h l,
  (forall a, S a -> load_next m a = NULL \/ S (load_next m a)) ->
  h = NULL \/ S h ->
  nodes_from f m h = Some l -> forall x, In x l -> S x.
Proof.
  induction f as [|k IH]; intros m h l Hc Hh Hl; [discriminate|].
  destruct (nodes_from_inv _ _ _ _ Hl) as [[-> ->]|[Hnz (k' & l' & [= <-] & -> & Hn)]].
  - intros x [].
  - destruct Hh as [|Hh]; [contradiction|].
    intros x [<-|Hx]; [exact Hh|].
    apply (IH m (load_next m h) l'); auto.
Qed.

(** [adjacent_pair] decides whether some node ends where another starts. *)
Lemma adjacent_pair_false m l :
  (forall a b, In a l -> In b l -> a <> b -> node_end m a <> b) ->
  adjacent_pair m l = false.
Proof.
  intros H. unfold adjacent_pair.
  destruct (existsb _ l) eqn:E; [|reflexivity].
  apply existsb_exists in E. destruct E as (a & Ha & E).
  apply existsb_exists in E. destruct E as (b & Hb & E).
  apply andb_prop in E. destruct E as [Hne He].
  apply negb_true_iff, Z.eqb_neq in Hne. apply Z.eqb_eq in He.
  exfalso. exact (H a b Ha Hb Hne He).
Qed.

Section Coalescing.

Variables (st : state) (l : list Z) (X : Z) (f : nat).

Hypothesis Hlist : free_list f st = Some l.
Hypothesis Hapart :
  forall a b, In a l -> In b l -> a <> b -> a + 16 <= b \/ b + 16 <= a.
Hypothesis Hclear : forall a, In a l -> a + 16 <= X \/ X + 16 <= a.
Hypothesis Hfit :
  forall a, In a l -> 0 < a /\ a + load_size (mem st) a + 16 < WORD.
Hypothesis HX : 0 < X /\ X + load_size (mem st) X + 16 < WORD.
Hypothesis Hnoadj :
  forall a b, In a l -> In b l -> a <> b -> node_end (mem st) a <> b.

Lemma node_end_fit a :
  In a l -> node_end (mem st) a = a + load_size (mem st) a + 16.
Proof.
  intros Ha. destruct (Hfit a Ha). pose proof (load_size_range (mem st) a).
  wrap_lia.
Qed.

Lemma node_end_X : node_end (mem st) X = X + load_size (mem st) X + 16.
Proof. destruct HX. pose proof (load_size_range (mem st) X). wrap_lia. Qed.

Lemma head_in_list : HEAD st = NULL \/ In (HEAD st) l.
Proof. exact (proj1 (nodes_from_closed _ _ _ _ Hlist)). Qed.

Lemma next_in_list a :
  In a l -> load_next (mem st) a = NULL \/ In (load_next (mem st) a) l.
Proof. intros Ha. exact (proj2 (proj2 (nodes_from_closed _ _ _ _ Hlist) a Ha)). Qed.

Lemma pushed_frame a :
  In a l ->
  load_size (pushed st X) a = load_size (mem st) a /\
  load_next (pushed st X) a = load_next (mem st) a.
Proof.
  intros Ha. pose proof (Hclear a Ha). unfold pushed.
  autorewrite with fields. auto.
Qed.

Lemma pushed_X :
  load_size (pushed st X) X = load_size (mem st) X /\
  load_next (pushed st X) X = HEAD st.
Proof.
  unfold pushed. autorewrite with fields.
  pose proof (load_size_range (mem st) X).
  split; [wrap_lia|].
  destruct head_in_list as [->|Hh]; [reflexivity|].
  destruct (Hfit _ Hh). pose proof (load_size_range (mem st) (HEAD st)). wrap_lia.
Qed.

Lemma pushed_list : free_list f (set_mem st (pushed st X)) = Some l.
Proof.
  unfold free_list in *. cbn [mem HEAD set_mem].
  apply nodes_from_ext with (m := mem st); [|exact Hlist].
  intros n Hn. apply pushed_frame. exact Hn.
Qed.

(** What the first half of [coalesce] leaves behind. *)
Lemma coalesce_prev_frame prev m1 B :
  (prev = NULL /\ forall a, In a l -> node_end (mem st) a <> X) \/
  (In prev l /\ node_end (mem st) prev = X) ->
  coalesce_prev (pushed st X) X prev = (m1, B) ->
  (B = X \/ In B l) /\ 0 < B <= X /\
  (forall a, In a l -> a <> B -> a + 16 <= B \/ B + 16 <= a) /\
  (forall a, In a l -> a <> B ->
     load_size m1 a = load_size (mem st) a /\
     load_next m1 a = load_next (mem st) a) /\
  (load_next m1 B = NULL \/ In (load_next m1 B) l) /\
  (forall a, In a l -> a <> B -> node_end (mem st) a <> B) /\
  node_end m1 B = node_end (mem st) X.
Proof.
  intros Hprev. unfold coalesce_prev.
  destruct pushed_X as [SX NX].
  assert (HXfix : node_end (pushed st X) X = node_end (mem st) X)
    by (unfold node_end; rewrite SX; reflexivity).
  destruct Hprev as [[-> Hno]|[HP HeP]].
  - cbn [Z.eqb NULL]. intros [= <- <-].
    split; [left; reflexivity|]. split; [destruct HX; lia|].
    split; [intros a Ha _; exact (Hclear a Ha)|].
    split; [intros a Ha _; exact (pushed_frame a Ha)|].
    split; [rewrite NX; exact head_in_list|].
    split; [intros a Ha _; exact (Hno a Ha)|exact HXfix].
  - destruct (Hfit _ HP) as [HP0 HPw].
    destruct (pushed_frame _ HP) as [SP NP].
    destruct (Z.eqb_spec prev NULL) as [E|_]; [unfold NULL in E; lia|].
    rewrite SP. fold (node_end (mem st) prev). rewrite HeP, Z.eqb_refl, SX.
    set (ma := store_size (pushed st X) prev _).
    assert (NPa : load_next ma prev = load_next (mem st) prev).
    { subst ma. autorewrite with fields. exact NP. }
    rewrite NPa.
    assert (HnX : load_next (mem st) prev <> X).
    { destruct (next_in_list _ HP) as [E|Hin].
      - rewrite E. unfold NULL. destruct HX. lia.
      - intros E. rewrite E in Hin. pose proof (Hclear X Hin). lia. }
    destruct (Z.eqb_spec (load_next (mem st) prev) X) as [|_]; [contradiction|].
    intros [= <- <-].
    pose proof (node_end_fit _ HP) as HeP'. rewrite HeP in HeP'.
    pose proof (load_size_range (mem st) prev) as RP.
    pose proof (load_size_range (mem st) X) as RX.
    split; [right; exact HP|]. split; [lia|].
    split; [intros a Ha Hne; apply Hapart; assumption|].
    split.
    { intros a Ha Hne. pose proof (Hapart a prev Ha HP Hne).
      subst ma. autorewrite with fields. exact (pushed_frame a Ha). }
    split; [rewrite NPa; exact (next_in_list _ HP)|].
    split; [intros a Ha Hne; apply Hnoadj; assumption|].
    unfold node_end at 1. subst ma. autorewrite with fields.
    rewrite node_end_X. destruct HX as [HX0 HXw]. clear - HeP' RP RX HXw HP0. wrap_lia.
Qed.

(** What the second half of [coalesce] leaves behind. *)
Lemma coalesce_next_frame m1 B next :
  0 < B <= X ->
  (forall a, In a l -> a <> B -> a + 16 <= B \/ B + 16 <= a) ->
  (forall a, In a l -> a <> B ->
     load_size m1 a = load_size (mem st) a /\
     load_next m1 a = load_next (mem st) a) ->
  (load_next m1 B = NULL \/ In (load_next m1 B) l) ->
  node_end m1 B = node_end (mem st) X ->
  (next = NULL /\ forall a, In a l -> a <> node_end (mem st) X) \/
  (In next l /\ next = node_end (mem st) X) ->
  let m2 := coalesce_next m1 B next in
  (forall a, In a l -> a <> B ->
     load_size m2 a = load_size (mem st) a /\
     load_next m2 a = load_next (mem st) a) /\
  (load_next m2 B = NULL \/ In (load_next m2 B) l) /\
  (forall b, In b l -> b <> B -> node_end m2 B <> b).
Proof.
  intros HB HBapart Hframe HBnext HBend Hnext. unfold coalesce_next.
  destruct Hnext as [[-> Hno]|[HN HeN]].
  - cbn [Z.eqb NULL]. split; [exact Hframe|]. split; [exact HBnext|].
    intros b Hb _. rewrite HBend. intros E. exact (Hno b Hb (eq_sym E)).
  - destruct (Hfit _ HN) as [HN0 HNw].
    destruct (Z.eqb_spec next NULL) as [E|_]; [unfold NULL in E; lia|].
    fold (node_end m1 B). rewrite HBend, <- HeN, Z.eqb_refl.
    assert (HNB : next <> B).
    { rewrite HeN, node_end_X. pose proof (load_size_range (mem st) X). lia. }
    destruct (Hframe next HN HNB) as [SN NN].
    pose proof (HBapart next HN HNB) as HNBapart.
    cbn zeta.
    split.
    { intros a Ha Hne. pose proof (HBapart a Ha Hne).
      autorewrite with fields. exact (Hframe a Ha Hne). }
    split.
    { rewrite load_next_store_next.
      autorewrite with fields. rewrite NN.
      pose proof (load_next_range (mem st) next) as R.
      replace (wrap (load_next (mem st) next)) with (load_next (mem st) next)
        by (clear - R; wrap_lia).
      exact (next_in_list _ HN). }
    intros b Hb Hne.
    assert (Hend : node_end (store_next
                     (store_size m1 B
                        (wrap (load_size m1 B + wrap (load_size m1 next + sizeof_free_block))))
                     B (load_next
                          (store_size m1 B
                             (wrap (load_size m1 B + wrap (load_size m1 next + sizeof_free_block))))
                          next)) B
                   = node_end (mem st) next).
    { unfold node_end at 1. autorewrite with fields. rewrite SN.
      pose proof (load_size_range m1 B) as RB.
      pose proof (load_size_range (mem st) next) as RN.
      unfold node_end in HBend at 1. rewrite <- HeN in HBend.
      rewrite (node_end_fit _ HN).
      clear - HBend RB RN HNw. wrap_lia. }
    rewrite Hend. destruct (Z.eq_dec b next) as [->|Hbn].
    + rewrite (node_end_fit _ HN). pose proof (load_size_range (mem st) next). lia.
    + apply Hnoadj; auto.
Qed.

(** On a free list that ends, whose nodes lie apart from one another and
    from the freed header, and none of which is address contiguous with
    another, a [tufree] that returns leaves a free list none of whose nodes
    is address contiguous with another. *)
Lemma tufree_keeps_nodes_apart fuel st' :
  load_magic (mem st) X = MAGIC ->
  tufree fuel st (X + sizeof_header) = Some st' ->
  forall f' l', free_list f' st' = Some l' ->
  forall a b, In a l' -> In b l' -> a <> b -> node_end (mem st') a <> b.
Proof.
  intros Hm Hfree f' l' Hl' a b Ha Hb Hab.
  unfold tufree in Hfree.
  assert (Hhdr : wrap (X + sizeof_header - sizeof_header) = X)
    by (destruct HX; pose proof (load_size_range (mem st) X); wrap_lia).
  destruct (Z.eqb_spec (X + sizeof_header) NULL) as [E|_];
    [unfold sizeof_header, NULL in E; destruct HX; lia|].
  rewrite Hhdr, Hm, Z.eqb_refl in Hfree.
  change (store_next (store_size (mem st) X (load_size (mem st) X)) X (HEAD st))
    with (pushed st X) in Hfree.
  unfold coalesce in Hfree.
  destruct (Z.eqb_spec X NULL) as [E|_]; [unfold NULL in E; destruct HX; lia|].
  destruct (find_prev fuel _ X) as [prev|] eqn:Fp; [|discriminate].
  destruct (find_next fuel _ X) as [next|] eqn:Fn; [|discriminate].
  cbn [mem set_mem] in Hfree.
  destruct (coalesce_prev (pushed st X) X prev) as [m1 B] eqn:Cp.
  injection Hfree as <-.
  destruct pushed_X as [SX NX].
  (* what the two scans found *)
  assert (Hprev : (prev = NULL /\ forall a, In a l -> node_end (mem st) a <> X) \/
                  (In prev l /\ node_end (mem st) prev = X)).
  { destruct (find_prev_from_spec _ _ _ _ _ _ _ pushed_list Fp) as [[-> Hno]|[Hin He]].
    - left. split; [reflexivity|]. intros c Hc. specialize (Hno c Hc).
      cbn [mem set_mem] in Hno. unfold node_end in *.
      rewrite (proj1 (pushed_frame c Hc)) in Hno. exact Hno.
    - right. split; [exact Hin|]. cbn [mem set_mem] in He. unfold node_end in *.
      rewrite (proj1 (pushed_frame prev Hin)) in He. exact He. }
  assert (Hnext : (next = NULL /\ forall a, In a l -> a <> node_end (mem st) X) \/
                  (In next l /\ next = node_end (mem st) X)).
  { unfold find_next in Fn. cbn [mem HEAD set_mem] in Fn. rewrite SX in Fn.
    fold (node_end (mem st) X) in Fn.
    exact (find_next_from_spec _ _ _ _ _ _ _ pushed_list Fn). }
  destruct (coalesce_prev_frame prev m1 B Hprev Cp)
    as (HBin & HB & HBapart & Hframe & HBnext & HBadj & HBend).
  destruct (coalesce_next_frame m1 B next HB HBapart Hframe HBnext HBend Hnext)
    as (Hframe2 & HBnext2 & HBadj2).
  set (m2 := coalesce_next m1 B next) in *.
  (* every node of the new list is [B] or a node of the old list *)
  assert (Hin : forall x, In x l' -> x = B \/ In x l).
  { apply (nodes_from_within (fun x => x = B \/ In x l) f' m2 B l').
    - intros c [->|Hc].
      + destruct HBnext2 as [E|E]; [left; exact E|right; right; exact E].
      + destruct (Z.eq_dec c B) as [->|Hne].
        * destruct HBnext2 as [E|E]; [left; exact E|right; right; exact E].
        * rewrite (proj2 (Hframe2 c Hc Hne)).
          destruct (next_in_list c Hc) as [E|E]; [left; exact E|right; right; exact E].
    - right. left. reflexivity.
    - exact Hl'. }
  cbn [mem set_mem set_HEAD].
  destruct (Z.eq_dec a B) as [->|HaB].
  - destruct (Hin b Hb) as [->|Hbl]; [contradiction|].
    apply HBadj2; auto.
  - destruct (Hin a Ha) as [|Hal]; [contradiction|].
    assert (Hsame : node_end m2 a = node_end (mem st) a).
    { unfold node_end. rewrite (proj1 (Hframe2 a Hal HaB)). reflexivity. }
    rewrite Hsame.
    destruct (Hin b Hb) as [->|Hbl].
    + apply HBadj; assumption.
    + apply Hnoadj; assumption.
Qed.

(** The same, through the boolean test. *)
Lemma tufree_no_adjacent_nodes fuel st' :
  load_magic (mem st) X = MAGIC ->
  tufree fuel st (X + sizeof_header) = Some st' ->
  forall f', no_adjacent_nodes f' st'.
Proof.
  intros Hm Hfree f' l' Hl'. apply adjacent_pair_false.
  exact (tufree_keeps_nodes_apart fuel st' Hm Hfree f' l' Hl').
Qed.

End Coalescing.

(** ** What the code does where the specification says otherwise *)

(** C2.  In a fresh process, allocate 100 bytes, free them, allocate 16.
    The second allocation is served first-fit from the freed node: it returns
    the same pointer 4112, and the header at 4096 records 16 and the
    sentinel.  [split] has written the remainder node at 4144 (size 52, no
    successor), but no link leads to it: [HEAD] is [NULL] and the free list
    is empty, and the break has not moved. *)
Theorem split_remainder_unreachable :
  observe 8 [Alloc 100; Release 0; Alloc 16] boot
    (fun st ptrs =>
       (ptrs, load_size (mem st) 4096, load_magic (mem st) 4096,
        (load_size (mem st) 4144, load_next (mem st) 4144),
        (HEAD st, free_list 8 st, brk st)))
  = Some ([4112; 4112], 16, MAGIC, (52, NULL), (NULL, Some [], 4212)).
Proof. vm_compute. reflexivity. Qed.

(** C4.  In a fresh process, allocate 40 bytes, free them, allocate 16.
    The freed node of size 40 passes the first-fit test (16 + 16 <= 40) but is
    too small for [split] (40 < 32 + 16): the second [tumalloc] returns
    [NULL] although the OS would grant more memory; the break stays at 4152
    and the node stays on the list. *)
Theorem split_failure_returns_null :
  observe 8 [Alloc 40; Release 0; Alloc 16] boot
    (fun st ptrs => (ptrs, brk st, brk_max st, view 8 st))
  = Some ([4112; NULL], 4152, 65536, Some [(4096, 40, 4152)]).
Proof. vm_compute. reflexivity. Qed.

(** After [interleaved_frees] the free list is a cycle: the merged block at
    16 MiB is its own successor, so no walk of the list ends. *)
Lemma coalesce_builds_cycle :
  observe 8 interleaved_frees boot16M
    (fun st _ => (HEAD st, load_size (mem st) (HEAD st),
                  load_next (mem st) (HEAD st), free_list 8 st))
  = Some (16777216, 3145760, 16777216, None).
Proof. vm_compute. reflexivity. Qed.

Lemma self_loop_never_ends m h :
  h <> NULL -> load_next m h = h -> forall fuel, nodes_from fuel m h = None.
Proof.
  intros Hh Hn fuel. induction fuel as [|k IH]; [reflexivity|].
  cbn [nodes_from]. destruct (Z.eqb_spec h NULL) as [|_]; [contradiction|].
  rewrite Hn, IH. reflexivity.
Qed.

(** How the cycle arises.  [P], [X] and [N] are address contiguous, [P] and
    [N] are free and [N] comes first on the list, directly followed by [P].
    Freeing [X] merges the three blocks into [P], and the assignment
    [block->next = next->next] of [coalesce] makes [P] its own successor. *)
Lemma coalesce_self_loop fuel st P X N :
  (2 <= fuel)%nat ->
  0 < P -> P + 16 <= X -> X + 16 <= N -> N + 16 <= WORD ->
  HEAD st = N ->
  load_next (mem st) N = P ->
  load_next (mem st) P <> X ->
  node_end (mem st) P = X ->
  node_end (mem st) X = N ->
  node_end (mem st) N <> X ->
  load_magic (mem st) X = MAGIC ->
  exists st',
    tufree fuel st (X + sizeof_header) = Some st' /\
    HEAD st' = P /\ load_next (mem st') P = P /\
    forall f, free_list f st' = None.
Proof.
  intros Hf HP HPX HXN HN HH HnN HnP HeP HeX HeN Hm.
  assert (Hhdr : wrap (X + sizeof_header - sizeof_header) = X) by wrap_lia.
  assert (HPn : (P =? NULL) = false) by (apply Z.eqb_neq; unfold NULL; lia).
  assert (HXn : (X =? NULL) = false) by (apply Z.eqb_neq; unfold NULL; lia).
  assert (HNn : (N =? NULL) = false) by (apply Z.eqb_neq; unfold NULL; lia).
  set (m := mem st) in *.
  set (m' := pushed st X).
  assert (SX : load_size m' X = load_size m X).
  { subst m'. unfold pushed. fold m. autorewrite with fields.
    pose proof (load_size_range m X). wrap_lia. }
  assert (SP : load_size m' P = load_size m P).
  { subst m'. unfold pushed. fold m. autorewrite with fields. reflexivity. }
  assert (SN : load_size m' N = load_size m N).
  { subst m'. unfold pushed. fold m. autorewrite with fields. reflexivity. }
  assert (NP : load_next m' P = load_next m P).
  { subst m'. unfold pushed. fold m. autorewrite with fields. reflexivity. }
  assert (NN : load_next m' N = P).
  { subst m'. unfold pushed. fold m. autorewrite with fields. exact HnN. }
  unfold node_end in HeP, HeX, HeN.
  set (ma := store_size m' P
               (wrap (load_size m' P + wrap (load_size m' X + sizeof_free_block)))).
  set (m1 := store_size ma P
               (wrap (load_size ma P + wrap (load_size ma N + sizeof_free_block)))).
  set (m2 := store_next m1 P (load_next m1 N)).
  assert (Fp : find_prev fuel (set_mem st m') X = Some P).
  { unfold find_prev. cbn [mem HEAD set_mem]. rewrite HH.
    destruct fuel as [|[|k]]; try lia.
    cbn [find_prev_from]. rewrite HNn, SN, NN, HPn, SP, HeP, Z.eqb_refl.
    destruct (Z.eqb_spec (wrap (N + load_size m N + sizeof_free_block)) X)
      as [|_]; [contradiction|reflexivity]. }
  assert (Fn : find_next fuel (set_mem st m') X = Some N).
  { unfold find_next. cbn [mem HEAD set_mem]. rewrite HH, SX, HeX.
    destruct fuel as [|k]; try lia.
    cbn [find_next_from]. rewrite HNn, Z.eqb_refl. reflexivity. }
  assert (HeP' : wrap (P + load_size m' P + sizeof_free_block) = X)
    by (rewrite SP; exact HeP).
  assert (NPa : load_next ma P = load_next m P).
  { subst ma. autorewrite with fields. exact NP. }
  assert (Hend : wrap (P + load_size ma P + sizeof_free_block) = N).
  { subst ma. autorewrite with fields. rewrite SP, SX.
    pose proof (load_size_range m P) as RP. pose proof (load_size_range m X) as RX.
    rewrite <- HeX. rewrite <- HeP at 2. clear - RP RX. wrap_lia. }
  assert (Hco : coalesce fuel (set_mem st m') X = Some (set_mem st m2, P)).
  { unfold coalesce. rewrite HXn, Fp, Fn. unfold coalesce_prev.
    cbn [mem set_mem]. rewrite HPn.
    rewrite HeP', Z.eqb_refl. fold ma. rewrite NPa.
    destruct (Z.eqb_spec (load_next m P) X) as [|_]; [contradiction|].
    unfold coalesce_next. rewrite HNn, Hend, Z.eqb_refl. reflexivity. }
  assert (Hloop : load_next m2 P = P).
  { subst m2. rewrite load_next_store_next.
    subst m1 ma. autorewrite with fields. rewrite NN.
    clear - HP HPX HXN HN. wrap_lia. }
  exists (set_HEAD (set_mem st m2) P).
  split; [|split; [reflexivity|split; [exact Hloop|]]].
  - unfold tufree.
    destruct (Z.eqb_spec (X + sizeof_header) NULL) as [E|_];
      [unfold sizeof_header, NULL in E; lia|].
    rewrite Hhdr. fold m. rewrite Hm, Z.eqb_refl.
    change (store_next (store_size m X (load_size m X)) X (HEAD st)) with m'.
    rewrite Hco. reflexivity.
  - intros f. unfold free_list. cbn [mem HEAD set_mem set_HEAD].
    apply self_loop_never_ends; [unfold NULL; lia | exact Hloop].
Qed.

(** The next allocation takes the looping node and leaves it on the list:
    [remove_free_block] sets [HEAD] to the successor of the head, which is the
    head itself, and stamping the sentinel rewrites the low four bytes of the
    [next] field, so the node handed out (pointer 16777232) is still the head
    and now links to 19088743, that is 0x1234567. *)
Lemma allocated_block_stays_on_list :
  observe 8 (interleaved_frees ++ [Alloc 2311511]) boot16M
    (fun st ptrs => (nth 4 ptrs NULL, HEAD st, load_next (mem st) (HEAD st),
                     view 8 st))
  = Some (16777232, 16777216, 19088743,
          Some [(16777216, 2311511, 19088743); (19088743, 0, 19088759)]).
Proof. vm_compute. reflexivity. Qed.

(** What [adjacency_script] leaves: three nodes on the free list, each with
    its size and the address where it ends, two of them contiguous. *)
Lemma adjacency_script_outcome :
  match run 8 adjacency_script boot16M [] with
  | Some (st, _) =>
      view 8 st = Some [(19922992, 16, 19923024);
                        (16777216, 2311511, 19088743);
                        (19088743, 0, 19088759)] /\
      option_map (adjacent_pair (mem st)) (free_list 8 st) = Some true
  | None => False
  end.
Proof. vm_compute. split; reflexivity. Qed.

(** C3.  A client that only allocates and frees what it was given, in a
    process whose break starts at 16 MiB: [adjacency_script] runs to its
    end, the last operation being a [tufree] (and with it a [coalesce]) that
    returns, and the free list then holds three nodes, the second of which,
    at 16777216 with size 2311511, ends at 19088743, exactly where the third
    one starts: two nodes of the free list are address contiguous. *)
Theorem adjacent_nodes_after_free :
  exists st ptrs,
    run 8 adjacency_script boot16M [] = Some (st, ptrs) /\
    view 8 st = Some [(19922992, 16, 19923024);
                      (16777216, 2311511, 19088743);
                      (19088743, 0, 19088759)] /\
    ~ no_adjacent_nodes 8 st.
Proof.
  pose proof adjacency_script_outcome as E.
  destruct (run 8 adjacency_script boot16M []) as [[st ptrs]|];
    [|contradiction].
  destruct E as [Hview Hadj].
  exists st, ptrs. split; [reflexivity|]. split; [exact Hview|].
  intros H. destruct (free_list 8 st) as [l|] eqn:F; [|discriminate].
  cbn [option_map] in Hadj. injection Hadj as Hadj.
  rewrite (H l F) in Hadj. discriminate.
Qed.

(** ** More on walks *)

Lemma nodes_from_det f f' m h l l' :
  nodes_from f m h = Some l -> nodes_from f' m h = Some l' -> l = l'.
Proof.
  intros H H'.
  apply nodes_from_mono with (f' := Nat.max f f') in H; [|lia].
  apply nodes_from_mono with (f' := Nat.max f f') in H'; [|lia].
  congruence.
Qed.

Lemma nodes_from_suffix l1 : forall f m h x l2,
  nodes_from f m h = Some (l1 ++ x :: l2) ->
  nodes_from f m x = Some (x :: l2).
Proof.
  induction l1 as [|a l1 IH]; intros f m h x l2 H.
  - cbn [app] in H.
    destruct (nodes_from_inv _ _ _ _ H) as [[_ C]|[_ (k & l' & -> & E & Hn)]];
      [discriminate|].
    injection E as <- <-. exact H.
  - cbn [app] in H.
    destruct (nodes_from_inv _ _ _ _ H) as [[_ C]|[_ (k & l' & -> & E & Hn)]];
      [discriminate|].
    injection E as <- <-.
    apply nodes_from_mono with (f := k); [|lia]. eapply IH. exact Hn.
Qed.

(** A walk that reaches [NULL] meets no node twice. *)
Lemma nodes_from_NoDup f : forall m h l, nodes_from f m h = Some l -> NoDup l.
Proof.
  induction f as [|k IH]; intros m h l H; [discriminate|].
  destruct (nodes_from_inv _ _ _ _ H) as [[_ ->]|[_ (k' & l' & [= <-] & -> & Hn)]].
  - constructor.
  - constructor; [|exact (IH _ _ _ Hn)].
    intros Hin. apply in_split in Hin. destruct Hin as (l1 & l2 & ->).
    pose proof (nodes_from_suffix _ _ _ _ _ _ Hn) as Hs.
    pose proof (nodes_from_det _ _ _ _ _ _ H Hs) as E.
    apply (f_equal (@List.length Z)) in E. cbn [List.length] in E.
    rewrite length_app in E. cbn [List.length] in E. lia.
Qed.

(** ** The two scans *)

Lemma find_prev_from_first f : forall m h l fuel b,
  nodes_from f m h = Some l -> (List.length l < fuel)%nat ->
  exists r, find_prev_from fuel m h b = Some r /\
    ((r = NULL /\ forall a, In a l -> node_end m a <> b) \/
     (exists l1 l2, l = l1 ++ r :: l2 /\ node_end m r = b /\
        forall a, In a l1 -> node_end m a <> b)).
Proof.
  induction f as [|k IH]; intros m h l fuel b Hl Hlen; [discriminate|].
  destruct fuel as [|fuel]; [lia|]. cbn [find_prev_from].
  destruct (nodes_from_inv _ _ _ _ Hl) as [[-> ->]|[Hh (k' & l' & [= <-] & -> & Hn)]].
  - exists NULL. split; [reflexivity|]. left. split; [reflexivity|]. intros a [].
  - destruct (Z.eqb_spec h NULL) as [|_]; [contradiction|].
    fold (node_end m h).
    destruct (Z.eqb_spec (node_end m h) b) as [E|E].
    + exists h. split; [reflexivity|]. right. exists [], l'.
      split; [reflexivity|]. split; [exact E|]. intros a [].
    + cbn [List.length] in Hlen.
      destruct (IH m _ l' fuel b Hn) as (r & Hr & Hspec); [lia|].
      exists r. split; [exact Hr|].
      destruct Hspec as [[-> Hno]|(l1 & l2 & -> & He & Hno)].
      * left. split; [reflexivity|]. intros a [<-|Ha]; [exact E|auto].
      * right. exists (h :: l1), l2. split; [reflexivity|]. split; [exact He|].
        intros a [<-|Ha]; [exact E|auto].
Qed.

(** X1.  On a free list that ends, [find_prev] returns as soon as the fuel
    exceeds the number of nodes, and it returns the first node, in list order,
    whose computed end address is [block]; it returns [NULL] exactly when no
    node of the list ends at [block]. *)
Theorem find_prev_spec (f fuel : nat) (st : state) (l : list Z) (block : Z) :
  free_list f st = Some l -> (List.length l < fuel)%nat ->
  exists r, find_prev fuel st block = Some r /\
    ((r = NULL /\ forall a, In a l -> node_end (mem st) a <> block) \/
     (exists l1 l2, l = l1 ++ r :: l2 /\ node_end (mem st) r = block /\
        forall a, In a l1 -> node_end (mem st) a <> block)).
Proof. intros Hl Hlen. exact (find_prev_from_first f _ _ _ fuel block Hl Hlen). Qed.

(** X2.  On a free list that ends, [find_next] returns as soon as the fuel
    exceeds the number of nodes: it returns the address just past [block]
    when that address is a node of the list, and [NULL] when it is not. *)
Theorem find_next_spec (f fuel : nat) (st : state) (l : list Z) (block : Z) :
  free_list f st = Some l -> (List.length l < fuel)%nat ->
  exists r, find_next fuel st block = Some r /\
    ((r = NULL /\ ~ In (node_end (mem st) block) l) \/
     (r = node_end (mem st) block /\ In r l)).
Proof.
  intros Hl Hlen. unfold find_next. fold (node_end (mem st) block).
  destruct (find_next_from_total _ _ _ _ fuel (node_end (mem st) block) Hl Hlen)
    as [r Hr].
  exists r. split; [exact Hr|].
  destruct (find_next_from_spec _ _ _ _ _ _ _ Hl Hr) as [[-> Hno]|[Hin ->]].
  - left. split; [reflexivity|]. intros Hin. exact (Hno _ Hin eq_refl).
  - right. split; [reflexivity|exact Hin].
Qed.
(** ** Unlinking a node *)

Lemma apart_tail a l : apart (a :: l) -> apart l.
Proof. intros H x y Hx Hy. apply H; right; assumption. Qed.

Lemma nodes_from_S k m h :
  nodes_from (S k) m h =
    if h =? NULL then Some [] else option_map (cons h) (nodes_from k m (load_next m h)).
Proof. reflexivity. Qed.

Lemma nodes_from_head f m h x r : nodes_from f m h = Some (x :: r) -> h = x.
Proof.
  intros H. destruct (nodes_from_inv _ _ _ _ H) as [[_ C]|[_ (k & l' & _ & E & _)]];
    [discriminate|congruence].
Qed.

(** No link of the list leads to an address that is neither a node nor
    [NULL]: the loop of [remove_free_block] then changes nothing. *)
Lemma remove_from_absent f : forall m h l fuel block,
  nodes_from f m h = Some l -> (List.length l < fuel)%nat ->
  block <> NULL -> ~ In block l ->
  (h <> block -> remove_from fuel m h block = Some m).
Proof.
  induction f as [|k IH]; intros m h l fuel block Hl Hlen Hb Hnin Hh;
    [discriminate|].
  destruct fuel as [|fuel]; [lia|]. cbn [remove_from].
  destruct (nodes_from_inv _ _ _ _ Hl) as [[-> ->]|[Hnz (k' & l' & [= <-] & -> & Hn)]].
  - reflexivity.
  - destruct (Z.eqb_spec h NULL) as [|_]; [contradiction|].
    assert (Hnext : load_next m h <> block).
    { intros E. destruct (nodes_from_inv _ _ _ _ Hn) as [[E0 _]|[_ (k2 & l2 & _ & -> & _)]].
      - congruence.
      - apply Hnin. right. left. exact E. }
    destruct (Z.eqb_spec (load_next m h) block) as [|_]; [contradiction|].
    apply (IH m _ l' fuel block Hn); [cbn in Hlen; lia | exact Hb | | exact Hnext].
    intros Hin. apply Hnin. right. exact Hin.
Qed.

(** The loop of [remove_free_block] on a list that holds [block] behind
    [c]: the link of [c] is redirected to the successor of [block]. *)
Lemma remove_from_interior l1 : forall f m h fuel c block l2,
  nodes_from f m h = Some (l1 ++ c :: block :: l2) ->
  apart (l1 ++ c :: block :: l2) ->
  (List.length (l1 ++ c :: block :: l2) < fuel)%nat ->
  remove_from fuel m h block
    = Some (store_next m c (load_next m block)) /\
  nodes_from f (store_next m c (load_next m block)) h = Some (l1 ++ c :: l2).
Proof.
  induction l1 as [|a l1 IH]; intros f m h fuel c block l2 Hl Hap Hlen.
  - cbn [app] in *.
    pose proof (nodes_from_NoDup _ _ _ _ Hl) as Hnd.
    pose proof (nodes_from_head _ _ _ _ _ Hl) as ->.
    destruct (nodes_from_inv _ _ _ _ Hl) as [[_ C]|[Hnz (k & l' & -> & E & Hn)]];
      [discriminate|].
    injection E as <-.
    pose proof (nodes_from_head _ _ _ _ _ Hn) as Hnext.
    destruct (nodes_from_inv _ _ _ _ Hn) as [[_ C]|[Hbz (k2 & l'' & -> & E & Hn2)]];
      [discriminate|].
    injection E as _ <-. rewrite Hnext in Hn2.
    destruct fuel as [|fuel]; [lia|]. cbn [remove_from].
    destruct (Z.eqb_spec c NULL) as [|_]; [contradiction|].
    rewrite Hnext, Z.eqb_refl. split; [reflexivity|].
    rewrite nodes_from_S. destruct (Z.eqb_spec c NULL) as [|_]; [contradiction|].
    rewrite load_next_store_next.
    pose proof (load_next_range m block) as R.
    replace (wrap (load_next m block)) with (load_next m block)
      by (clear - R; wrap_lia).
    rewrite (nodes_from_ext (S k2) m (store_next m c (load_next m block))
               (load_next m block) l2); [reflexivity| |].
    + intros n Hin.
      assert (Hne : n <> c).
      { intros ->. inversion Hnd as [|? ? Hh _]. apply Hh. right. exact Hin. }
      pose proof (Hap n c (or_intror (or_intror Hin)) (or_introl eq_refl) Hne).
      autorewrite with fields. reflexivity.
    + apply nodes_from_mono with (f := k2); [exact Hn2|lia].
  - cbn [app] in *.
    pose proof (nodes_from_NoDup _ _ _ _ Hl) as Hnd.
    pose proof (nodes_from_head _ _ _ _ _ Hl) as ->.
    destruct (nodes_from_inv _ _ _ _ Hl) as [[_ C]|[Hnz (k & l' & -> & E & Hn)]];
      [discriminate|].
    injection E as <-.
    destruct fuel as [|fuel]; [cbn in Hlen; lia|]. cbn [remove_from].
    destruct (Z.eqb_spec a NULL) as [|_]; [contradiction|].
    inversion Hnd as [|? ? Ha Hnd']; subst.
    assert (Hnext : load_next m a <> block).
    { destruct l1 as [|a' l1']; cbn [app] in Hn, Hnd';
        rewrite (nodes_from_head _ _ _ _ _ Hn); intros E; subst;
        inversion Hnd' as [|? ? Hc _]; apply Hc.
      - left. reflexivity.
      - apply in_or_app. right. right. left. reflexivity. }
    destruct (Z.eqb_spec (load_next m a) block) as [|_]; [contradiction|].
    destruct (IH k m (load_next m a) fuel c block l2 Hn (apart_tail _ _ Hap))
      as [Hr Hw]; [cbn in Hlen; lia|].
    split; [exact Hr|].
    rewrite nodes_from_S. destruct (Z.eqb_spec a NULL) as [|_]; [contradiction|].
    assert (Hac : a <> c).
    { intros ->. apply Ha. apply in_or_app. right. left. reflexivity. }
    assert (Hcin : In c (a :: l1 ++ c :: block :: l2))
      by (right; apply in_or_app; right; left; reflexivity).
    pose proof (Hap a c (or_introl eq_refl) Hcin Hac).
    rewrite load_next_store_next_other by lia.
    rewrite Hw. reflexivity.
Qed.
(** [remove_free_block] on a node of the list. *)
Lemma remove_free_block_present f fuel st l1 block l2 :
  free_list f st = Some (l1 ++ block :: l2) ->
  apart (l1 ++ block :: l2) ->
  (List.length (l1 ++ block :: l2) < fuel)%nat ->
  exists st',
    remove_free_block fuel st block = Some st' /\
    free_list f st' = Some (l1 ++ l2) /\ ~ In block (l1 ++ l2) /\
    (forall a, In a (l1 ++ block :: l2) ->
       load_size (mem st') a = load_size (mem st) a) /\
    (forall a, (forall x, In x l1 -> a < x + 8 \/ x + 16 <= a) ->
       byte_at (mem st') a = byte_at (mem st) a) /\
    brk st' = brk st /\ brk_max st' = brk_max st /\ out st' = out st.
Proof.
  intros Hl Hap Hlen. unfold free_list in Hl.
  pose proof (nodes_from_NoDup _ _ _ _ Hl) as Hnd.
  apply NoDup_remove_2 in Hnd as Hnin.
  assert (Hb : block <> NULL).
  { apply (proj2 (nodes_from_closed _ _ _ _ Hl) block).
    apply in_or_app. right. left. reflexivity. }
  destruct l1 as [|a l1] using rev_ind.
  - cbn [app] in *. pose proof (nodes_from_head _ _ _ _ _ Hl) as Hh.
    rewrite Hh in Hl.
    destruct (nodes_from_inv _ _ _ _ Hl) as [[_ C]|[_ (k & l' & -> & E & Hn)]];
      [discriminate|].
    injection E as <-.
    exists (set_HEAD st (load_next (mem st) block)).
    split; [unfold remove_free_block; rewrite Hh, Z.eqb_refl; reflexivity|].
    split.
    { unfold free_list. cbn [mem HEAD set_HEAD].
      apply nodes_from_mono with (f := k); [exact Hn|lia]. }
    split; [exact Hnin|]. repeat split; reflexivity.
  - clear IHl1. rewrite <- app_assoc in *. cbn [app] in *.
    destruct (remove_from_interior l1 f (mem st) (HEAD st) fuel a block l2 Hl Hap Hlen)
      as [Hr Hw].
    exists (set_mem st (store_next (mem st) a (load_next (mem st) block))).
    split.
    { unfold remove_free_block.
      destruct (Z.eqb_spec (HEAD st) block) as [E|_]; [|rewrite Hr; reflexivity].
      exfalso. apply Hnin. rewrite <- E.
      destruct (proj1 (nodes_from_closed _ _ _ _ Hw)) as [E0|Hin]; [congruence|exact Hin]. }
    split; [exact Hw|]. split; [exact Hnin|].
    split; [|split; [|repeat split; reflexivity]].
    + intros x Hx. rewrite <- app_assoc in Hx. cbn [app mem set_mem] in *.
      assert (Hain : In a (l1 ++ a :: block :: l2))
        by (apply in_or_app; right; left; reflexivity).
      destruct (Z.eq_dec x a) as [->|Hne].
      * rewrite load_size_store_next_other by lia. reflexivity.
      * pose proof (Hap x a Hx Hain Hne).
        rewrite load_size_store_next_other by lia. reflexivity.
    + intros x Hx. cbn [mem set_mem]. unfold store_next.
      assert (Hx' : x < a + 8 \/ a + 16 <= x)
        by (apply Hx; apply in_or_app; right; left; reflexivity).
      rewrite store_le_outside by lia. reflexivity.
Qed.

(** X3.  On a free list that ends and whose node headers do not overlap,
    [remove_free_block] on a non-null [block] returns as soon as the fuel
    exceeds the number of nodes.  When [block] is not on the list, nothing
    changes.  When it is, the list afterwards is the old list without
    [block], in the same order; the size fields of all nodes, the break and
    the output are untouched. *)
Theorem remove_free_block_spec (f fuel : nat) (st : state) (l : list Z) (block : Z) :
  free_list f st = Some l -> apart l -> (List.length l < fuel)%nat ->
  block <> NULL ->
  (~ In block l -> remove_free_block fuel st block = Some st) /\
  (forall l1 l2, l = l1 ++ block :: l2 ->
     exists st',
       remove_free_block fuel st block = Some st' /\
       free_list f st' = Some (l1 ++ l2) /\ ~ In block (l1 ++ l2) /\
       (forall a, In a l -> load_size (mem st') a = load_size (mem st) a) /\
       brk st' = brk st /\ out st' = out st).
Proof.
  intros Hl Hap Hlen Hb. split.
  - intros Hnin. unfold free_list in Hl. unfold remove_free_block.
    destruct (Z.eqb_spec (HEAD st) block) as [E|Hne].
    + exfalso. destruct (proj1 (nodes_from_closed _ _ _ _ Hl)) as [E0|Hin];
        [congruence|]. apply Hnin. rewrite <- E. exact Hin.
    + rewrite (remove_from_absent f (mem st) (HEAD st) l fuel block Hl Hlen Hb Hnin Hne).
      rewrite set_mem_same. reflexivity.
  - intros l1 l2 ->.
    destruct (remove_free_block_present f fuel st l1 block l2 Hl Hap Hlen)
      as (st' & E & L & Hnin & Hs & _ & B & _ & O).
    exists st'. repeat split; assumption.
Qed.

Lemma remove_free_block_spec_witness :
  exists st',
    remove_free_block 3 two_nodes 4096 = Some st' /\
    free_list 3 st' = Some [4128].
Proof.
  assert (Hl : free_list 3 two_nodes = Some [4128; 4096])
    by (vm_compute; reflexivity).
  assert (Hap : apart [4128; 4096]).
  { intros a b [<-|[<-|[]]] [<-|[<-|[]]] Hne; try contradiction; lia. }
  assert (Hlen : (List.length [4128; 4096] < 3)%nat) by (cbn; lia).
  assert (Hb : 4096 <> NULL) by discriminate.
  destruct (remove_free_block_spec 3 3 two_nodes [4128; 4096] 4096 Hl Hap Hlen Hb)
    as [_ H].
  destruct (H [4128] [] eq_refl) as (st' & E & L & _).
  exists st'. split; assumption.
Defined.
(** ** First fit, anywhere on the list *)

(** The loop of [tumalloc] walks past the nodes that are too small. *)
Lemma tumalloc_from_skip l1 : forall f fuel rfuel st h n c l2,
  nodes_from f (mem st) h = Some (l1 ++ c :: l2) ->
  Forall (fun a => load_size (mem st) a < wrap (n + sizeof_header)) l1 ->
  (List.length l1 < fuel)%nat ->
  tumalloc_from fuel rfuel st h n
    = tumalloc_from (fuel - List.length l1) rfuel st c n.
Proof.
  induction l1 as [|a l1 IH]; intros f fuel rfuel st h n c l2 Hl Hsmall Hlen.
  - cbn [app List.length] in *. rewrite Nat.sub_0_r.
    rewrite (nodes_from_head _ _ _ _ _ Hl). reflexivity.
  - cbn [app] in Hl. pose proof (nodes_from_head _ _ _ _ _ Hl) as ->.
    destruct (nodes_from_inv _ _ _ _ Hl) as [[_ C]|[Hnz (k & l' & -> & E & Hn)]];
      [discriminate|].
    injection E as <-. inversion Hsmall as [|? ? Ha Hrest]; subst.
    destruct fuel as [|fuel]; [cbn in Hlen; lia|]. cbn [tumalloc_from].
    destruct (Z.eqb_spec a NULL) as [|_]; [contradiction|].
    destruct (Z.leb_spec (wrap (n + sizeof_header)) (load_size (mem st) a)); [lia|].
    cbn [List.length Nat.sub]. apply (IH k _ _ _ _ _ _ l2); [exact Hn|exact Hrest|cbn in Hlen; lia].
Qed.

(** First fit served from the node [c], wherever it stands on the list. *)
Lemma first_fit_serves (f fuel : nat) (st : state) (n c N : Z) (l1 l2 : list Z) :
  free_list f st = Some (l1 ++ c :: l2) ->
  apart (l1 ++ c :: l2) ->
  (List.length (l1 ++ c :: l2) < fuel)%nat ->
  0 <= n -> n + sizeof_header < 2 ^ 31 ->
  Forall (fun a => load_size (mem st) a < n + sizeof_header) l1 ->
  load_size (mem st) c = N ->
  n + sizeof_header + sizeof_free_block <= N ->
  0 < c -> c + sizeof_free_block + N <= WORD ->
  Forall (fun x => x + 16 <= c \/ c + sizeof_free_block + N <= x) (l1 ++ l2) ->
  let r := c + n + sizeof_header + sizeof_free_block in
  exists st',
    tumalloc fuel st n = Some (st', c + sizeof_header) /\
    load_size (mem st') c = n /\ load_magic (mem st') c = MAGIC /\
    free_list f st' = Some (l1 ++ l2) /\
    (forall a, In a (l1 ++ l2) -> load_size (mem st') a = load_size (mem st) a) /\
    load_size (mem st') r = N - n - sizeof_header - sizeof_free_block /\
    ~ In r (l1 ++ l2) /\
    brk st' = brk st /\
    (forall a, a < c \/ c + sizeof_free_block + N <= a ->
       (forall x, In x l1 -> a < x + 8 \/ x + 16 <= a) ->
       byte_at (mem st') a = byte_at (mem st) a) /\
    brk_max st' = brk_max st /\ out st' = out st.
Proof.
  intros Hl Hap Hlen Hn Hlim Hsmall HN Hsz Hc Htop Hout r.
  unfold sizeof_header, sizeof_free_block in *.
  assert (Hcl := Hl). unfold free_list in Hcl.
  assert (Hcin : In c (l1 ++ c :: l2)) by (apply in_or_app; right; left; reflexivity).
  destruct (proj2 (nodes_from_closed _ _ _ _ Hcl) c Hcin) as [Hc0 _].
  assert (Hcn : (c =? NULL) = false) by (apply Z.eqb_neq; exact Hc0).
  assert (Hw : wrap (n + 16) = n + 16) by wrap_lia.
  assert (Hi : to_int (n + 16) = n + 16) by wrap_lia.
  (* the split *)
  destruct (split_eq st c (n + 16)) as [E Hdis];
    [lia | unfold WORD in *; lia | unfold sizeof_free_block; lia|].
  assert (Hr : wrap (c + (n + 16) + sizeof_free_block) = r) by (subst r; wrap_lia).
  rewrite Hr in E, Hdis. rewrite HN in E.
  set (m1 := store_size
               (store_next (store_size (mem st) r (wrap (N - (n + 16) - sizeof_free_block)))
                  r (load_next (mem st) c))
               c (wrap (n + 16))) in E.
  set (st1 := set_mem st m1) in E.
  assert (Hm1out : forall a, a < c \/ c + 16 + N <= a -> byte_at m1 a = byte_at (mem st) a).
  { intros a Ha. subst m1. unfold store_size, store_next.
    rewrite !store_le_outside by (subst r; lia). reflexivity. }
  assert (Hnext1 : forall x, In x (l1 ++ c :: l2) -> load_next m1 x = load_next (mem st) x).
  { intros x Hx. destruct (Z.eq_dec x c) as [->|Hne].
    - subst m1. autorewrite with fields. reflexivity.
    - assert (Hx' : In x (l1 ++ l2)).
      { apply in_app_or in Hx. apply in_or_app.
        destruct Hx as [|[|]]; [left; assumption|congruence|right; assumption]. }
      rewrite Forall_forall in Hout. specialize (Hout x Hx').
      unfold load_next. apply load_le_ext. intros i Hi'. apply Hm1out. lia. }
  assert (Hl1 : free_list f st1 = Some (l1 ++ c :: l2)).
  { unfold free_list. cbn [mem HEAD st1 set_mem].
    apply nodes_from_ext with (m := mem st); assumption. }
  (* the removal *)
  destruct (remove_free_block_present f fuel st1 l1 c l2 Hl1 Hap Hlen)
    as (st2 & Erem & Hl2 & Hnin & Hsz2 & Hfr2 & Hb2 & Hbm2 & Hout2).
  set (m3 := store_magic (store_size (mem st2) c n) c MAGIC).
  exists (set_mem st2 m3).
  assert (Hm3out : forall a, a < c \/ c + 12 <= a -> byte_at m3 a = byte_at (mem st2) a).
  { intros a Ha. subst m3. unfold store_magic, store_size.
    rewrite !store_le_outside by lia. reflexivity. }
  assert (Hother : forall x, In x (l1 ++ l2) -> x + 16 <= c \/ c + 16 + N <= x).
  { intros x Hx. rewrite Forall_forall in Hout. exact (Hout x Hx). }
  split.
  { unfold tumalloc.
    assert (Hh : (HEAD st =? NULL) = false).
    { apply Z.eqb_neq. intros E0.
      destruct (nodes_from_inv _ _ _ _ Hcl) as [[_ C]|[C _]]; [|contradiction].
      destruct l1; discriminate. }
    rewrite Hh.
    rewrite (tumalloc_from_skip l1 f fuel fuel st (HEAD st) n c l2 Hcl).
    - rewrite length_app in Hlen. cbn [List.length] in Hlen.
      destruct (fuel - List.length l1)%nat as [|k] eqn:Ek; [lia|].
      cbn [tumalloc_from]. rewrite Hcn. unfold sizeof_header. rewrite Hw, HN, Hi.
      destruct (Z.leb_spec (n + 16) N); [|lia].
      rewrite E, Hcn, Erem. f_equal. f_equal. wrap_lia.
    - unfold sizeof_header. rewrite Hw. exact Hsmall.
    - rewrite length_app in Hlen. cbn [List.length] in Hlen. lia. }
  cbn [mem HEAD brk brk_max out set_mem].
  split; [subst m3; autorewrite with fields; wrap_lia|].
  split; [subst m3; apply load_magic_store_magic|].
  split.
  { unfold free_list in *. cbn [mem HEAD set_mem].
    apply nodes_from_ext with (m := mem st2); [|exact Hl2].
    intros x Hx. specialize (Hother x Hx).
    unfold load_next. apply load_le_ext. intros i Hi'. apply Hm3out. lia. }
  split.
  { intros x Hx. pose proof (Hother x Hx) as Hx'.
    transitivity (load_size (mem st2) x).
    - unfold load_size. apply load_le_ext. intros i Hi'. apply Hm3out. lia.
    - rewrite Hsz2.
      + cbn [mem st1 set_mem]. unfold load_size. apply load_le_ext.
        intros i Hi'. apply Hm1out. lia.
      + apply in_app_or in Hx. apply in_or_app.
        destruct Hx; [left|right; right]; assumption. }
  split.
  { transitivity (load_size (mem st2) r).
    - unfold load_size. apply load_le_ext. intros i Hi'. apply Hm3out. subst r. lia.
    - transitivity (load_size m1 r).
      + unfold load_size. apply load_le_ext. intros i Hi'. apply Hfr2.
        intros x Hx.
        assert (Hx' : In x (l1 ++ l2)) by (apply in_or_app; left; exact Hx).
        specialize (Hother x Hx'). subst r. lia.
      + subst m1. autorewrite with fields. wrap_lia. }
  split.
  { intros Hin. specialize (Hother r Hin). subst r. lia. }
  split; [exact Hb2|].
  split; [|split; [exact Hbm2|exact Hout2]].
  intros a Ha Hlinks. rewrite Hm3out by lia. rewrite Hfr2 by exact Hlinks.
  cbn [mem st1 set_mem]. apply Hm1out. exact Ha.
Qed.

(** X4.  First fit.  Let the free list end and its node headers not
    overlap; let every node in front of [c] be smaller than
    [n + header_size], and let [c], of size [N], be large enough for [split]
    ([N >= n + 2 * header_size]) and lie, like its [N] payload bytes, apart
    from the other nodes.  Then [tumalloc n] returns the address just after
    the header of [c]; that header records [n] and the sentinel; the free
    list is the old one without [c], with the sizes of its nodes unchanged;
    the remainder that [split] wrote at [c + n + 2 * header_size], of size
    [N - n - 2 * header_size], is not on the list; the break has not moved;
    and no byte has changed outside the block of [c] and the link fields of
    the nodes in front of it. *)
Theorem tumalloc_first_fit (f fuel : nat) (st : state) (n c N : Z) (l1 l2 : list Z) :
  free_list f st = Some (l1 ++ c :: l2) ->
  apart (l1 ++ c :: l2) ->
  (List.length (l1 ++ c :: l2) < fuel)%nat ->
  0 <= n -> n + sizeof_header < 2 ^ 31 ->
  Forall (fun a => load_size (mem st) a < n + sizeof_header) l1 ->
  load_size (mem st) c = N ->
  n + sizeof_header + sizeof_free_block <= N ->
  0 < c -> c + sizeof_free_block + N <= WORD ->
  Forall (fun x => x + 16 <= c \/ c + sizeof_free_block + N <= x) (l1 ++ l2) ->
  let r := c + n + sizeof_header + sizeof_free_block in
  exists st',
    tumalloc fuel st n = Some (st', c + sizeof_header) /\
    load_size (mem st') c = n /\ load_magic (mem st') c = MAGIC /\
    free_list f st' = Some (l1 ++ l2) /\
    (forall a, In a (l1 ++ l2) -> load_size (mem st') a = load_size (mem st) a) /\
    load_size (mem st') r = N - n - sizeof_header - sizeof_free_block /\
    ~ In r (l1 ++ l2) /\
    brk st' = brk st /\
    (forall a, a < c \/ c + sizeof_free_block + N <= a ->
       (forall x, In x l1 -> a < x + 8 \/ x + 16 <= a) ->
       byte_at (mem st') a = byte_at (mem st) a).
Proof.
  intros Hl Hap Hlen Hn Hlim Hsmall HN Hsz Hc Htop Hout r.
  destruct (first_fit_serves f fuel st n c N l1 l2
              Hl Hap Hlen Hn Hlim Hsmall HN Hsz Hc Htop Hout)
    as (st' & E & S & M & L & Sz & R & Rn & B & F & _).
  exists st'. repeat split; assumption.
Qed.
Lemma tumalloc_first_fit_witness :
  exists st',
    tumalloc 3 small_then_big 16 = Some (st', 4144) /\
    free_list 3 st' = Some [4096] /\ load_size (mem st') 4128 = 16.
Proof.
  assert (Hl : free_list 3 small_then_big = Some ([4096] ++ 4128 :: []))
    by (vm_compute; reflexivity).
  assert (Hap : apart ([4096] ++ 4128 :: [])).
  { intros a b [<-|[<-|[]]] [<-|[<-|[]]] Hne; try contradiction; lia. }
  assert (Hlen : (List.length ([4096] ++ 4128 :: []) < 3)%nat) by (cbn; lia).
  assert (Hn : 0 <= 16) by lia.
  assert (Hlim : 16 + sizeof_header < 2 ^ 31) by (unfold sizeof_header; lia).
  assert (Hsmall : Forall (fun a => load_size (mem small_then_big) a < 16 + sizeof_header)
                     [4096]).
  { constructor; [|constructor]. vm_compute. reflexivity. }
  assert (HN : load_size (mem small_then_big) 4128 = 100) by (vm_compute; reflexivity).
  assert (Hsz : 16 + sizeof_header + sizeof_free_block <= 100)
    by (unfold sizeof_header, sizeof_free_block; lia).
  assert (Hc : 0 < 4128) by lia.
  assert (Htop : 4128 + sizeof_free_block + 100 <= WORD)
    by (unfold sizeof_free_block, WORD; lia).
  assert (Hout : Forall (fun x => x + 16 <= 4128 \/ 4128 + sizeof_free_block + 100 <= x)
                   ([4096] ++ [])).
  { constructor; [left; lia|constructor]. }
  destruct (tumalloc_first_fit 3 3 small_then_big 16 4128 100 [4096] []
              Hl Hap Hlen Hn Hlim Hsmall HN Hsz Hc Htop Hout)
    as (st' & E & S & _ & L & _).
  exists st'. repeat split; assumption.
Defined.

(** First fit on a node that [split] refuses. *)
Lemma first_fit_refused (f fuel : nat) (st : state) (n c : Z)
  (l1 l2 : list Z) :
  free_list f st = Some (l1 ++ c :: l2) ->
  (List.length (l1 ++ c :: l2) < fuel)%nat ->
  0 <= n -> n + sizeof_header < 2 ^ 31 ->
  Forall (fun a => load_size (mem st) a < n + sizeof_header) l1 ->
  n + sizeof_header <= load_size (mem st) c
    < n + sizeof_header + sizeof_free_block ->
  tumalloc fuel st n = Some (st, NULL).
Proof.
  intros Hl Hlen Hn Hlim Hsmall Hsz. unfold free_list in Hl.
  unfold sizeof_header, sizeof_free_block in *.
  assert (Hw : wrap (n + 16) = n + 16) by wrap_lia.
  assert (Hi : to_int (n + 16) = n + 16) by wrap_lia.
  assert (Hw2 : wrap (n + 16 + 16) = n + 32) by wrap_lia.
  assert (Hcin : In c (l1 ++ c :: l2)) by (apply in_or_app; right; left; reflexivity).
  destruct (proj2 (nodes_from_closed _ _ _ _ Hl) c Hcin) as [Hc0 _].
  unfold tumalloc.
  assert (Hh : (HEAD st =? NULL) = false).
  { apply Z.eqb_neq. intros E0.
    destruct (nodes_from_inv _ _ _ _ Hl) as [[_ C]|[C _]]; [|contradiction].
    destruct l1; discriminate. }
  rewrite Hh. rewrite length_app in Hlen. cbn [List.length] in Hlen.
  rewrite (tumalloc_from_skip l1 f fuel fuel st (HEAD st) n c l2 Hl);
    [|unfold sizeof_header; rewrite Hw; exact Hsmall|lia].
  destruct (fuel - List.length l1)%nat as [|k] eqn:Ek; [lia|].
  cbn [tumalloc_from].
  destruct (Z.eqb_spec c NULL) as [|_]; [contradiction|].
  unfold sizeof_header. rewrite Hw, Hi.
  destruct (Z.leb_spec (n + 16) (load_size (mem st) c)); [|lia].
  unfold split, sizeof_free_block. rewrite Hw2.
  destruct (Z.ltb_spec (load_size (mem st) c) (n + 32)); [|lia].
  reflexivity.
Qed.

(** X5.  When the first node that passes the first-fit test is too small
    for [split] (its size is at least [n + header_size] but below
    [n + 2 * header_size]), [tumalloc n] returns [NULL] and leaves the whole
    state as it was: it neither looks at the nodes behind it nor asks the OS
    for memory. *)
Theorem tumalloc_first_fit_too_small (f fuel : nat) (st : state) (n c : Z)
  (l1 l2 : list Z) :
  free_list f st = Some (l1 ++ c :: l2) ->
  (List.length (l1 ++ c :: l2) < fuel)%nat ->
  0 <= n -> n + sizeof_header < 2 ^ 31 ->
  Forall (fun a => load_size (mem st) a < n + sizeof_header) l1 ->
  n + sizeof_header <= load_size (mem st) c
    < n + sizeof_header + sizeof_free_block ->
  tumalloc fuel st n = Some (st, NULL).
Proof. exact (first_fit_refused f fuel st n c l1 l2). Qed.

Lemma tumalloc_first_fit_too_small_witness :
  tumalloc 3 small_then_medium 16 = Some (small_then_medium, NULL).
Proof.
  apply (tumalloc_first_fit_too_small 3 3 small_then_medium 16 4128 [4096] []).
  - vm_compute. reflexivity.
  - cbn. lia.
  - lia.
  - unfold sizeof_header. lia.
  - constructor; [|constructor]. vm_compute. reflexivity.
  - replace (load_size (mem small_then_medium) 4128) with 40
      by (vm_compute; reflexivity).
    unfold sizeof_header, sizeof_free_block. lia.
Defined.

(** X6.  The size handed to [split] is an [int].  For a request with
    [2^31 <= n + header_size] and [n + 2 * header_size < 2^32] the conversion
    is negative, [split] refuses every block of realistic size, and
    [tumalloc n] returns [NULL] with the state unchanged as soon as some node
    of the free list passes the first-fit test, whatever its size. *)
Theorem tumalloc_int_conversion (f fuel : nat) (st : state) (n c : Z)
  (l1 l2 : list Z) :
  free_list f st = Some (l1 ++ c :: l2) ->
  (List.length (l1 ++ c :: l2) < fuel)%nat ->
  2 ^ 31 <= n + sizeof_header ->
  n + sizeof_header + sizeof_free_block < 2 ^ 32 ->
  Forall (fun a => load_size (mem st) a < n + sizeof_header) l1 ->
  n + sizeof_header <= load_size (mem st) c < 2 ^ 63 ->
  tumalloc fuel st n = Some (st, NULL).
Proof.
  intros Hl Hlen Hlo Hhi Hsmall Hsz. unfold free_list in Hl.
  unfold sizeof_header, sizeof_free_block in *.
  assert (Hw : wrap (n + 16) = n + 16) by wrap_lia.
  assert (Hi : to_int (n + 16) = n + 16 - 2 ^ 32) by wrap_lia.
  assert (Hw2 : wrap (n + 16 - 2 ^ 32 + 16) = 2 ^ 64 - 2 ^ 32 + n + 32) by wrap_lia.
  assert (Hcin : In c (l1 ++ c :: l2)) by (apply in_or_app; right; left; reflexivity).
  destruct (proj2 (nodes_from_closed _ _ _ _ Hl) c Hcin) as [Hc0 _].
  unfold tumalloc.
  assert (Hh : (HEAD st =? NULL) = false).
  { apply Z.eqb_neq. intros E0.
    destruct (nodes_from_inv _ _ _ _ Hl) as [[_ C]|[C _]]; [|contradiction].
    destruct l1; discriminate. }
  rewrite Hh. rewrite length_app in Hlen. cbn [List.length] in Hlen.
  rewrite (tumalloc_from_skip l1 f fuel fuel st (HEAD st) n c l2 Hl);
    [|unfold sizeof_header; rewrite Hw; exact Hsmall|lia].
  destruct (fuel - List.length l1)%nat as [|k] eqn:Ek; [lia|].
  cbn [tumalloc_from].
  destruct (Z.eqb_spec c NULL) as [|_]; [contradiction|].
  unfold sizeof_header. rewrite Hw, Hi.
  destruct (Z.leb_spec (n + 16) (load_size (mem st) c)); [|lia].
  unfold split, sizeof_free_block. rewrite Hw2.
  destruct (Z.ltb_spec (load_size (mem st) c) (2 ^ 64 - 2 ^ 32 + n + 32)); [|lia].
  reflexivity.
Qed.
Lemma tumalloc_int_conversion_witness :
  tumalloc 2 one_huge_node (2 ^ 31) = Some (one_huge_node, NULL).
Proof.
  apply (tumalloc_int_conversion 2 2 one_huge_node (2 ^ 31) 4096 [] []).
  - vm_compute. reflexivity.
  - cbn. lia.
  - unfold sizeof_header. lia.
  - unfold sizeof_header, sizeof_free_block. lia.
  - constructor.
  - replace (load_size (mem one_huge_node) 4096) with (2 ^ 32)
      by (vm_compute; reflexivity).
    unfold sizeof_header. lia.
Defined.

(** ** What every successful allocation hands out *)

Lemma tumalloc_from_header fuel : forall rfuel st cur n st' p f l,
  0 <= n < WORD ->
  0 <= brk st <= WORD - 32 ->
  nodes_from f (mem st) cur = Some l ->
  Forall (fun c => 0 < c <= WORD - 32) l ->
  tumalloc_from fuel rfuel st cur n = Some (st', p) -> p <> NULL ->
  16 <= p < WORD /\
  load_size (mem st') (p - sizeof_header) = n /\
  load_magic (mem st') (p - sizeof_header) = MAGIC.
Proof.
  induction fuel as [|k IH]; intros rfuel st cur n st' p f l Hn Hb Hl Hok;
    [discriminate|].
  cbn [tumalloc_from].
  destruct (nodes_from_inv _ _ _ _ Hl) as [[-> ->]|[Hh (k' & l' & -> & -> & Hnl)]].
  - cbn [Z.eqb NULL]. rewrite do_alloc_eq by assumption.
    pose proof (padding_range (brk st)) as [Hpad _].
    destruct (_ =? SBRK_FAILED); intros [= <- <-] Hp; [contradiction|].
    cbn [mem set_mem]. unfold sizeof_header.
    replace (brk st + padding (brk st) + 16 - 16) with (brk st + padding (brk st)) by lia.
    split; [unfold WORD in *; lia|]. split.
    + autorewrite with fields. wrap_lia.
    + apply load_magic_store_magic.
  - destruct (Z.eqb_spec cur NULL) as [|_]; [contradiction|].
    inversion Hok as [|? ? Hc Hok']; subst.
    destruct (_ <=? _).
    + destruct (split_cases st cur (to_int (wrap (n + sizeof_header))))
        as [E|[st1 E]]; rewrite E.
      * cbn [Z.eqb NULL]. intros [= <- <-] Hp. contradiction.
      * destruct (Z.eqb_spec cur NULL) as [|_]; [contradiction|].
        destruct (remove_free_block rfuel st1 cur) as [st2|]; [|discriminate].
        intros [= <- <-] Hp. cbn [mem set_mem].
        assert (Hw : wrap (cur + sizeof_header) = cur + 16) by wrap_lia.
        rewrite Hw. unfold sizeof_header.
        replace (cur + 16 - 16) with cur by lia.
        split; [unfold WORD in *; lia|]. split.
        -- autorewrite with fields. wrap_lia.
        -- apply load_magic_store_magic.
    + intros H Hp. eapply IH; eauto.
Qed.

(** X7.  On a heap whose break and free nodes leave room for a header
    below the top of the address space, every non-null pointer that
    [tumalloc n] returns is immediately preceded by a header that records
    exactly [n] and carries the sentinel, whichever path served the request;
    so [tufree] and [turealloc] will accept that pointer. *)
Theorem tumalloc_header_valid (f fuel : nat) (st st' : state) (l : list Z) (n p : Z) :
  0 <= n < WORD ->
  0 <= brk st <= WORD - 32 ->
  free_list f st = Some l ->
  Forall (fun c => 0 < c <= WORD - 32) l ->
  tumalloc fuel st n = Some (st', p) -> p <> NULL ->
  16 <= p < WORD /\
  load_size (mem st') (p - sizeof_header) = n /\
  load_magic (mem st') (p - sizeof_header) = MAGIC.
Proof.
  intros Hn Hb Hl Hok. unfold tumalloc.
  destruct (Z.eqb_spec (HEAD st) NULL) as [E|_].
  - unfold free_list in Hl. rewrite E in Hl.
    intros H. apply (tumalloc_from_header 1 1 st NULL n st' p f l Hn Hb Hl Hok).
    exact H.
  - apply (tumalloc_from_header fuel fuel st (HEAD st) n st' p f l Hn Hb Hl Hok).
Qed.

Lemma tumalloc_first_fit_witness_aux :
  exists st', tumalloc 3 small_then_big 16 = Some (st', 4144).
Proof.
  assert (E : match tumalloc 3 small_then_big 16 with
              | Some (_, p) => p | None => 0 end = 4144) by (vm_compute; reflexivity).
  destruct (tumalloc 3 small_then_big 16) as [[st' p]|]; [|discriminate].
  exists st'. rewrite E. reflexivity.
Qed.

Lemma tumalloc_header_valid_witness :
  exists st',
    tumalloc 3 small_then_big 16 = Some (st', 4144) /\
    load_size (mem st') (4144 - sizeof_header) = 16 /\
    load_magic (mem st') (4144 - sizeof_header) = MAGIC.
Proof.
  destruct tumalloc_first_fit_witness_aux as (st' & E).
  exists st'. split; [exact E|].
  assert (Hn : 0 <= 16 < WORD) by (unfold WORD; lia).
  assert (Hb : 0 <= brk small_then_big <= WORD - 32).
  { replace (brk small_then_big) with 4244 by (vm_compute; reflexivity).
    unfold WORD. lia. }
  assert (Hl : free_list 3 small_then_big = Some [4096; 4128])
    by (vm_compute; reflexivity).
  assert (Hok : Forall (fun c => 0 < c <= WORD - 32) [4096; 4128]).
  { repeat constructor; unfold WORD; lia. }
  assert (Hp : 4144 <> NULL) by discriminate.
  exact (proj2 (tumalloc_header_valid 3 3 small_then_big st' [4096; 4128] 16 4144
                  Hn Hb Hl Hok E Hp)).
Defined.

(** ** Where heap growth puts a block *)

(** X8.  When [do_alloc] succeeds on a request whose size, padding and
    header stay below [2^63], the block it hands out lies entirely in the
    memory just obtained: the header starts at or after the old break, at
    most 15 bytes above it, the pointer is 16-byte aligned, and the payload
    ends exactly at the new break.  No byte below the old break changes. *)
Theorem do_alloc_block_is_fresh (st st' : state) (size p : Z) :
  0 <= size -> 0 <= brk st <= WORD - 32 ->
  size + padding (brk st) + sizeof_header < 2 ^ 63 ->
  do_alloc st size = (st', p) -> p <> NULL ->
  brk st <= p - sizeof_header < brk st + 16 /\
  p mod 16 = 0 /\
  p + size = brk st' /\
  brk st' <= brk_max st /\
  forall a, a < brk st -> byte_at (mem st') a = byte_at (mem st) a.
Proof.
  intros Hs Hb Hlim. rewrite do_alloc_eq by assumption.
  pose proof (padding_range (brk st)) as [Hpad Hal].
  assert (Hg : growth st size = size + padding (brk st) + sizeof_header)
    by (unfold growth; wrap_lia).
  destruct (Z.eqb_spec (snd (sbrk st (growth st size))) SBRK_FAILED) as [|Hok];
    intros [= <- <-] Hp; [contradiction|].
  cbn [mem brk set_mem set_brk]. unfold sizeof_header in *.
  split; [lia|]. split; [clear - Hal; Z.div_mod_to_equations; lia|].
  split; [lia|]. split.
  - rewrite Hg. unfold sbrk in Hok.
    destruct (Z.eqb_spec (growth st size) 0) as [|_]; [lia|].
    destruct (Z.leb_spec 0 (brk st + growth st size));
      destruct (Z.leb_spec (brk st + growth st size) (brk_max st));
      cbn [andb snd] in Hok; try contradiction. lia.
  - intros a Ha. unfold store_magic, store_size.
    rewrite !store_le_outside by lia. reflexivity.
Qed.

Lemma do_alloc_block_is_fresh_witness :
  exists st', do_alloc boot 64 = (st', 4112) /\ 4112 + 64 = brk st'.
Proof.
  assert (E : do_alloc boot 64 = (booted64, 4112)) by (vm_compute; reflexivity).
  exists booted64. split; [exact E|].
  assert (Hs : 0 <= 64) by lia.
  assert (Hb : 0 <= brk boot <= WORD - 32) by (cbn; unfold WORD; lia).
  assert (Hlim : 64 + padding (brk boot) + sizeof_header < 2 ^ 63)
    by (vm_compute; reflexivity).
  assert (Hp : 4112 <> NULL) by discriminate.
  exact (proj1 (proj2 (proj2 (do_alloc_block_is_fresh boot booted64 64 4112
                                Hs Hb Hlim E Hp)))).
Defined.
(** ** What [tufree] writes *)

(** The low bytes of a field, read on their own. *)
Lemma load_le_low n : forall k m a,
  load_le (n + k) m a mod 2 ^ (8 * Z.of_nat n) = load_le n m a.
Proof.
  induction n as [|n IH]; intros k m a.
  - cbn [load_le Nat.add]. change (2 ^ (8 * Z.of_nat 0)) with 1. apply Z.mod_1_r.
  - cbn [load_le Nat.add].
    replace (8 * Z.of_nat (S n)) with (8 + 8 * Z.of_nat n) by lia.
    rewrite Z.pow_add_r by lia. change (2 ^ 8) with 256.
    pose proof (byte_at_range m a) as Hb.
    rewrite <- (IH k m (a + 1)).
    generalize (load_le (n + k) m (a + 1)). intros v.
    assert (Hp : 0 < 2 ^ (8 * Z.of_nat n)) by (apply Z.pow_pos_nonneg; lia).
    rewrite Z.rem_mul_r by lia.
    replace ((byte_at m a + 256 * v) mod 256) with (byte_at m a)
      by (clear - Hb; Z.div_mod_to_equations; lia).
    replace ((byte_at m a + 256 * v) / 256) with v
      by (clear - Hb; Z.div_mod_to_equations; lia).
    reflexivity.
Qed.

(** The sentinel field is the low half of the link field. *)
Lemma load_magic_of_next m p :
  load_magic m p = to_int (load_next m p mod 2 ^ 32).
Proof.
  unfold load_magic, load_next.
  rewrite <- (load_le_low 4 4 m (p + 8)). reflexivity.
Qed.

(** A header whose link field holds a multiple of 16 does not carry the
    sentinel. *)
Lemma aligned_link_not_magic m p :
  load_next m p mod 16 = 0 -> load_magic m p <> MAGIC.
Proof.
  intros Hal. rewrite load_magic_of_next.
  pose proof (load_next_range m p) as R. revert Hal R.
  generalize (load_next m p). intros v Hal R. wrap_lia.
Qed.

Lemma coalesce_prev_bytes m X prev a :
  let B := snd (coalesce_prev m X prev) in
  a < B \/ B + 16 <= a ->
  byte_at (fst (coalesce_prev m X prev)) a = byte_at m a.
Proof.
  unfold coalesce_prev. destruct (prev =? NULL); [reflexivity|].
  destruct (_ =? X); [|reflexivity]. cbn [fst snd]. intros Ha.
  destruct (_ =? X); unfold store_next, store_size;
    rewrite !store_le_outside by lia; reflexivity.
Qed.

Lemma coalesce_next_bytes m B next a :
  a < B \/ B + 16 <= a -> byte_at (coalesce_next m B next) a = byte_at m a.
Proof.
  intros Ha. unfold coalesce_next. destruct (next =? NULL); [reflexivity|].
  destruct (_ =? next); [|reflexivity]. unfold store_next, store_size.
  rewrite !store_le_outside by lia. reflexivity.
Qed.

(** X9.  Whatever the state of the heap, a [tufree] that returns has
    written nowhere but in the 16 header bytes of the freed block and the 16
    header bytes of the block it installs as [HEAD]: no payload byte and no
    other header changes, the break does not move and nothing is printed. *)
Theorem tufree_writes_two_headers (fuel : nat) (st st' : state) (ptr : Z) :
  tufree fuel st ptr = Some st' ->
  let hdr := wrap (ptr - sizeof_header) in
  (forall a, a < hdr \/ hdr + 16 <= a ->
             a < HEAD st' \/ HEAD st' + 16 <= a ->
             byte_at (mem st') a = byte_at (mem st) a) /\
  brk st' = brk st /\ brk_max st' = brk_max st /\ out st' = out st.
Proof.
  unfold tufree. destruct (ptr =? NULL); [intros [= <-]; auto|].
  destruct (_ =? MAGIC); [|intros [= <-]; auto].
  set (hdr := wrap (ptr - sizeof_header)).
  change (store_next (store_size (mem st) hdr (load_size (mem st) hdr)) hdr (HEAD st))
    with (pushed st hdr).
  assert (Hpush : forall a, a < hdr \/ hdr + 16 <= a ->
                    byte_at (pushed st hdr) a = byte_at (mem st) a).
  { intros a Ha. unfold pushed, store_next, store_size.
    rewrite !store_le_outside by lia. reflexivity. }
  unfold coalesce. destruct (hdr =? NULL).
  - intros [= <-]. cbn [mem HEAD brk brk_max out set_mem set_HEAD]. auto.
  - destruct (find_prev fuel _ hdr) as [prev|]; [|discriminate].
    destruct (find_next fuel _ hdr) as [next|]; [|discriminate].
    cbn [mem set_mem].
    pose proof (coalesce_prev_bytes (pushed st hdr) hdr prev) as Hp.
    destruct (coalesce_prev (pushed st hdr) hdr prev) as [m1 B].
    cbn [fst snd] in Hp. intros [= <-].
    cbn [mem HEAD brk brk_max out set_mem set_HEAD].
    split; [|auto]. intros a Ha HaB.
    rewrite coalesce_next_bytes by exact HaB.
    rewrite Hp by exact HaB. apply Hpush. exact Ha.
Qed.

Lemma one_released_free :
  exists st', tufree 3 one_released 4144 = Some st' /\ HEAD st' = 4096.
Proof.
  assert (E : match tufree 3 one_released 4144 with
              | Some st' => HEAD st' | None => 0 end = 4096)
    by (vm_compute; reflexivity).
  destruct (tufree 3 one_released 4144) as [st'|]; [|discriminate].
  exists st'. split; [reflexivity|exact E].
Qed.

Lemma tufree_writes_two_headers_witness :
  exists st',
    tufree 3 one_released 4144 = Some st' /\
    forall a, a < 4096 \/ 4144 <= a ->
      byte_at (mem st') a = byte_at (mem one_released) a.
Proof.
  destruct one_released_free as (st' & E & H).
  exists st'. split; [exact E|].
  destruct (tufree_writes_two_headers 3 one_released st' 4144 E) as [F _].
  intros a Ha. apply F.
  - replace (wrap (4144 - sizeof_header)) with 4128 by reflexivity. lia.
  - rewrite H. lia.
Defined.
(** ** What [tufree] makes of a well-formed free list *)

(** The second half of [coalesce] when the next neighbour is there. *)
Lemma coalesce_next_merges m B N :
  N <> NULL -> node_end m B = N -> B + 16 <= N \/ N + 16 <= B ->
  load_size m B + load_size m N + 16 < WORD ->
  coalesce_next m B N
  = store_next (store_size m B (load_size m B + load_size m N + 16)) B
      (load_next m N).
Proof.
  intros HN He Hap Hs. unfold coalesce_next.
  destruct (Z.eqb_spec N NULL) as [|_]; [contradiction|].
  fold (node_end m B). rewrite He, Z.eqb_refl.
  autorewrite with fields.
  pose proof (load_size_range m B) as RB. pose proof (load_size_range m N) as RN.
  replace (wrap (load_size m B + wrap (load_size m N + sizeof_free_block)))
    with (load_size m B + load_size m N + 16) by (clear - RB RN Hs; wrap_lia).
  reflexivity.
Qed.

(** The first half of [coalesce] when the previous neighbour is there and
    does not link to the block. *)
Lemma coalesce_prev_merges m X P :
  P <> NULL -> node_end m P = X -> load_next m P <> X ->
  load_size m P + load_size m X + 16 < WORD ->
  coalesce_prev m X P
  = (store_size m P (load_size m P + load_size m X + 16), P).
Proof.
  intros HP He Hn Hs. unfold coalesce_prev.
  destruct (Z.eqb_spec P NULL) as [|_]; [contradiction|].
  fold (node_end m P). rewrite He, Z.eqb_refl.
  autorewrite with fields.
  destruct (Z.eqb_spec (load_next m P) X) as [|_]; [contradiction|].
  pose proof (load_size_range m P) as RP. pose proof (load_size_range m X) as RX.
  replace (wrap (load_size m P + wrap (load_size m X + sizeof_free_block)))
    with (load_size m P + load_size m X + 16) by (clear - RP RX Hs; wrap_lia).
  reflexivity.
Qed.

(** The walk from the successor of a node of a list that ends. *)
Lemma nodes_from_after f m h l1 x l2 :
  nodes_from f m h = Some (l1 ++ x :: l2) ->
  nodes_from f m (load_next m x) = Some l2.
Proof.
  intros H. apply nodes_from_suffix in H.
  destruct (nodes_from_inv _ _ _ _ H) as [[_ C]|[_ (k & l' & -> & E & Hn)]];
    [discriminate|].
  injection E as <-. apply nodes_from_mono with (f := k); [exact Hn|lia].
Qed.

(** A walk that comes back to a node it has left never ends. *)
Lemma nodes_from_cycle m h l1 :
  h <> NULL ->
  (forall k, nodes_from k m (load_next m h) = None \/
     exists r, nodes_from k m (load_next m h) = Some (l1 ++ h :: r)) ->
  forall k, nodes_from k m h = None.
Proof.
  intros Hh Hc k. destruct (nodes_from k m h) as [l'|] eqn:E; [|reflexivity].
  exfalso. pose proof (nodes_from_NoDup _ _ _ _ E) as Hnd.
  destruct (nodes_from_inv _ _ _ _ E) as [[C _]|[_ (k' & l'' & -> & -> & Hn)]];
    [contradiction|].
  destruct (Hc k') as [C|(r & Hr)]; [congruence|].
  rewrite Hr in Hn. injection Hn as <-.
  apply NoDup_cons_iff in Hnd. apply (proj1 Hnd).
  apply in_or_app. right. left. reflexivity.
Qed.

(** Following a list whose first nodes kept their links. *)
Lemma nodes_from_prefix l1 : forall f m m' h x l2 k,
  nodes_from f m h = Some (l1 ++ x :: l2) ->
  (forall a, In a l1 -> load_next m' a = load_next m a) ->
  nodes_from k m' h = None \/
  exists r, nodes_from k m' h = Some (l1 ++ x :: r).
Proof.
  induction l1 as [|a l1 IH]; intros f m m' h x l2 k H Hext.
  - cbn [app] in *. pose proof (nodes_from_head _ _ _ _ _ H) as ->.
    destruct (nodes_from k m' x) as [l'|] eqn:E; [|left; reflexivity].
    right. destruct (nodes_from_inv _ _ _ _ E) as [[C _]|[_ (k' & l'' & _ & -> & _)]].
    + destruct (nodes_from_inv _ _ _ _ H) as [[_ C']|[Hx _]];
        [discriminate|contradiction].
    + eexists. reflexivity.
  - cbn [app] in *. pose proof (nodes_from_head _ _ _ _ _ H) as ->.
    destruct (nodes_from_inv _ _ _ _ H) as [[_ C]|[Ha (k0 & l0 & -> & E0 & Hn)]];
      [discriminate|].
    injection E0 as <-.
    destruct k as [|k]; [left; reflexivity|]. rewrite nodes_from_S.
    destruct (Z.eqb_spec a NULL) as [|_]; [contradiction|].
    rewrite (Hext a) by (left; reflexivity).
    destruct (IH k0 m m' (load_next m a) x l2 k Hn) as [->|(r & ->)].
    + intros b Hb. apply Hext. right. exact Hb.
    + left. reflexivity.
    + right. exists r. reflexivity.
Qed.

(** The first element of a list with a given property is unique. *)
Lemma first_unique (Q : Z -> Prop) l1 : forall l2 l1' l2' x y,
  l1 ++ x :: l2 = l1' ++ y :: l2' ->
  (forall a, In a l1 -> ~ Q a) -> Q x ->
  (forall a, In a l1' -> ~ Q a) -> Q y ->
  l1 = l1' /\ x = y /\ l2 = l2'.
Proof.
  induction l1 as [|a l1 IH]; intros l2 l1' l2' x y E H1 Hx H1' Hy.
  - destruct l1' as [|b l1']; cbn [app] in E.
    + injection E as -> ->. auto.
    + injection E as -> _. exfalso. apply (H1' b); [left; reflexivity|exact Hx].
  - destruct l1' as [|b l1']; cbn [app] in E.
    + injection E as -> _. exfalso. apply (H1 y); [left; reflexivity|exact Hy].
    + injection E as -> E.
      destruct (IH l2 l1' l2' x y E) as (-> & -> & ->); auto.
      * intros c Hc. apply H1. right. exact Hc.
      * intros c Hc. apply H1'. right. exact Hc.
Qed.

Section Freeing.

Variables (st : state) (l : list Z) (X : Z) (f fuel : nat).

Hypothesis Hlist : free_list f st = Some l.
Hypothesis Hlen : (List.length l < fuel)%nat.
Hypothesis Hapart : apart l.
Hypothesis Hclear : forall a, In a l -> a + 16 <= X \/ X + 16 <= a.
Hypothesis Hfit :
  forall a, In a l -> 0 < a /\ a + load_size (mem st) a + 16 < WORD.
Hypothesis HX : 0 < X /\ X + load_size (mem st) X + 16 < WORD.
Hypothesis Hmagic : load_magic (mem st) X = MAGIC.

Lemma listed_node_end a :
  In a l -> node_end (mem st) a = a + load_size (mem st) a + 16.
Proof.
  intros Ha. destruct (Hfit a Ha) as [H0 H1].
  pose proof (load_size_range (mem st) a) as R. clear - H0 H1 R. wrap_lia.
Qed.

Lemma freed_node_end : node_end (mem st) X = X + load_size (mem st) X + 16.
Proof.
  destruct HX as [H0 H1].
  pose proof (load_size_range (mem st) X) as R. clear - H0 H1 R. wrap_lia.
Qed.

Lemma freed_fields :
  load_size (pushed st X) X = load_size (mem st) X /\
  load_next (pushed st X) X = HEAD st.
Proof.
  unfold pushed. autorewrite with fields.
  pose proof (load_size_range (mem st) X) as R.
  split; [clear - R; wrap_lia|].
  destruct (head_in_list _ _ _ Hlist) as [->|Hh]; [reflexivity|].
  destruct (Hfit _ Hh) as [H0 H1].
  pose proof (load_size_range (mem st) (HEAD st)) as R'.
  clear - H0 H1 R'. wrap_lia.
Qed.

Lemma pushed_node_end a :
  In a l -> node_end (pushed st X) a = node_end (mem st) a.
Proof.
  intros Ha. unfold node_end.
  rewrite (proj1 (pushed_frame st l X Hclear a Ha)). reflexivity.
Qed.

Lemma tufree_unfolds :
  tufree fuel st (X + sizeof_header)
  = match coalesce fuel (set_mem st (pushed st X)) X with
    | Some (st1, b) => Some (set_HEAD st1 b)
    | None => None
    end.
Proof.
  unfold tufree. destruct HX as [H0 H1].
  pose proof (load_size_range (mem st) X) as R.
  assert (Hhdr : wrap (X + sizeof_header - sizeof_header) = X)
    by (clear - H0 H1 R; wrap_lia).
  destruct (Z.eqb_spec (X + sizeof_header) NULL) as [E|_];
    [unfold sizeof_header, NULL in E; lia|].
  rewrite Hhdr, Hmagic, Z.eqb_refl. reflexivity.
Qed.

(** What the two scans of [coalesce] find once the header is pushed. *)
Lemma scan_prev :
  exists r, find_prev fuel (set_mem st (pushed st X)) X = Some r /\
    ((r = NULL /\ forall a, In a l -> node_end (mem st) a <> X) \/
     (exists l1 l2, l = l1 ++ r :: l2 /\ node_end (mem st) r = X /\
        forall a, In a l1 -> node_end (mem st) a <> X)).
Proof.
  pose proof (pushed_list st l X f Hlist Hclear) as Hl.
  destruct (find_prev_from_first _ _ _ _ fuel X Hl Hlen) as (r & Hr & Hs).
  exists r. split; [exact Hr|]. cbn [mem set_mem] in Hs.
  destruct Hs as [[-> Hno]|(l1 & l2 & E & He & Hno)].
  - left. split; [reflexivity|]. intros a Ha.
    rewrite <- (pushed_node_end a Ha). exact (Hno a Ha).
  - right. exists l1, l2. split; [exact E|].
    assert (Hr' : In r l) by (rewrite E; apply in_or_app; right; left; reflexivity).
    split; [rewrite <- (pushed_node_end r Hr'); exact He|].
    intros a Ha. rewrite <- (pushed_node_end a); [exact (Hno a Ha)|].
    rewrite E. apply in_or_app. left. exact Ha.
Qed.

Lemma scan_next :
  exists r, find_next fuel (set_mem st (pushed st X)) X = Some r /\
    ((r = NULL /\ ~ In (node_end (mem st) X) l) \/
     (r = node_end (mem st) X /\ In r l)).
Proof.
  pose proof (pushed_list st l X f Hlist Hclear) as Hl.
  unfold find_next. cbn [mem HEAD set_mem].
  rewrite (proj1 freed_fields). fold (node_end (mem st) X).
  destruct (find_next_from_total _ _ _ _ fuel (node_end (mem st) X) Hl Hlen)
    as [r Hr].
  exists r. split; [exact Hr|].
  destruct (find_next_from_spec _ _ _ _ _ _ _ Hl Hr) as [[-> Hno]|[Hin ->]].
  - left. split; [reflexivity|]. intros Hin. exact (Hno _ Hin eq_refl).
  - right. split; [reflexivity|exact Hin].
Qed.


Lemma prev_none :
  (forall a, In a l -> node_end (mem st) a <> X) ->
  find_prev fuel (set_mem st (pushed st X)) X = Some NULL.
Proof.
  intros Hno. destruct scan_prev as (r & Hr & [[-> _]|(l1 & l2 & E & He & _)]);
    [exact Hr|].
  exfalso. apply (Hno r); [|exact He].
  rewrite E. apply in_or_app. right. left. reflexivity.
Qed.

Lemma prev_found l1 P l2 :
  l = l1 ++ P :: l2 -> node_end (mem st) P = X ->
  (forall a, In a l1 -> node_end (mem st) a <> X) ->
  find_prev fuel (set_mem st (pushed st X)) X = Some P.
Proof.
  intros E He Hno.
  destruct scan_prev as (r & Hr & [[-> Hno']|(l1' & l2' & E' & He' & Hno')]).
  - exfalso. apply (Hno' P); [|exact He].
    rewrite E. apply in_or_app. right. left. reflexivity.
  - rewrite E in E'.
    destruct (first_unique (fun a => node_end (mem st) a = X)
                l1 l2 l1' l2' P r E') as (_ & -> & _); auto.
Qed.

Lemma next_none :
  ~ In (node_end (mem st) X) l ->
  find_next fuel (set_mem st (pushed st X)) X = Some NULL.
Proof.
  intros Hno. destruct scan_next as (r & Hr & [[-> _]|[-> Hin]]);
    [exact Hr|contradiction].
Qed.

Lemma next_found :
  In (node_end (mem st) X) l ->
  find_next fuel (set_mem st (pushed st X)) X = Some (node_end (mem st) X).
Proof.
  intros Hin. destruct scan_next as (r & Hr & [[-> Hno]|[-> _]]);
    [contradiction|exact Hr].
Qed.

Lemma tufree_result prev next :
  find_prev fuel (set_mem st (pushed st X)) X = Some prev ->
  find_next fuel (set_mem st (pushed st X)) X = Some next ->
  tufree fuel st (X + sizeof_header)
  = Some (set_HEAD
            (set_mem st
               (coalesce_next (fst (coalesce_prev (pushed st X) X prev))
                  (snd (coalesce_prev (pushed st X) X prev)) next))
            (snd (coalesce_prev (pushed st X) X prev))).
Proof.
  intros Hp Hn. rewrite tufree_unfolds. unfold coalesce.
  destruct (Z.eqb_spec X NULL) as [E|_]; [unfold NULL in E; destruct HX; lia|].
  rewrite Hp, Hn. cbn [mem set_mem].
  destruct (coalesce_prev (pushed st X) X prev) as [m1 B]. reflexivity.
Qed.

Lemma not_listed_X : ~ In X l.
Proof. intros Hin. pose proof (Hclear X Hin). lia. Qed.

(** The first half of [coalesce], for a previous neighbour on the list. *)
Lemma prev_step P :
  In P l -> node_end (mem st) P = X ->
  coalesce_prev (pushed st X) X P
  = (store_size (pushed st X) P
       (load_size (mem st) P + load_size (mem st) X + 16), P).
Proof.
  intros HP He. destruct (Hfit P HP) as [P0 P1]. destruct HX as [X0 X1].
  destruct (pushed_frame st l X Hclear P HP) as [SP NP].
  destruct freed_fields as [SX _].
  pose proof (listed_node_end P HP) as He'. rewrite He in He'.
  rewrite <- SP, <- SX. apply coalesce_prev_merges.
  - unfold NULL. lia.
  - rewrite (pushed_node_end P HP). exact He.
  - rewrite NP. destruct (next_in_list _ _ _ Hlist P HP) as [E|Hin].
    + rewrite E. unfold NULL. lia.
    + intros E. rewrite E in Hin. exact (not_listed_X Hin).
  - rewrite SP, SX. lia.
Qed.

(** The block goes to the front of the list when it has no free neighbour. *)
Lemma pushes_block :
  (forall a, In a l -> node_end (mem st) a <> X) ->
  ~ In (node_end (mem st) X) l ->
  exists st',
    tufree fuel st (X + sizeof_header) = Some st' /\
    HEAD st' = X /\
    free_list (S f) st' = Some (X :: l) /\
    load_size (mem st') X = load_size (mem st) X /\
    (forall a, In a l -> load_size (mem st') a = load_size (mem st) a).
Proof.
  intros Hnp Hnn. eexists. split.
  { apply (tufree_result NULL NULL); [exact (prev_none Hnp)|exact (next_none Hnn)]. }
  unfold coalesce_prev, coalesce_next. cbn [Z.eqb NULL fst snd].
  cbn [HEAD mem set_HEAD set_mem]. destruct freed_fields as [SX NX].
  split; [reflexivity|]. split; [|split; [exact SX|]].
  - unfold free_list. cbn [HEAD mem set_HEAD set_mem]. rewrite nodes_from_S.
    destruct (Z.eqb_spec X NULL) as [E|_]; [unfold NULL in E; destruct HX; lia|].
    rewrite NX. pose proof (pushed_list st l X f Hlist Hclear) as Hl.
    unfold free_list in Hl. cbn [HEAD mem set_mem] in Hl. rewrite Hl. reflexivity.
  - intros a Ha. exact (proj1 (pushed_frame st l X Hclear a Ha)).
Qed.

(** X10.  Freeing a block that has no free neighbour: on a free list that
    ends, whose node headers overlap neither one another nor the freed
    header, when no node ends where the freed header starts and none starts
    where the freed block ends, [tufree] returns and puts the block at the
    front of the list: the list is the freed header followed by the old list,
    the block keeps its recorded size and every node keeps its size. *)
Theorem tufree_pushes_block :
  (forall a, In a l -> node_end (mem st) a <> X) ->
  ~ In (node_end (mem st) X) l ->
  exists st',
    tufree fuel st (X + sizeof_header) = Some st' /\
    HEAD st' = X /\
    free_list (S f) st' = Some (X :: l) /\
    load_size (mem st') X = load_size (mem st) X /\
    (forall a, In a l -> load_size (mem st') a = load_size (mem st) a).
Proof. exact pushes_block. Qed.

(** X11.  Freeing a block whose previous neighbour is free and whose next
    neighbour is not: the block is absorbed into the first node [P] of the
    list that ends where the freed header starts, whose size grows by the
    freed size plus one header, and [P] becomes [HEAD].  The free list is
    then [P] followed by the nodes that came after [P]: the nodes that stood
    before [P] on the list are no longer on it. *)
Theorem tufree_merges_prev (l1 l2 : list Z) (P : Z) :
  l = l1 ++ P :: l2 ->
  node_end (mem st) P = X ->
  (forall a, In a l1 -> node_end (mem st) a <> X) ->
  ~ In (node_end (mem st) X) l ->
  exists st',
    tufree fuel st (X + sizeof_header) = Some st' /\
    HEAD st' = P /\
    load_size (mem st') P = load_size (mem st) P + load_size (mem st) X + 16 /\
    free_list (S f) st' = Some (P :: l2) /\
    (forall a, In a l1 -> ~ In a (P :: l2)) /\
    (forall a, In a l -> a <> P -> load_size (mem st') a = load_size (mem st) a).
Proof.
  intros E He Hfirst Hnn.
  assert (HP : In P l) by (rewrite E; apply in_or_app; right; left; reflexivity).
  eexists. split.
  { apply (tufree_result P NULL);
      [exact (prev_found l1 P l2 E He Hfirst)|exact (next_none Hnn)]. }
  rewrite (prev_step P HP He). unfold coalesce_next. cbn [Z.eqb NULL fst snd].
  cbn [HEAD mem set_HEAD set_mem].
  destruct (Hfit P HP) as [P0 P1]. destruct HX as [X0 X1].
  pose proof (listed_node_end P HP) as He'. rewrite He in He'.
  pose proof (load_size_range (mem st) P) as RP.
  pose proof (load_size_range (mem st) X) as RX.
  split; [reflexivity|]. split; [|split; [|split]].
  - autorewrite with fields. clear - P0 X1 He' RP RX. wrap_lia.
  - unfold free_list in *. cbn [HEAD mem set_HEAD set_mem].
    apply nodes_from_mono with (f := f); [|lia].
    apply nodes_from_ext with (m := mem st).
    + intros a Ha.
      assert (Hal : In a l) by (rewrite E; apply in_or_app; right; exact Ha).
      assert (Hd : P <= a \/ a + 16 <= P).
      { destruct (Z.eq_dec a P) as [->|Hne]; [lia|].
        destruct (Hapart a P Hal HP Hne); lia. }
      autorewrite with fields.
      exact (proj2 (pushed_frame st l X Hclear a Hal)).
    + rewrite E in Hlist. exact (nodes_from_suffix _ _ _ _ _ _ Hlist).
  - intros a Ha Hin. unfold free_list in Hlist.
    pose proof (nodes_from_NoDup _ _ _ _ Hlist) as Hnd. rewrite E in Hnd.
    apply in_split in Ha. destruct Ha as (la & lb & ->).
    rewrite <- app_assoc in Hnd. cbn [app] in Hnd.
    apply NoDup_remove_2 in Hnd. apply Hnd.
    apply in_or_app. right. apply in_or_app. right. exact Hin.
  - intros a Ha Hne. destruct (Hapart a P Ha HP Hne).
    + autorewrite with fields. exact (proj1 (pushed_frame st l X Hclear a Ha)).
    + autorewrite with fields. exact (proj1 (pushed_frame st l X Hclear a Ha)).
Qed.


(** X12.  Freeing a block whose next neighbour [N] is free and whose
    previous neighbour is not: the block absorbs [N], its size grows by the
    size of [N] plus one header, and it becomes [HEAD] with the successor of
    [N] as its successor.  The free list is then the freed header followed by
    the nodes that came after [N]: [N] has left the list, and so have the
    nodes that stood before [N] on it. *)
Theorem tufree_merges_next (l1 l2 : list Z) :
  (forall a, In a l -> node_end (mem st) a <> X) ->
  l = l1 ++ node_end (mem st) X :: l2 ->
  exists st',
    tufree fuel st (X + sizeof_header) = Some st' /\
    HEAD st' = X /\
    load_size (mem st') X
      = load_size (mem st) X + load_size (mem st) (node_end (mem st) X) + 16 /\
    free_list (S f) st' = Some (X :: l2) /\
    (forall a, In a l1 \/ a = node_end (mem st) X -> ~ In a (X :: l2)) /\
    (forall a, In a l -> load_size (mem st') a = load_size (mem st) a).
Proof.
  intros Hnp E. set (N := node_end (mem st) X) in *.
  assert (HN : In N l) by (rewrite E; apply in_or_app; right; left; reflexivity).
  eexists. split.
  { apply (tufree_result NULL N); [exact (prev_none Hnp)|exact (next_found HN)]. }
  unfold coalesce_prev. cbn [Z.eqb NULL fst snd].
  cbn [HEAD mem set_HEAD set_mem].
  destruct (Hfit N HN) as [N0 N1]. destruct HX as [X0 X1].
  destruct freed_fields as [SX NX].
  destruct (pushed_frame st l X Hclear N HN) as [SN NN].
  pose proof freed_node_end as HeX. fold N in HeX.
  pose proof (load_size_range (mem st) N) as RN.
  pose proof (load_size_range (mem st) X) as RX.
  pose proof (load_next_range (mem st) N) as RNn.
  pose proof (Hclear N HN) as HNX.
  rewrite coalesce_next_merges.
  2:{ unfold NULL. lia. }
  2:{ unfold node_end. rewrite SX. exact eq_refl. }
  2:{ lia. }
  2:{ rewrite SX, SN. lia. }
  rewrite SX, SN, NN.
  split; [reflexivity|]. split; [|split; [|split]].
  - autorewrite with fields. clear - X0 N1 HeX RN RX. wrap_lia.
  - unfold free_list in *. cbn [HEAD mem set_HEAD set_mem]. rewrite nodes_from_S.
    destruct (Z.eqb_spec X NULL) as [C|_]; [unfold NULL in C; lia|].
    rewrite load_next_store_next.
    replace (wrap (load_next (mem st) N)) with (load_next (mem st) N)
      by (clear - RNn; wrap_lia).
    rewrite E in Hlist.
    rewrite (nodes_from_ext f (mem st) _ (load_next (mem st) N) l2);
      [reflexivity| |exact (nodes_from_after _ _ _ _ _ _ Hlist)].
    intros a Ha.
    assert (Hal : In a l) by (rewrite E; apply in_or_app; right; right; exact Ha).
    pose proof (Hclear a Hal). autorewrite with fields.
    exact (proj2 (pushed_frame st l X Hclear a Hal)).
  - unfold free_list in Hlist.
    pose proof (nodes_from_NoDup _ _ _ _ Hlist) as Hnd. rewrite E in Hnd.
    intros a Ha [<-|Hin].
    + apply not_listed_X. destruct Ha as [Ha|Ha]; [|rewrite Ha; exact HN].
      rewrite E. apply in_or_app. left. exact Ha.
    + destruct Ha as [Ha|Ha]; [|rewrite Ha in Hin].
      * apply in_split in Ha. destruct Ha as (la & lb & ->).
        rewrite <- app_assoc in Hnd. cbn [app] in Hnd.
        apply NoDup_remove_2 in Hnd. apply Hnd.
        apply in_or_app. right. apply in_or_app. right. right. exact Hin.
      * apply NoDup_remove_2 in Hnd. apply Hnd. apply in_or_app. right. exact Hin.
  - intros a Ha. pose proof (Hclear a Ha). autorewrite with fields.
    exact (proj1 (pushed_frame st l X Hclear a Ha)).
Qed.

(** Both halves of [coalesce], for two neighbours on the list. *)
Lemma both_steps P :
  In P l -> node_end (mem st) P = X -> In (node_end (mem st) X) l ->
  let N := node_end (mem st) X in
  let m2 := coalesce_next (fst (coalesce_prev (pushed st X) X P)) P N in
  snd (coalesce_prev (pushed st X) X P) = P /\
  load_size m2 P
    = load_size (mem st) P + load_size (mem st) X + load_size (mem st) N + 32 /\
  load_next m2 P = load_next (mem st) N /\
  (forall a, In a l -> a <> P ->
     load_size m2 a = load_size (mem st) a /\
     load_next m2 a = load_next (mem st) a).
Proof.
  intros HP He HN N m2. subst m2. fold N in HN.
  rewrite (prev_step P HP He). cbn [fst snd]. split; [reflexivity|].
  destruct (Hfit P HP) as [P0 P1]. destruct (Hfit N HN) as [N0 N1].
  destruct HX as [X0 X1].
  destruct freed_fields as [SX NX].
  destruct (pushed_frame st l X Hclear N HN) as [SN NN].
  destruct (pushed_frame st l X Hclear P HP) as [SP NP].
  pose proof freed_node_end as HeX. fold N in HeX.
  pose proof (listed_node_end P HP) as HeP. rewrite He in HeP.
  pose proof (load_size_range (mem st) N) as RN.
  pose proof (load_size_range (mem st) X) as RX.
  pose proof (load_size_range (mem st) P) as RP.
  pose proof (load_next_range (mem st) N) as RNn.
  assert (HNP : N <> P) by lia.
  pose proof (Hapart N P HN HP HNP) as HapNP.
  set (v1 := load_size (mem st) P + load_size (mem st) X + 16).
  assert (S1 : load_size (store_size (pushed st X) P v1) P = v1).
  { autorewrite with fields. subst v1. clear - X1 P0 HeP RP RX. wrap_lia. }
  assert (S1N : load_size (store_size (pushed st X) P v1) N = load_size (mem st) N).
  { autorewrite with fields. exact SN. }
  assert (N1N : load_next (store_size (pushed st X) P v1) N = load_next (mem st) N).
  { autorewrite with fields. exact NN. }
  rewrite coalesce_next_merges.
  2:{ unfold NULL. lia. }
  2:{ unfold node_end. rewrite S1. subst v1. clear - HeX HeP N1 P0 RP RX RN. wrap_lia. }
  2:{ lia. }
  2:{ rewrite S1, S1N. subst v1. lia. }
  rewrite S1, S1N, N1N.
  split; [|split].
  - autorewrite with fields. subst v1. clear - HeX HeP N1 P0 RP RX RN. wrap_lia.
  - rewrite load_next_store_next. clear - RNn. wrap_lia.
  - intros a Ha Hne. pose proof (Hapart a P Ha HP Hne).
    autorewrite with fields. exact (pushed_frame st l X Hclear a Ha).
Qed.

(** X13.  Freeing a block between two free neighbours, the previous one
    [P] standing before the next one [N] on the list: the three blocks
    become one node at [P], whose size is the sum of the three sizes plus two
    headers, and [P] becomes [HEAD] with the successor of [N] as its
    successor.  The free list is then [P] followed by the nodes that came
    after [N]; the nodes that stood before [P], or between [P] and [N], have
    left the list. *)
Theorem tufree_merges_both (l1 l2 l3 : list Z) (P : Z) :
  l = l1 ++ P :: l2 ++ node_end (mem st) X :: l3 ->
  node_end (mem st) P = X ->
  (forall a, In a l1 -> node_end (mem st) a <> X) ->
  exists st',
    tufree fuel st (X + sizeof_header) = Some st' /\
    HEAD st' = P /\
    load_size (mem st') P
      = load_size (mem st) P + load_size (mem st) X
        + load_size (mem st) (node_end (mem st) X) + 32 /\
    free_list (S f) st' = Some (P :: l3) /\
    (forall a, In a l1 \/ In a l2 -> ~ In a (P :: l3)) /\
    (forall a, In a l -> a <> P -> load_size (mem st') a = load_size (mem st) a).
Proof.
  intros E He Hfirst. set (N := node_end (mem st) X) in *.
  assert (HP : In P l) by (rewrite E; apply in_or_app; right; left; reflexivity).
  assert (HN : In N l).
  { rewrite E. apply in_or_app. right. right. apply in_or_app. right. left.
    reflexivity. }
  eexists. split.
  { apply (tufree_result P N);
      [exact (prev_found l1 P _ E He Hfirst)|exact (next_found HN)]. }
  destruct (both_steps P HP He HN) as (HB & HS & HNx & Hframe). fold N in HS, HNx, Hframe.
  rewrite HB. cbn [HEAD mem set_HEAD set_mem].
  unfold free_list in Hlist.
  pose proof (nodes_from_NoDup _ _ _ _ Hlist) as Hnd. rewrite E in Hnd.
  split; [reflexivity|]. split; [exact HS|]. split; [|split].
  - unfold free_list. cbn [HEAD mem set_HEAD set_mem]. rewrite nodes_from_S.
    destruct (Z.eqb_spec P NULL) as [C|_];
      [unfold NULL in C; destruct (Hfit P HP); lia|].
    fold N. rewrite HNx.
    assert (Hl3 : nodes_from f (mem st) (load_next (mem st) N) = Some l3).
    { rewrite E in Hlist.
      replace (l1 ++ P :: l2 ++ N :: l3) with ((l1 ++ P :: l2) ++ N :: l3) in Hlist
        by (rewrite <- app_assoc; reflexivity).
      exact (nodes_from_after _ _ _ _ _ _ Hlist). }
    rewrite (nodes_from_ext f (mem st) _ (load_next (mem st) N) l3);
      [reflexivity| |exact Hl3].
    intros a Ha.
    assert (Hal : In a l).
    { rewrite E. apply in_or_app. right. right. apply in_or_app. right. right.
      exact Ha. }
    apply Hframe; [exact Hal|]. intros ->.
    apply NoDup_remove_2 in Hnd. apply Hnd. apply in_or_app. right.
    apply in_or_app. right. right. exact Ha.
  - intros a Ha [<-|Hin].
    + pose proof (NoDup_remove_2 _ _ _ Hnd) as Hn. apply Hn.
      destruct Ha as [Ha|Ha]; apply in_or_app; [left; exact Ha|].
      right. apply in_or_app. left. exact Ha.
    + replace (l1 ++ P :: l2 ++ N :: l3) with ((l1 ++ P :: l2) ++ N :: l3) in Hnd
        by (rewrite <- app_assoc; reflexivity).
      assert (Hpre : In a (l1 ++ P :: l2)).
      { destruct Ha as [Ha|Ha]; apply in_or_app; [left|right; right]; exact Ha. }
      apply in_split in Hpre. destruct Hpre as (la & lb & Ep).
      rewrite Ep in Hnd. rewrite <- app_assoc in Hnd. cbn [app] in Hnd.
      apply NoDup_remove_2 in Hnd. apply Hnd.
      apply in_or_app. right. apply in_or_app. right. right. exact Hin.
  - intros a Ha Hne. exact (proj1 (Hframe a Ha Hne)).
Qed.

(** X14.  Freeing a block between two free neighbours, the next one [N]
    standing before the previous one [P] on the list: [tufree] returns with
    [P] as [HEAD], but the link it stores in [P] is the successor of [N],
    from which the old links lead back to [P].  The free list is a cycle: no
    walk of it ends, whatever the fuel. *)
Theorem tufree_builds_cycle (l1 l2 l3 : list Z) (P : Z) :
  l = l1 ++ node_end (mem st) X :: l2 ++ P :: l3 ->
  node_end (mem st) P = X ->
  (forall a, In a l1 \/ a = node_end (mem st) X \/ In a l2 ->
             node_end (mem st) a <> X) ->
  exists st',
    tufree fuel st (X + sizeof_header) = Some st' /\
    HEAD st' = P /\
    forall k, free_list k st' = None.
Proof.
  intros E He Hfirst. set (N := node_end (mem st) X) in *.
  assert (HP : In P l).
  { rewrite E. apply in_or_app. right. right. apply in_or_app. right. left.
    reflexivity. }
  assert (HN : In N l) by (rewrite E; apply in_or_app; right; left; reflexivity).
  eexists. split.
  { apply (tufree_result P N); [|exact (next_found HN)].
    apply (prev_found (l1 ++ N :: l2) P l3).
    - rewrite <- app_assoc. exact E.
    - exact He.
    - intros a Ha. apply Hfirst. apply in_app_or in Ha.
      destruct Ha as [Ha|[<-|Ha]]; auto. }
  destruct (both_steps P HP He HN) as (HB & HS & HNx & Hframe). fold N in HS, HNx, Hframe.
  rewrite HB. cbn [HEAD mem set_HEAD set_mem].
  split; [reflexivity|]. intros k. unfold free_list in *.
  cbn [HEAD mem set_HEAD set_mem]. fold N.
  pose proof (nodes_from_NoDup _ _ _ _ Hlist) as Hnd. rewrite E in Hnd.
  apply (nodes_from_cycle _ P l2).
  - unfold NULL. destruct (Hfit P HP). lia.
  - intros k'. rewrite HNx.
    assert (Hl2 : nodes_from f (mem st) (load_next (mem st) N) = Some (l2 ++ P :: l3)).
    { rewrite E in Hlist. exact (nodes_from_after _ _ _ _ _ _ Hlist). }
    apply (nodes_from_prefix l2 f (mem st) _ _ P l3 k' Hl2).
    intros a Ha. apply Hframe.
    + rewrite E. apply in_or_app. right. right. apply in_or_app. left. exact Ha.
    + intros ->. apply NoDup_app_remove_l in Hnd.
      apply NoDup_cons_iff in Hnd. destruct Hnd as [_ Hnd].
      apply NoDup_remove_2 in Hnd. apply Hnd.
      apply in_or_app. left. exact Ha.
Qed.


(** X15.  Freeing the same pointer twice.  On such a free list whose nodes
    all start at multiples of 16, the first [tufree] returns, and it leaves
    in the bytes where the sentinel stood the low half of a list link, which
    is a multiple of 16 and so never the sentinel: a second [tufree] of the
    same pointer finds no sentinel and returns the state as it is, whatever
    the fuel. *)
Theorem tufree_twice :
  (forall a, In a l -> a mod 16 = 0) ->
  exists st',
    tufree fuel st (X + sizeof_header) = Some st' /\
    load_magic (mem st') X <> MAGIC /\
    forall fuel', tufree fuel' st' (X + sizeof_header) = Some st'.
Proof.
  intros Hal.
  assert (Hlink : forall a, a = NULL \/ In a l -> a mod 16 = 0).
  { intros a [->|Ha]; [reflexivity|exact (Hal a Ha)]. }
  destruct scan_prev as (prev & Fp & Sp). destruct scan_next as (next & Fn & Sn).
  eexists. split; [exact (tufree_result prev next Fp Fn)|].
  cbn [HEAD mem set_HEAD set_mem].
  destruct freed_fields as [SX NX]. destruct HX as [X0 X1].
  pose proof (load_size_range (mem st) X) as RX.
  assert (Hmod : load_next
            (coalesce_next (fst (coalesce_prev (pushed st X) X prev))
               (snd (coalesce_prev (pushed st X) X prev)) next) X mod 16 = 0).
  { destruct Sp as [[-> _]|(l1 & l2 & E & He & _)].
    - unfold coalesce_prev. cbn [Z.eqb NULL fst snd].
      destruct Sn as [[-> _]|[-> HN]].
      + unfold coalesce_next. cbn [Z.eqb NULL]. rewrite NX.
        exact (Hlink _ (head_in_list _ _ _ Hlist)).
      + destruct (Hfit _ HN) as [N0 N1].
        destruct (pushed_frame st l X Hclear _ HN) as [SN NN].
        pose proof (Hclear _ HN) as HNX.
        pose proof (load_size_range (mem st) (node_end (mem st) X)) as RN.
        pose proof (load_next_range (mem st) (node_end (mem st) X)) as RNn.
        pose proof freed_node_end as HeX.
        rewrite coalesce_next_merges.
        2:{ unfold NULL. lia. }
        2:{ unfold node_end. rewrite SX. exact eq_refl. }
        2:{ lia. }
        2:{ rewrite SX, SN. lia. }
        rewrite load_next_store_next, NN.
        replace (wrap (load_next (mem st) (node_end (mem st) X)))
          with (load_next (mem st) (node_end (mem st) X))
          by (clear - RNn; wrap_lia).
        exact (Hlink _ (next_in_list _ _ _ Hlist _ HN)).
    - assert (HP : In prev l)
        by (rewrite E; apply in_or_app; right; left; reflexivity).
      rewrite (prev_step prev HP He). cbn [fst snd].
      pose proof (Hclear prev HP) as HPX.
      replace (load_next (coalesce_next _ prev next) X) with (HEAD st).
      + exact (Hlink _ (head_in_list _ _ _ Hlist)).
      + rewrite <- NX. unfold load_next. apply load_le_ext. intros i Hi.
        rewrite coalesce_next_bytes by (cbn in Hi; lia).
        unfold store_size. rewrite store_le_outside by (cbn in Hi |- *; lia).
        reflexivity. }
  pose proof (aligned_link_not_magic _ _ Hmod) as Hnm.
  split; [exact Hnm|]. intros fuel'. unfold tufree.
  destruct (Z.eqb_spec (X + sizeof_header) NULL) as [C|_];
    [unfold sizeof_header, NULL in C; lia|].
  replace (wrap (X + sizeof_header - sizeof_header)) with X
    by (clear - X0 X1 RX; wrap_lia).
  cbn [HEAD mem set_HEAD set_mem].
  destruct (Z.eqb_spec
              (load_magic
                 (coalesce_next (fst (coalesce_prev (pushed st X) X prev))
                    (snd (coalesce_prev (pushed st X) X prev)) next) X) MAGIC)
    as [C|_]; [contradiction|reflexivity].
Qed.


(** X16.  Free, then allocate less.  When the freed block has no free
    neighbour and no node of the list lies inside it, a [tumalloc] of [n]
    bytes that follows the [tufree], with [n] plus two headers no more than
    the freed size, hands the same pointer out again without moving the
    break: the header records [n] and the sentinel, and the free list is the
    one from before the [tufree]. *)
Theorem free_then_alloc_reuses (n : Z) :
  (forall a, In a l -> node_end (mem st) a <> X) ->
  ~ In (node_end (mem st) X) l ->
  Forall (fun a => a + 16 <= X \/ X + 16 + load_size (mem st) X <= a) l ->
  0 <= n -> n + sizeof_header < 2 ^ 31 ->
  n + sizeof_header + sizeof_free_block <= load_size (mem st) X ->
  exists st1 st2,
    tufree fuel st (X + sizeof_header) = Some st1 /\
    tumalloc fuel st1 n = Some (st2, X + sizeof_header) /\
    load_size (mem st2) X = n /\ load_magic (mem st2) X = MAGIC /\
    free_list (S f) st2 = Some l /\ HEAD st2 = HEAD st /\
    brk st2 = brk st.
Proof.
  intros Hnp Hnn Hout Hn Hlim Hsz.
  destruct (pushes_block Hnp Hnn) as (st1 & T & H1 & L1 & S1 & _).
  destruct HX as [X0 X1].
  assert (Hfuel : (1 <= fuel)%nat) by lia.
  assert (Htop : X + sizeof_free_block + load_size (mem st) X <= WORD)
    by (unfold sizeof_free_block; lia).
  assert (Hout1 : Forall
            (fun a => a + 16 <= X \/
                      X + sizeof_free_block + load_size (mem st) X <= a) l)
    by exact Hout.
  destruct (tumalloc_head_leaks_remainder fuel (S f) st1 n X
              (load_size (mem st) X) l Hfuel Hn Hlim H1 L1 S1 Hsz X0 Htop Hout1)
    as (st2 & A & S2 & M2 & _ & H2 & L2 & _ & B2).
  exists st1, st2. split; [exact T|]. split; [exact A|].
  split; [exact S2|]. split; [exact M2|]. split; [exact L2|].
  assert (Hst1 : Some st1
            = Some (set_HEAD (set_mem st (pushed st X)) X)).
  { rewrite <- T. rewrite (tufree_result NULL NULL (prev_none Hnp) (next_none Hnn)).
    reflexivity. }
  injection Hst1 as ->. cbn [HEAD mem brk set_HEAD set_mem] in H2, B2.
  split; [|exact B2]. rewrite H2. exact (proj2 freed_fields).
Qed.

(** What every [tufree] of a valid block achieves on such a list: the node
    that becomes [HEAD] starts at or below the freed header and ends at or
    beyond the end of the freed block, and only the freed header and the
    header of that node are written. *)
Lemma tufree_frees :
  exists st',
    tufree fuel st (X + sizeof_header) = Some st' /\
    (HEAD st' = X \/ In (HEAD st') l) /\
    0 < HEAD st' <= X /\
    X + 16 + load_size (mem st) X
      <= HEAD st' + 16 + load_size (mem st') (HEAD st') /\
    (forall a, a < X \/ X + 16 <= a -> a < HEAD st' \/ HEAD st' + 16 <= a ->
       byte_at (mem st') a = byte_at (mem st) a) /\
    brk st' = brk st /\ brk_max st' = brk_max st /\ out st' = out st.
Proof.
  destruct scan_prev as (prev & Fp & Sp). destruct scan_next as (next & Fn & Sn).
  eexists. split; [exact (tufree_result prev next Fp Fn)|].
  cbn [HEAD mem brk brk_max out set_HEAD set_mem].
  destruct freed_fields as [SX NX]. destruct HX as [X0 X1].
  pose proof (load_size_range (mem st) X) as RX.
  pose proof freed_node_end as HeX.
  assert (Hframe : forall a, a < X \/ X + 16 <= a ->
            a < snd (coalesce_prev (pushed st X) X prev) \/
            snd (coalesce_prev (pushed st X) X prev) + 16 <= a ->
            byte_at (coalesce_next (fst (coalesce_prev (pushed st X) X prev))
                       (snd (coalesce_prev (pushed st X) X prev)) next) a
            = byte_at (mem st) a).
  { intros a Ha HaB. rewrite coalesce_next_bytes by exact HaB.
    rewrite (coalesce_prev_bytes (pushed st X) X prev a HaB).
    unfold pushed, store_next, store_size.
    rewrite !store_le_outside by lia. reflexivity. }
  assert (Hrest : forall B s,
            snd (coalesce_prev (pushed st X) X prev) = B ->
            load_size (coalesce_next (fst (coalesce_prev (pushed st X) X prev))
                         B next) B = s ->
            (B = X \/ In B l) -> 0 < B <= X ->
            X + 16 + load_size (mem st) X <= B + 16 + s ->
            (snd (coalesce_prev (pushed st X) X prev) = X \/
             In (snd (coalesce_prev (pushed st X) X prev)) l) /\
            0 < snd (coalesce_prev (pushed st X) X prev) <= X /\
            X + 16 + load_size (mem st) X
              <= snd (coalesce_prev (pushed st X) X prev) + 16
                 + load_size
                     (coalesce_next (fst (coalesce_prev (pushed st X) X prev))
                        (snd (coalesce_prev (pushed st X) X prev)) next)
                     (snd (coalesce_prev (pushed st X) X prev))).
  { intros B s EB Es HB HB0 Hs. rewrite EB, Es. auto. }
  split; [|split; [|split; [|split; [exact Hframe|auto]]]].
  all: destruct Sp as [[-> _]|(l1 & l2 & E & He & _)].
  all: try (assert (HP : In prev l)
              by (rewrite E; apply in_or_app; right; left; reflexivity)).
  all: try (pose proof (listed_node_end prev HP) as HeP; rewrite He in HeP;
            destruct (Hfit prev HP) as [P0 P1];
            pose proof (load_size_range (mem st) prev) as RP).
  all: destruct Sn as [[-> _]|[-> HN]].
  all: try (destruct (Hfit _ HN) as [N0 N1];
            pose proof (load_size_range (mem st) (node_end (mem st) X)) as RN;
            pose proof (Hclear _ HN) as HNX;
            destruct (pushed_frame st l X Hclear _ HN) as [SN NN]).
  (* no neighbour *)
  1,5,9: apply (Hrest X (load_size (mem st) X));
    [reflexivity|exact SX|left; reflexivity|lia|lia].
  (* next neighbour only *)
  1,4,7: apply (Hrest X (load_size (mem st) X
                         + load_size (mem st) (node_end (mem st) X) + 16));
    [reflexivity
    |unfold coalesce_prev; cbn [Z.eqb NULL fst snd];
     rewrite coalesce_next_merges;
     [rewrite SX, SN; autorewrite with fields;
      clear - X0 N1 HeX RN RX; wrap_lia
     |unfold NULL; lia
     |unfold node_end; rewrite SX; exact eq_refl
     |lia
     |rewrite SX, SN; lia]
    |left; reflexivity|lia|lia].
  (* previous neighbour only *)
  1,3,5: apply (Hrest prev (load_size (mem st) prev + load_size (mem st) X + 16));
    [rewrite (prev_step prev HP He); reflexivity
    |rewrite (prev_step prev HP He); unfold coalesce_next;
     cbn [Z.eqb NULL fst snd]; autorewrite with fields;
     clear - P0 X1 HeP RP RX; wrap_lia
    |right; exact HP|lia|lia].
  (* both neighbours *)
  all: destruct (both_steps prev HP He HN) as (HB & HS & _ & _);
    apply (Hrest prev (load_size (mem st) prev + load_size (mem st) X
                       + load_size (mem st) (node_end (mem st) X) + 32));
    [exact HB|exact HS|right; exact HP|lia|lia].
Qed.

End Freeing.

(** Facts read off a concrete state by running the program. *)
Ltac by_run := vm_compute; reflexivity.

Lemma tufree_pushes_block_witness :
  exists st',
    tufree 3 freed_0_4 4176 = Some st' /\
    free_list 4 st' = Some [4160; 4224; 4096].
Proof.
  assert (Hl : free_list 3 freed_0_4 = Some [4224; 4096]) by by_run.
  assert (Hlen : (List.length [4224; 4096] < 3)%nat) by (cbn; lia).
  assert (Hclear : forall a, In a [4224; 4096] -> a + 16 <= 4160 \/ 4160 + 16 <= a)
    by (intros a [<-|[<-|[]]]; lia).
  assert (Sz4224 : load_size (mem freed_0_4) 4224 = 16) by by_run.
  assert (Sz4096 : load_size (mem freed_0_4) 4096 = 16) by by_run.
  assert (Hfit : forall a, In a [4224; 4096] ->
            0 < a /\ a + load_size (mem freed_0_4) a + 16 < WORD).
  { intros a [<-|[<-|[]]]; rewrite ?Sz4224; rewrite ?Sz4096; unfold WORD; lia. }
  assert (HX : 0 < 4160 /\ 4160 + load_size (mem freed_0_4) 4160 + 16 < WORD).
  { replace (load_size (mem freed_0_4) 4160) with 16 by by_run. unfold WORD. lia. }
  assert (Hm : load_magic (mem freed_0_4) 4160 = MAGIC) by by_run.
  assert (Hnp : forall a, In a [4224; 4096] -> node_end (mem freed_0_4) a <> 4160).
  { intros a [<-|[<-|[]]]; vm_compute; discriminate. }
  assert (Hnn : ~ In (node_end (mem freed_0_4) 4160) [4224; 4096]).
  { replace (node_end (mem freed_0_4) 4160) with 4192 by by_run.
    intros [C|[C|[]]]; discriminate C. }
  destruct (tufree_pushes_block freed_0_4 [4224; 4096] 4160 3 3
              Hl Hlen Hclear Hfit HX Hm Hnp Hnn) as (st' & E & _ & L & _).
  exists st'. split; [exact E|exact L].
Defined.

Lemma tufree_merges_prev_witness :
  exists st',
    tufree 3 freed_0_4 4144 = Some st' /\
    load_size (mem st') 4096 = 48 /\
    free_list 4 st' = Some [4096].
Proof.
  assert (Hl : free_list 3 freed_0_4 = Some [4224; 4096]) by by_run.
  assert (Hlen : (List.length [4224; 4096] < 3)%nat) by (cbn; lia).
  assert (Hap : apart [4224; 4096]).
  { intros a b [<-|[<-|[]]] [<-|[<-|[]]] Hne; try contradiction; lia. }
  assert (Hclear : forall a, In a [4224; 4096] -> a + 16 <= 4128 \/ 4128 + 16 <= a)
    by (intros a [<-|[<-|[]]]; lia).
  assert (Sz4224 : load_size (mem freed_0_4) 4224 = 16) by by_run.
  assert (Sz4096 : load_size (mem freed_0_4) 4096 = 16) by by_run.
  assert (Hfit : forall a, In a [4224; 4096] ->
            0 < a /\ a + load_size (mem freed_0_4) a + 16 < WORD).
  { intros a [<-|[<-|[]]]; rewrite ?Sz4224; rewrite ?Sz4096; unfold WORD; lia. }
  assert (HX : 0 < 4128 /\ 4128 + load_size (mem freed_0_4) 4128 + 16 < WORD).
  { replace (load_size (mem freed_0_4) 4128) with 16 by by_run. unfold WORD. lia. }
  assert (Hm : load_magic (mem freed_0_4) 4128 = MAGIC) by by_run.
  assert (E : [4224; 4096] = [4224] ++ 4096 :: []) by reflexivity.
  assert (He : node_end (mem freed_0_4) 4096 = 4128) by by_run.
  assert (Hfirst : forall a, In a [4224] -> node_end (mem freed_0_4) a <> 4128).
  { intros a [<-|[]]; vm_compute; discriminate. }
  assert (Hnn : ~ In (node_end (mem freed_0_4) 4128) [4224; 4096]).
  { replace (node_end (mem freed_0_4) 4128) with 4160 by by_run.
    intros [C|[C|[]]]; discriminate C. }
  destruct (tufree_merges_prev freed_0_4 [4224; 4096] 4128 3 3
              Hl Hlen Hap Hclear Hfit HX Hm [4224] [] 4096 E He Hfirst Hnn)
    as (st' & T & _ & S & L & _).
  exists st'. split; [exact T|]. split; [|exact L].
  rewrite S. by_run.
Defined.

Lemma tufree_merges_next_witness :
  exists st',
    tufree 3 freed_4_0 4208 = Some st' /\
    load_size (mem st') 4192 = 48 /\
    free_list 4 st' = Some [4192].
Proof.
  assert (Hl : free_list 3 freed_4_0 = Some [4096; 4224]) by by_run.
  assert (Hlen : (List.length [4096; 4224] < 3)%nat) by (cbn; lia).
  assert (Hclear : forall a, In a [4096; 4224] -> a + 16 <= 4192 \/ 4192 + 16 <= a)
    by (intros a [<-|[<-|[]]]; lia).
  assert (Sz4096 : load_size (mem freed_4_0) 4096 = 16) by by_run.
  assert (Sz4224 : load_size (mem freed_4_0) 4224 = 16) by by_run.
  assert (Hfit : forall a, In a [4096; 4224] ->
            0 < a /\ a + load_size (mem freed_4_0) a + 16 < WORD).
  { intros a [<-|[<-|[]]]; rewrite ?Sz4096; rewrite ?Sz4224; unfold WORD; lia. }
  assert (HX : 0 < 4192 /\ 4192 + load_size (mem freed_4_0) 4192 + 16 < WORD).
  { replace (load_size (mem freed_4_0) 4192) with 16 by by_run. unfold WORD. lia. }
  assert (Hm : load_magic (mem freed_4_0) 4192 = MAGIC) by by_run.
  assert (Hnp : forall a, In a [4096; 4224] -> node_end (mem freed_4_0) a <> 4192).
  { intros a [<-|[<-|[]]]; vm_compute; discriminate. }
  assert (E : [4096; 4224] = [4096] ++ node_end (mem freed_4_0) 4192 :: [])
    by by_run.
  destruct (tufree_merges_next freed_4_0 [4096; 4224] 4192 3 3
              Hl Hlen Hclear Hfit HX Hm [4096] [] Hnp E)
    as (st' & T & _ & S & L & _).
  exists st'. split; [exact T|]. split; [|exact L].
  rewrite S. by_run.
Defined.

Lemma tufree_merges_both_witness :
  exists st',
    tufree 4 freed_2_4_0 4144 = Some st' /\
    load_size (mem st') 4096 = 80 /\
    free_list 5 st' = Some [4096].
Proof.
  assert (Hl : free_list 4 freed_2_4_0 = Some [4096; 4224; 4160]) by by_run.
  assert (Hlen : (List.length [4096; 4224; 4160] < 4)%nat) by (cbn; lia).
  assert (Hap : apart [4096; 4224; 4160]).
  { intros a b [<-|[<-|[<-|[]]]] [<-|[<-|[<-|[]]]] Hne; try contradiction; lia. }
  assert (Hclear : forall a, In a [4096; 4224; 4160] ->
            a + 16 <= 4128 \/ 4128 + 16 <= a)
    by (intros a [<-|[<-|[<-|[]]]]; lia).
  assert (Sz4096 : load_size (mem freed_2_4_0) 4096 = 16) by by_run.
  assert (Sz4224 : load_size (mem freed_2_4_0) 4224 = 16) by by_run.
  assert (Sz4160 : load_size (mem freed_2_4_0) 4160 = 16) by by_run.
  assert (Hfit : forall a, In a [4096; 4224; 4160] ->
            0 < a /\ a + load_size (mem freed_2_4_0) a + 16 < WORD).
  { intros a [<-|[<-|[<-|[]]]]; rewrite ?Sz4096; rewrite ?Sz4224; rewrite ?Sz4160; unfold WORD; lia. }
  assert (HX : 0 < 4128 /\ 4128 + load_size (mem freed_2_4_0) 4128 + 16 < WORD).
  { replace (load_size (mem freed_2_4_0) 4128) with 16 by by_run. unfold WORD. lia. }
  assert (Hm : load_magic (mem freed_2_4_0) 4128 = MAGIC) by by_run.
  assert (E : [4096; 4224; 4160]
              = [] ++ 4096 :: [4224] ++ node_end (mem freed_2_4_0) 4128 :: [])
    by by_run.
  assert (He : node_end (mem freed_2_4_0) 4096 = 4128) by by_run.
  assert (Hfirst : forall a, In a [] -> node_end (mem freed_2_4_0) a <> 4128)
    by (intros a []).
  destruct (tufree_merges_both freed_2_4_0 [4096; 4224; 4160] 4128 4 4
              Hl Hlen Hap Hclear Hfit HX Hm [] [4224] [] 4096 E He Hfirst)
    as (st' & T & _ & S & L & _).
  exists st'. split; [exact T|]. split; [|exact L].
  rewrite S. by_run.
Defined.

Lemma tufree_builds_cycle_witness :
  exists st',
    tufree 3 freed_0_2 4144 = Some st' /\ HEAD st' = 4096 /\
    forall k, free_list k st' = None.
Proof.
  assert (Hl : free_list 3 freed_0_2 = Some [4160; 4096]) by by_run.
  assert (Hlen : (List.length [4160; 4096] < 3)%nat) by (cbn; lia).
  assert (Hap : apart [4160; 4096]).
  { intros a b [<-|[<-|[]]] [<-|[<-|[]]] Hne; try contradiction; lia. }
  assert (Hclear : forall a, In a [4160; 4096] -> a + 16 <= 4128 \/ 4128 + 16 <= a)
    by (intros a [<-|[<-|[]]]; lia).
  assert (Sz4160 : load_size (mem freed_0_2) 4160 = 16) by by_run.
  assert (Sz4096 : load_size (mem freed_0_2) 4096 = 16) by by_run.
  assert (Hfit : forall a, In a [4160; 4096] ->
            0 < a /\ a + load_size (mem freed_0_2) a + 16 < WORD).
  { intros a [<-|[<-|[]]]; rewrite ?Sz4160; rewrite ?Sz4096; unfold WORD; lia. }
  assert (HX : 0 < 4128 /\ 4128 + load_size (mem freed_0_2) 4128 + 16 < WORD).
  { replace (load_size (mem freed_0_2) 4128) with 16 by by_run. unfold WORD. lia. }
  assert (Hm : load_magic (mem freed_0_2) 4128 = MAGIC) by by_run.
  assert (E : [4160; 4096]
              = [] ++ node_end (mem freed_0_2) 4128 :: [] ++ 4096 :: [])
    by by_run.
  assert (He : node_end (mem freed_0_2) 4096 = 4128) by by_run.
  assert (Hfirst : forall a,
            In a [] \/ a = node_end (mem freed_0_2) 4128 \/ In a [] ->
            node_end (mem freed_0_2) a <> 4128).
  { intros a [[]|[->|[]]]. vm_compute. discriminate. }
  exact (tufree_builds_cycle freed_0_2 [4160; 4096] 4128 3 3
           Hl Hlen Hap Hclear Hfit HX Hm [] [] [] 4096 E He Hfirst).
Defined.

Lemma tufree_twice_witness :
  exists st',
    tufree 2 one_released 4144 = Some st' /\ tufree 2 st' 4144 = Some st'.
Proof.
  assert (Hl : free_list 2 one_released = Some [4096]) by by_run.
  assert (Hlen : (List.length [4096] < 2)%nat) by (cbn; lia).
  assert (Hclear : forall a, In a [4096] -> a + 16 <= 4128 \/ 4128 + 16 <= a)
    by (intros a [<-|[]]; lia).
  assert (S0 : load_size (mem one_released) 4096 = 16) by by_run.
  assert (SX : load_size (mem one_released) 4128 = 16) by by_run.
  assert (Hfit : forall a, In a [4096] ->
            0 < a /\ a + load_size (mem one_released) a + 16 < WORD).
  { intros a [<-|[]]. rewrite S0. unfold WORD. lia. }
  assert (HX : 0 < 4128 /\ 4128 + load_size (mem one_released) 4128 + 16 < WORD).
  { rewrite SX. unfold WORD. lia. }
  assert (Hm : load_magic (mem one_released) 4128 = MAGIC) by by_run.
  assert (Hal : forall a, In a [4096] -> a mod 16 = 0)
    by (intros a [<-|[]]; reflexivity).
  destruct (tufree_twice one_released [4096] 4128 2 2
              Hl Hlen Hclear Hfit HX Hm Hal) as (st' & T & _ & D).
  exists st'. split; [exact T|exact (D 2%nat)].
Defined.

Lemma free_then_alloc_reuses_witness :
  exists st1 st2,
    tufree 2 big_third 4176 = Some st1 /\
    tumalloc 2 st1 16 = Some (st2, 4176) /\
    free_list 3 st2 = Some [4096] /\ brk st2 = brk big_third.
Proof.
  assert (Hl : free_list 2 big_third = Some [4096]) by by_run.
  assert (Hlen : (List.length [4096] < 2)%nat) by (cbn; lia).
  assert (Hclear : forall a, In a [4096] -> a + 16 <= 4160 \/ 4160 + 16 <= a)
    by (intros a [<-|[]]; lia).
  assert (S0 : load_size (mem big_third) 4096 = 16) by by_run.
  assert (SX : load_size (mem big_third) 4160 = 64) by by_run.
  assert (E0 : node_end (mem big_third) 4096 = 4128) by by_run.
  assert (EX : node_end (mem big_third) 4160 = 4240) by by_run.
  assert (Hfit : forall a, In a [4096] ->
            0 < a /\ a + load_size (mem big_third) a + 16 < WORD).
  { intros a [<-|[]]. rewrite S0. unfold WORD. lia. }
  assert (HX : 0 < 4160 /\ 4160 + load_size (mem big_third) 4160 + 16 < WORD).
  { rewrite SX. unfold WORD. lia. }
  assert (Hm : load_magic (mem big_third) 4160 = MAGIC) by by_run.
  assert (Hnp : forall a, In a [4096] -> node_end (mem big_third) a <> 4160).
  { intros a [<-|[]]. rewrite E0. lia. }
  assert (Hnn : ~ In (node_end (mem big_third) 4160) [4096]).
  { rewrite EX. intros [C|[]]. discriminate C. }
  assert (Hout : Forall (fun a => a + 16 <= 4160 \/
                           4160 + 16 + load_size (mem big_third) 4160 <= a) [4096]).
  { rewrite SX. apply Forall_cons; [lia|apply Forall_nil]. }
  assert (Hn : 0 <= 16) by lia.
  assert (Hlim : 16 + sizeof_header < 2 ^ 31) by (unfold sizeof_header; lia).
  assert (Hsz : 16 + sizeof_header + sizeof_free_block
                <= load_size (mem big_third) 4160).
  { rewrite SX. unfold sizeof_header, sizeof_free_block. lia. }
  destruct (free_then_alloc_reuses big_third [4096] 4160 2 2
              Hl Hlen Hclear Hfit HX Hm 16 Hnp Hnn Hout Hn Hlim Hsz)
    as (st1 & st2 & T & A & _ & _ & L & _ & B).
  exists st1, st2. split; [exact T|]. split; [exact A|]. split; [exact L|exact B].
Defined.
(** ** Allocation when nothing on the list fits *)

(** X17.  When every node of the free list is smaller than the request plus
    one header, [tumalloc] walks the whole list and falls back on heap
    growth.  If the OS grants the increment, the block is placed at the
    padded break, the break moves up by padding, header and payload, and the
    free list, which lies below the old break, is left exactly as it was;
    if the OS refuses, [tumalloc] returns [NULL] and the state is unchanged. *)
Theorem tumalloc_grows_when_nothing_fits (f fuel : nat) (st : state) (n : Z)
    (l : list Z) :
  free_list f st = Some l ->
  (List.length l < fuel)%nat ->
  Forall (fun c => load_size (mem st) c < n + sizeof_header /\ c + 16 <= brk st) l ->
  0 <= n -> 0 <= brk st <= WORD - 32 ->
  let head := brk st + padding (brk st) in
  head + sizeof_header + n < 2 ^ 63 ->
  (head + sizeof_header + n <= brk_max st ->
     exists st',
       tumalloc fuel st n = Some (st', head + sizeof_header) /\
       brk st' = head + sizeof_header + n /\
       load_size (mem st') head = n /\ load_magic (mem st') head = MAGIC /\
       HEAD st' = HEAD st /\ free_list f st' = Some l /\
       (forall a, In a l -> load_size (mem st') a = load_size (mem st) a)) /\
  (brk_max st < head + sizeof_header + n ->
     tumalloc fuel st n = Some (st, NULL)).
Proof.
  intros Hl Hlen Hall Hn Hb head Hlim.
  pose proof (padding_range (brk st)) as [Hpad _]. fold head in Hlim.
  assert (Hw : wrap (n + sizeof_header) = n + sizeof_header)
    by (subst head; clear - Hn Hb Hlim Hpad; wrap_lia).
  assert (Hsmall : Forall (fun c => load_size (mem st) c < wrap (n + sizeof_header)) l).
  { rewrite Hw. eapply Forall_impl; [|exact Hall]. cbn beta. intros a [H _]. exact H. }
  rewrite (tumalloc_no_fit f fuel st n l Hl Hsmall Hlen).
  rewrite Forall_forall in Hall. split.
  - intros Hmax. rewrite (do_alloc_granted st n Hn Hb Hmax Hlim). fold head.
    eexists. split; [reflexivity|]. cbn [mem HEAD brk set_mem set_brk].
    assert (Hkeep : forall a, In a l ->
              load_size (store_magic (store_size (mem st) head n) head MAGIC) a
              = load_size (mem st) a /\
              load_next (store_magic (store_size (mem st) head n) head MAGIC) a
              = load_next (mem st) a).
    { intros a Ha. destruct (Hall a Ha) as [_ Hbelow]. subst head.
      autorewrite with fields. auto. }
    split; [reflexivity|]. split; [|split; [|split; [|split]]].
    + autorewrite with fields. clear - Hn Hlim Hb Hpad. subst head. wrap_lia.
    + apply load_magic_store_magic.
    + reflexivity.
    + unfold free_list in *. cbn [mem HEAD set_mem set_brk].
      apply nodes_from_ext with (m := mem st); [|exact Hl].
      intros a Ha. exact (proj2 (Hkeep a Ha)).
    + intros a Ha. exact (proj1 (Hkeep a Ha)).
  - intros Hmax. rewrite do_alloc_eq by assumption.
    assert (Hg : growth st n = n + padding (brk st) + sizeof_header).
    { unfold growth. subst head. clear - Hn Hb Hlim Hpad. wrap_lia. }
    rewrite Hg. unfold sbrk.
    destruct (Z.eqb_spec (n + padding (brk st) + sizeof_header) 0) as [C|_];
      [unfold sizeof_header in C; lia|].
    destruct (Z.leb_spec (brk st + (n + padding (brk st) + sizeof_header)) (brk_max st));
      [subst head; lia|].
    rewrite andb_false_r. cbn [snd]. rewrite Z.eqb_refl. reflexivity.
Qed.

Lemma tumalloc_grows_when_nothing_fits_witness :
  exists st',
    tumalloc 3 freed_0_4 8 = Some (st', 4272) /\ brk st' = 4280 /\
    free_list 3 st' = Some [4224; 4096].
Proof.
  assert (Hl : free_list 3 freed_0_4 = Some [4224; 4096]) by (vm_compute; reflexivity).
  assert (Hlen : (List.length [4224; 4096] < 3)%nat) by (cbn; lia).
  assert (Hb : brk freed_0_4 = 4256) by (vm_compute; reflexivity).
  assert (Hall : Forall (fun c => load_size (mem freed_0_4) c < 8 + sizeof_header /\
                                  c + 16 <= brk freed_0_4) [4224; 4096]).
  { assert (S1 : load_size (mem freed_0_4) 4224 = 16) by (vm_compute; reflexivity).
    assert (S2 : load_size (mem freed_0_4) 4096 = 16) by (vm_compute; reflexivity).
    rewrite Hb. unfold sizeof_header.
    apply Forall_cons; [rewrite S1; lia|].
    apply Forall_cons; [rewrite S2; lia|]. apply Forall_nil. }
  assert (Hn : 0 <= 8) by lia.
  assert (Hb' : 0 <= brk freed_0_4 <= WORD - 32) by (rewrite Hb; unfold WORD; lia).
  assert (Hpad : brk freed_0_4 + padding (brk freed_0_4) = 4256)
    by (vm_compute; reflexivity).
  assert (Hlim : brk freed_0_4 + padding (brk freed_0_4) + sizeof_header + 8 < 2 ^ 63)
    by (rewrite Hpad; unfold sizeof_header; lia).
  assert (Hmax : brk freed_0_4 + padding (brk freed_0_4) + sizeof_header + 8
                 <= brk_max freed_0_4).
  { rewrite Hpad. replace (brk_max freed_0_4) with 65536 by (vm_compute; reflexivity).
    unfold sizeof_header. lia. }
  destruct (tumalloc_grows_when_nothing_fits 3 3 freed_0_4 8 [4224; 4096]
              Hl Hlen Hall Hn Hb' Hlim) as [G _].
  destruct (G Hmax) as (st' & T & B & _ & _ & _ & L & _).
  rewrite Hpad in T, B. exists st'. split; [exact T|]. split; [exact B|exact L].
Defined.

(** ** Alignment of what is handed out *)

Lemma tumalloc_from_aligned fuel : forall rfuel st cur n st' p f l,
  0 <= brk st <= WORD - 32 ->
  nodes_from f (mem st) cur = Some l ->
  Forall (fun c => 0 < c <= WORD - 32 /\ c mod 16 = 0) l ->
  tumalloc_from fuel rfuel st cur n = Some (st', p) ->
  p mod 16 = 0.
Proof.
  induction fuel as [|k IH]; intros rfuel st cur n st' p f l Hb Hl Hok;
    [discriminate|].
  cbn [tumalloc_from].
  destruct (nodes_from_inv _ _ _ _ Hl) as [[-> ->]|[Hh (k' & l' & -> & -> & Hnl)]].
  - cbn [Z.eqb NULL]. rewrite do_alloc_eq by assumption.
    pose proof (padding_range (brk st)) as [Hpad Hal].
    destruct (_ =? SBRK_FAILED); intros [= <- <-]; [reflexivity|].
    unfold sizeof_header. clear - Hal. Z.div_mod_to_equations. lia.
  - destruct (Z.eqb_spec cur NULL) as [|_]; [contradiction|].
    inversion Hok as [|? ? [Hc Hal] Hok']; subst.
    destruct (_ <=? _).
    + destruct (split_cases st cur (to_int (wrap (n + sizeof_header))))
        as [E|[st1 E]]; rewrite E.
      * cbn [Z.eqb NULL]. intros [= <- <-]. reflexivity.
      * destruct (Z.eqb_spec cur NULL) as [|_]; [contradiction|].
        destruct (remove_free_block rfuel st1 cur) as [st2|]; [|discriminate].
        intros [= <- <-].
        assert (Hw : wrap (cur + sizeof_header) = cur + 16)
          by (clear - Hc; wrap_lia).
        rewrite Hw. clear - Hal. Z.div_mod_to_equations. lia.
    + intros H. eapply IH; eauto.
Qed.

(** X18.  [ALIGNMENT] is only used by [do_alloc], yet every pointer that
    [tumalloc] returns is a multiple of 16 as long as the nodes of the free
    list start at multiples of 16: a grown block starts at the padded break,
    and a reused block starts where a list node did. *)
Theorem tumalloc_aligned (f fuel : nat) (st st' : state) (l : list Z) (n p : Z) :
  0 <= brk st <= WORD - 32 ->
  free_list f st = Some l ->
  Forall (fun c => 0 < c <= WORD - 32 /\ c mod 16 = 0) l ->
  tumalloc fuel st n = Some (st', p) ->
  p mod 16 = 0.
Proof.
  intros Hb Hl Hok. unfold tumalloc.
  destruct (Z.eqb_spec (HEAD st) NULL) as [E|_].
  - unfold free_list in Hl. rewrite E in Hl.
    intros H. apply (tumalloc_from_aligned 1 1 st NULL n st' p f l Hb Hl Hok).
    exact H.
  - apply (tumalloc_from_aligned fuel fuel st (HEAD st) n st' p f l Hb Hl Hok).
Qed.

Lemma tumalloc_aligned_witness :
  exists st', tumalloc 3 small_then_big 16 = Some (st', 4144) /\ 4144 mod 16 = 0.
Proof.
  destruct tumalloc_first_fit_witness_aux as (st' & E).
  exists st'. split; [exact E|].
  assert (Hb : 0 <= brk small_then_big <= WORD - 32).
  { replace (brk small_then_big) with 4244 by (vm_compute; reflexivity).
    unfold WORD. lia. }
  assert (Hl : free_list 3 small_then_big = Some [4096; 4128])
    by (vm_compute; reflexivity).
  assert (Hok : Forall (fun c => 0 < c <= WORD - 32 /\ c mod 16 = 0) [4096; 4128]).
  { repeat constructor; unfold WORD; lia. }
  exact (tumalloc_aligned 3 3 small_then_big st' [4096; 4128] 16 4144 Hb Hl Hok E).
Defined.

(** ** The scans on two nodes *)

Lemma find_prev_spec_witness :
  exists r, find_prev 3 freed_0_4 4128 = Some r /\ r <> NULL /\
            node_end (mem freed_0_4) r = 4128.
Proof.
  assert (Hl : free_list 3 freed_0_4 = Some [4224; 4096]) by (vm_compute; reflexivity).
  assert (Hlen : (List.length [4224; 4096] < 3)%nat) by (cbn; lia).
  destruct (find_prev_spec 3 3 freed_0_4 [4224; 4096] 4128 Hl Hlen)
    as (r & Hr & [[_ Hno]|(l1 & l2 & E & He & _)]).
  - exfalso. apply (Hno 4096); [right; left; reflexivity|vm_compute; reflexivity].
  - exists r. split; [exact Hr|]. split; [|exact He].
    intros ->. revert He. vm_compute. discriminate.
Defined.

Lemma find_next_spec_witness :
  find_next 3 freed_0_4 4192 = Some 4224.
Proof.
  assert (Hl : free_list 3 freed_0_4 = Some [4224; 4096]) by (vm_compute; reflexivity).
  assert (Hlen : (List.length [4224; 4096] < 3)%nat) by (cbn; lia).
  assert (He : node_end (mem freed_0_4) 4192 = 4224) by (vm_compute; reflexivity).
  destruct (find_next_spec 3 3 freed_0_4 [4224; 4096] 4192 Hl Hlen)
    as (r & Hr & [[_ Hno]|[-> _]]).
  - exfalso. apply Hno. rewrite He. left. reflexivity.
  - rewrite Hr, He. reflexivity.
Defined.

(** ** An invariant of [tufree] *)

(** X19.  [tufree] keeps the free list free of contiguous nodes.  On a
    free list that ends, whose node headers overlap neither one another nor
    the freed header, and no node of which ends where another starts, a
    [tufree] that returns leaves a free list with the same property,
    whenever that list can be walked to its end. *)
Theorem tufree_keeps_no_adjacency (f fuel : nat) (st st' : state) (l : list Z)
    (X : Z) :
  free_list f st = Some l ->
  apart l ->
  (forall a, In a l -> a + 16 <= X \/ X + 16 <= a) ->
  (forall a, In a l -> 0 < a /\ a + load_size (mem st) a + 16 < WORD) ->
  0 < X /\ X + load_size (mem st) X + 16 < WORD ->
  (forall a b, In a l -> In b l -> a <> b -> node_end (mem st) a <> b) ->
  load_magic (mem st) X = MAGIC ->
  tufree fuel st (X + sizeof_header) = Some st' ->
  forall f' l', free_list f' st' = Some l' ->
    adjacent_pair (mem st') l' = false /\
    forall a b, In a l' -> In b l' -> a <> b -> node_end (mem st') a <> b.
Proof.
  intros Hl Hap Hclear Hfit HX Hnoadj Hm Hfree f' l' Hl'.
  pose proof (tufree_keeps_nodes_apart st l X f Hl Hap Hclear Hfit HX Hnoadj
                fuel st' Hm Hfree f' l' Hl') as H.
  split; [apply adjacent_pair_false; exact H|exact H].
Qed.

Lemma tufree_keeps_no_adjacency_witness :
  exists st',
    tufree 3 freed_0_4 4176 = Some st' /\
    forall f' l', free_list f' st' = Some l' -> adjacent_pair (mem st') l' = false.
Proof.
  assert (T : exists st', tufree 3 freed_0_4 4176 = Some st').
  { assert (E : match tufree 3 freed_0_4 4176 with
                | Some _ => true | None => false end = true)
      by (vm_compute; reflexivity).
    destruct (tufree 3 freed_0_4 4176) as [st'|]; [|discriminate].
    exists st'. reflexivity. }
  destruct T as (st' & T). exists st'. split; [exact T|].
  assert (Hl : free_list 3 freed_0_4 = Some [4224; 4096]) by (vm_compute; reflexivity).
  assert (Hap : apart [4224; 4096]).
  { intros a b [<-|[<-|[]]] [<-|[<-|[]]] Hne; try contradiction; lia. }
  assert (Hclear : forall a, In a [4224; 4096] -> a + 16 <= 4160 \/ 4160 + 16 <= a)
    by (intros a [<-|[<-|[]]]; lia).
  assert (S1 : load_size (mem freed_0_4) 4224 = 16) by (vm_compute; reflexivity).
  assert (S2 : load_size (mem freed_0_4) 4096 = 16) by (vm_compute; reflexivity).
  assert (SX : load_size (mem freed_0_4) 4160 = 16) by (vm_compute; reflexivity).
  assert (E1 : node_end (mem freed_0_4) 4224 = 4256) by (vm_compute; reflexivity).
  assert (E2 : node_end (mem freed_0_4) 4096 = 4128) by (vm_compute; reflexivity).
  assert (Hfit : forall a, In a [4224; 4096] ->
            0 < a /\ a + load_size (mem freed_0_4) a + 16 < WORD).
  { intros a [<-|[<-|[]]]; rewrite ?S1, ?S2; unfold WORD; lia. }
  assert (HX : 0 < 4160 /\ 4160 + load_size (mem freed_0_4) 4160 + 16 < WORD).
  { rewrite SX. unfold WORD. lia. }
  assert (Hnoadj : forall a b, In a [4224; 4096] -> In b [4224; 4096] -> a <> b ->
                     node_end (mem freed_0_4) a <> b).
  { intros a b [<-|[<-|[]]] [<-|[<-|[]]] Hne; try contradiction;
      rewrite ?E1, ?E2; lia. }
  assert (Hm : load_magic (mem freed_0_4) 4160 = MAGIC) by (vm_compute; reflexivity).
  intros f' l' Hl'.
  exact (proj1 (tufree_keeps_no_adjacency 3 3 freed_0_4 st' [4224; 4096] 4160
                  Hl Hap Hclear Hfit HX Hnoadj Hm T f' l' Hl')).
Defined.

(** ** What an allocation leaves of a well-formed heap *)

(** Either every node is smaller than [t], or some node is the first that
    is not. *)
Lemma first_fit_split m t : forall l,
  Forall (fun a => load_size m a < t) l \/
  exists l1 c l2, l = l1 ++ c :: l2 /\
    Forall (fun a => load_size m a < t) l1 /\ t <= load_size m c.
Proof.
  induction l as [|a l IH]; [left; constructor|].
  destruct (Z.lt_ge_cases (load_size m a) t) as [Hlt|Hge].
  - destruct IH as [Hall|(l1 & c & l2 & -> & H1 & Hc)].
    + left. constructor; assumption.
    + right. exists (a :: l1), c, l2. split; [reflexivity|].
      split; [constructor; assumption|exact Hc].
  - right. exists [], a, l. split; [reflexivity|]. split; [constructor|exact Hge].
Qed.

Lemma well_formed_apart f st l : well_formed f st l -> apart l.
Proof.
  intros (_ & _ & _ & Hsep) a b Ha Hb Hne.
  pose proof (load_size_range (mem st) a). unfold sizeof_free_block in Hsep.
  destruct (Hsep a b Ha Hb Hne); lia.
Qed.

(** [tumalloc] on a well-formed heap: it returns; a [NULL] result leaves
    the state as it was; otherwise the block comes from above the old break
    or from a node of the list, the free list is the old one, without that
    node in the second case, and nothing changes in the part of the heap
    that lies in no free node. *)
Lemma tumalloc_outcome f fuel st l n :
  well_formed f st l -> (List.length l < fuel)%nat ->
  0 <= n < 2 ^ 63 - 32 ->
  exists st1 p l',
    tumalloc fuel st n = Some (st1, p) /\
    out st1 = out st /\ brk_max st1 = brk_max st /\
    (p = NULL -> st1 = st) /\
    (p <> NULL ->
       free_list f st1 = Some l' /\
       (forall a, In a l' ->
          In a l /\ load_size (mem st1) a = load_size (mem st) a) /\
       (forall a, a < brk st ->
          (forall x, In x l -> a < x \/ x + 16 + load_size (mem st) x <= a) ->
          byte_at (mem st1) a = byte_at (mem st) a) /\
       ((l' = l /\ brk st + 16 <= p /\ p + n = brk st1) \/
        (exists l1 c l2, l = l1 ++ c :: l2 /\ l' = l1 ++ l2 /\ p = c + 16 /\
           n + 32 <= load_size (mem st) c /\ brk st1 = brk st))).
Proof.
  intros Hwf Hlen Hn. pose proof (well_formed_apart _ _ _ Hwf) as Hap.
  destruct Hwf as (Hl & Hb & Hnodes & Hsep).
  unfold sizeof_free_block in *.
  pose proof (padding_range (brk st)) as [Hpad _].
  assert (Hw : wrap (n + sizeof_header) = n + 16)
    by (clear - Hn; wrap_lia).
  destruct (first_fit_split (mem st) (n + 16) l)
    as [Hsmall|(l1 & c & l2 & E & Hsmall & Hc)].
  - (* nothing fits: heap growth *)
    assert (Hsmall' : Forall (fun c => load_size (mem st) c
                                       < wrap (n + sizeof_header)) l)
      by (rewrite Hw; exact Hsmall).
    pose proof (tumalloc_no_fit f fuel st n l Hl Hsmall' Hlen) as T.
    rewrite do_alloc_eq in T by exact Hb.
    assert (Hg : growth st n = n + padding (brk st) + 16).
    { unfold growth. clear - Hn Hpad. wrap_lia. }
    rewrite Hg in T.
    destruct (snd (sbrk st (n + padding (brk st) + 16)) =? SBRK_FAILED).
    + exists st, NULL, l. split; [exact T|].
      split; [reflexivity|]. split; [reflexivity|]. split; [reflexivity|].
      intros C. contradiction.
    + eexists. exists (brk st + padding (brk st) + sizeof_header), l.
      split; [exact T|]. cbn [mem HEAD brk brk_max out set_mem set_brk].
      split; [reflexivity|]. split; [reflexivity|].
      split; [unfold sizeof_header, NULL; lia|]. intros _.
      assert (Hkeep : forall a, In a l ->
                load_size (store_magic (store_size (mem st)
                             (brk st + padding (brk st)) n)
                             (brk st + padding (brk st)) MAGIC) a
                = load_size (mem st) a /\
                load_next (store_magic (store_size (mem st)
                             (brk st + padding (brk st)) n)
                             (brk st + padding (brk st)) MAGIC) a
                = load_next (mem st) a).
      { intros a Ha. destruct (Hnodes a Ha) as (_ & _ & Hbelow).
        pose proof (load_size_range (mem st) a).
        autorewrite with fields. auto. }
      split.
      { unfold free_list in *. cbn [mem HEAD set_mem set_brk].
        apply nodes_from_ext with (m := mem st); [|exact Hl].
        intros a Ha. exact (proj2 (Hkeep a Ha)). }
      split; [intros a Ha; split; [exact Ha|exact (proj1 (Hkeep a Ha))]|].
      split.
      { intros a Ha _. unfold store_magic, store_size.
        rewrite !store_le_outside by lia. reflexivity. }
      left. unfold sizeof_header. split; [reflexivity|]. lia.
  - (* first fit at [c] *)
    assert (Hcin : In c l) by (rewrite E; apply in_or_app; right; left; reflexivity).
    destruct (Hnodes c Hcin) as (Hc0 & Hc31 & Hcb).
    assert (Hlim : n + sizeof_header < 2 ^ 31) by (unfold sizeof_header; lia).
    assert (Hn0 : 0 <= n) by lia.
    assert (Hsmall' : Forall (fun a => load_size (mem st) a < n + sizeof_header) l1)
      by exact Hsmall.
    rewrite E in Hl, Hlen, Hap.
    destruct (Z.lt_ge_cases (load_size (mem st) c) (n + 32)) as [Hlt|Hge].
    + exists st, NULL, l. split.
      { apply (first_fit_refused f fuel st n c l1 l2 Hl Hlen Hn0 Hlim Hsmall').
        unfold sizeof_header, sizeof_free_block. lia. }
      split; [reflexivity|]. split; [reflexivity|]. split; [reflexivity|].
      intros C. contradiction.
    + assert (Hnd : NoDup (l1 ++ c :: l2))
        by (unfold free_list in Hl; exact (nodes_from_NoDup _ _ _ _ Hl)).
      assert (Hother : Forall (fun x => x + 16 <= c \/
                                 c + sizeof_free_block + load_size (mem st) c <= x)
                         (l1 ++ l2)).
      { rewrite Forall_forall. intros x Hx.
        assert (Hxl : In x l).
        { rewrite E. apply in_app_or in Hx. apply in_or_app.
          destruct Hx; [left|right; right]; assumption. }
        assert (Hne : c <> x).
        { intros ->. exact (NoDup_remove_2 _ _ _ Hnd Hx). }
        unfold sizeof_free_block. exact (Hsep c x Hcin Hxl Hne). }
      destruct (first_fit_serves f fuel st n c (load_size (mem st) c) l1 l2
                  Hl Hap Hlen Hn0 Hlim Hsmall' eq_refl)
        as (st1 & T & _ & _ & L1 & Sz & _ & _ & B1 & F1 & BM & O1);
        [unfold sizeof_header, sizeof_free_block; lia
        |exact Hc0
        |unfold sizeof_free_block; lia
        |exact Hother|].
      exists st1, (c + sizeof_header), (l1 ++ l2).
      split; [exact T|]. split; [exact O1|]. split; [exact BM|].
      split; [unfold sizeof_header, NULL; lia|]. intros _.
      split; [exact L1|]. split.
      { intros a Ha. split; [|exact (Sz a Ha)].
        rewrite E. apply in_app_or in Ha. apply in_or_app.
        destruct Ha; [left|right; right]; assumption. }
      split.
      { intros a Ha Hout. apply F1.
        - unfold sizeof_free_block. destruct (Hout c Hcin); lia.
        - intros x Hx.
          assert (Hxl : In x l) by (rewrite E; apply in_or_app; left; exact Hx).
          pose proof (load_size_range (mem st) x).
          destruct (Hout x Hxl); lia. }
      right. exists l1, c, l2. unfold sizeof_header.
      split; [exact E|]. split; [reflexivity|]. split; [reflexivity|].
      split; [lia|exact B1].
Qed.

(** ** Reallocate *)

(** A region that lies in no free node keeps its size and sentinel fields
    through an allocation. *)
Lemma fields_kept m1 m X :
  (forall a, X <= a < X + 16 -> byte_at m1 a = byte_at m a) ->
  load_size m1 X = load_size m X /\ load_magic m1 X = load_magic m X.
Proof.
  intros H. split.
  - unfold load_size. apply load_le_ext. intros i Hi. apply H. cbn in Hi. lia.
  - unfold load_magic. f_equal. apply load_le_ext. intros i Hi. apply H.
    cbn in Hi. lia.
Qed.

(** C7.  On a well-formed heap, for a block in use whose header at [X]
    carries the sentinel and records [old] bytes, and for every [new_size]
    below [2^63 - 32]: the fresh allocation of [turealloc] returns; when it
    yields [NULL], [turealloc] returns [NULL] and the whole state is as
    before the call.  When it yields a pointer [p], the copy of [old] bytes
    to [p] is safe whenever [old <= new_size]; and whenever the copy is
    safe, shrinking or not, [turealloc] returns [p], the [old] bytes at [p]
    are those of the original payload, the original block has been freed
    (the node at the head of the free list spans it), nothing is printed
    and the break is where the allocation left it. *)
Theorem turealloc_valid (f fuel : nat) (st : state) (l : list Z) (X n : Z) :
  well_formed f st l -> (List.length l < fuel)%nat ->
  0 <= n < 2 ^ 63 - 32 ->
  let ptr := X + sizeof_header in
  let old := load_size (mem st) X in
  in_use st l X (sizeof_header + old) ->
  load_magic (mem st) X = MAGIC ->
  exists st1 p,
    tumalloc fuel st n = Some (st1, p) /\
    (p = NULL -> turealloc fuel st ptr n = Some (st, Returned NULL)) /\
    (p <> NULL ->
       (old <= n -> copy_is_safe st1 l X p old) /\
       (copy_is_safe st1 l X p old ->
          exists st2,
            turealloc fuel st ptr n = Some (st2, Returned p) /\
            (forall i, 0 <= i < old ->
               byte_at (mem st2) (p + i) = byte_at (mem st) (ptr + i)) /\
            head_spans st2 X old /\
            out st2 = out st /\ brk st2 = brk st1)).
Proof.
  intros Hwf Hlen Hn ptr old Huse Hm.
  pose proof (well_formed_apart _ _ _ Hwf) as Hap.
  destruct (tumalloc_outcome f fuel st l n Hwf Hlen Hn)
    as (st1 & p & l' & T & O1 & _ & Hnull & Hok).
  destruct Hwf as (Hl & Hb & Hnodes & Hsep).
  destruct Huse as (X0 & Xb & Xout).
  unfold sizeof_header, sizeof_free_block in *.
  pose proof (load_size_range (mem st) X) as Rold. fold old in Rold.
  assert (Hptr : (ptr =? NULL) = false).
  { apply Z.eqb_neq. subst ptr. unfold NULL, sizeof_header. lia. }
  assert (Hhdr : wrap (ptr - sizeof_header) = X).
  { subst ptr. unfold sizeof_header. clear - X0 Xb Hb Rold. wrap_lia. }
  exists st1, p. split; [exact T|]. split.
  { intros ->. rewrite (Hnull eq_refl) in T. unfold turealloc.
    rewrite Hptr, T. reflexivity. }
  intros Hp. destruct (Hok Hp) as (L1 & Hl' & Hfr & Hwhere).
  (* the block as the allocation left it *)
  assert (Hblock : forall a, X <= a < X + 16 + old ->
            byte_at (mem st1) a = byte_at (mem st) a).
  { intros a Ha. apply Hfr; [lia|]. intros x Hx.
    destruct (Xout x Hx); lia. }
  destruct (fields_kept (mem st1) (mem st) X) as [S1 M1];
    [intros a Ha; apply Hblock; lia|].
  split.
  { (* a request that does not shrink is safe *)
    intros Hgrow. unfold copy_is_safe, sizeof_header, sizeof_free_block.
    destruct Hwhere as [(-> & Hp1 & Hp2)|(l1 & c & l2 & E & -> & -> & Hc & B1)].
    - split; [right; lia|]. split; [|lia].
      intros a Ha. destruct (Hnodes a Ha) as (_ & _ & Hab).
      pose proof (load_size_range (mem st) a). left. lia.
    - assert (Hcin : In c l)
        by (rewrite E; apply in_or_app; right; left; reflexivity).
      destruct (Hnodes c Hcin) as (_ & _ & Hcb).
      split; [destruct (Xout c Hcin); [left|right]; lia|].
      split; [|lia].
      intros a Ha. destruct (Z.eq_dec c a) as [<-|Hne]; [left; lia|].
      destruct (Hsep c a Hcin Ha Hne); [left|right]; lia. }
  (* a safe copy, then the free *)
  intros (Hs1 & Hs2 & Hs3). unfold sizeof_header, sizeof_free_block in *.
  set (copied := set_mem st1 (memcpy (mem st1) p ptr old)).
  assert (Hcopy_out : forall a, a < p \/ p + old <= a ->
            byte_at (mem copied) a = byte_at (mem st1) a).
  { intros a Ha. unfold byte_at. cbn [mem copied set_mem].
    rewrite memcpy_outside by exact Ha. reflexivity. }
  assert (Hin' : forall a, In a l' -> In a l) by (intros a Ha; apply Hl'; exact Ha).
  assert (HlC : free_list f copied = Some l').
  { unfold free_list in *. cbn [mem HEAD copied set_mem].
    apply nodes_from_ext with (m := mem st1); [|exact L1].
    intros a Ha. unfold load_next. apply load_le_ext. intros i Hi.
    apply Hcopy_out. cbn in Hi. destruct (Hs2 a (Hin' a Ha)); lia. }
  assert (HszC : forall a, In a l' ->
            load_size (mem copied) a = load_size (mem st) a).
  { intros a Ha. rewrite <- (proj2 (Hl' a Ha)).
    unfold load_size. apply load_le_ext. intros i Hi.
    apply Hcopy_out. cbn in Hi. destruct (Hs2 a (Hin' a Ha)); lia. }
  destruct (fields_kept (mem copied) (mem st1) X) as [SC MC];
    [intros a Ha; apply Hcopy_out; lia|].
  assert (HlenC : (List.length l' < fuel)%nat).
  { destruct Hwhere as [(-> & _)|(l1 & c & l2 & E & -> & _)]; [exact Hlen|].
    rewrite E in Hlen. rewrite length_app in *. cbn [List.length] in Hlen. lia. }
  assert (HapC : apart l').
  { intros a b Ha Hb' Hne. exact (Hap a b (Hin' a Ha) (Hin' b Hb') Hne). }
  assert (HclC : forall a, In a l' -> a + 16 <= X \/ X + 16 <= a).
  { intros a Ha. pose proof (load_size_range (mem st) a).
    destruct (Xout a (Hin' a Ha)); lia. }
  assert (HfitC : forall a, In a l' ->
            0 < a /\ a + load_size (mem copied) a + 16 < WORD).
  { intros a Ha. rewrite (HszC a Ha).
    destruct (Hnodes a (Hin' a Ha)) as (Ha0 & _ & Hab). lia. }
  assert (HXC : 0 < X /\ X + load_size (mem copied) X + 16 < WORD).
  { rewrite SC, S1. fold old. lia. }
  assert (HmC : load_magic (mem copied) X = MAGIC) by (rewrite MC, M1; exact Hm).
  destruct (tufree_frees copied l' X f fuel HlC HlenC HapC HclC HfitC HXC HmC)
    as (st2 & F & HH & HH0 & Hspan & Hfr2 & B2 & _ & O2).
  exists st2. split.
  { unfold turealloc. rewrite Hptr, T.
    destruct (Z.eqb_spec p NULL) as [|_]; [contradiction|].
    change sizeof_header with 16.
    rewrite Hhdr, M1, Hm, Z.eqb_refl. cbn [negb]. rewrite S1. fold old.
    fold copied.
    replace (tufree fuel copied ptr) with (Some st2) by (symmetry; exact F).
    reflexivity. }
  split.
  { intros i Hi. rewrite Hfr2.
    - unfold byte_at at 1. cbn [mem copied set_mem].
      rewrite memcpy_inside by exact Hi. fold (byte_at (mem st1) (ptr + i)).
      apply Hblock. subst ptr. unfold sizeof_header. lia.
    - lia.
    - destruct HH as [->|HHl]; [lia|].
      destruct (Hs2 _ (Hin' _ HHl)); lia. }
  split.
  { unfold head_spans, sizeof_header, sizeof_free_block.
    rewrite SC, S1 in Hspan. fold old in Hspan.
    split; [unfold NULL; lia|]. split; [lia|lia]. }
  split; [rewrite O2; exact O1|exact B2].
Qed.

Lemma turealloc_valid_witness :
  exists st2,
    turealloc 2 big_free_then_block 4336 16 = Some (st2, Returned 4112) /\
    (forall i, 0 <= i < 64 ->
       byte_at (mem st2) (4112 + i)
       = byte_at (mem big_free_then_block) (4336 + i)) /\
    head_spans st2 4320 64.
Proof.
  assert (Hl : free_list 2 big_free_then_block = Some [4096])
    by (vm_compute; reflexivity).
  assert (Hb : brk big_free_then_block = 4400) by (vm_compute; reflexivity).
  assert (S0 : load_size (mem big_free_then_block) 4096 = 200)
    by (vm_compute; reflexivity).
  assert (SX : load_size (mem big_free_then_block) 4320 = 64)
    by (vm_compute; reflexivity).
  assert (Hwf : well_formed 2 big_free_then_block [4096]).
  { unfold well_formed, sizeof_free_block. rewrite Hb.
    split; [exact Hl|]. split; [unfold WORD; lia|]. split.
    - intros a [<-|[]]. rewrite S0. lia.
    - intros a b [<-|[]] [<-|[]] Hne. contradiction. }
  assert (Hlen : (List.length [4096] < 2)%nat) by (cbn; lia).
  assert (Hn : 0 <= 16 < 2 ^ 63 - 32) by lia.
  assert (Huse : in_use big_free_then_block [4096] 4320
                   (sizeof_header + load_size (mem big_free_then_block) 4320)).
  { unfold in_use, sizeof_header, sizeof_free_block. rewrite Hb, SX.
    split; [lia|]. split; [lia|]. intros x [<-|[]]. rewrite S0. lia. }
  assert (Hm : load_magic (mem big_free_then_block) 4320 = MAGIC)
    by (vm_compute; reflexivity).
  destruct (turealloc_valid 2 2 big_free_then_block [4096] 4320 16
              Hwf Hlen Hn Huse Hm) as (st1 & p & T & _ & H).
  assert (Ep : match tumalloc 2 big_free_then_block 16 with
               | Some (s, q) => (q, brk s) | None => (0, 0) end = (4112, 4400))
    by (vm_compute; reflexivity).
  rewrite T in Ep. injection Ep as -> B1.
  assert (Hp : 4112 <> NULL) by discriminate.
  destruct (H Hp) as [_ Hsafe]. rewrite SX in Hsafe.
  destruct Hsafe as (st2 & R & C & Sp & _).
  - unfold copy_is_safe, sizeof_header, sizeof_free_block. rewrite B1.
    split; [left; lia|]. split; [|lia]. intros a [<-|[]]. left. lia.
  - exists st2. split; [exact R|]. split; [exact C|exact Sp].
Defined.

(** What the shrinking [turealloc] below does, read off by running it. *)
Lemma shrink_allocation :
  exists st1, tumalloc 4 small_free_then_big_block 16 = Some (st1, 4112).
Proof.
  assert (E : match tumalloc 4 small_free_then_big_block 16 with
              | Some (_, q) => q | None => 0 end = 4112)
    by (vm_compute; reflexivity).
  destruct (tumalloc 4 small_free_then_big_block 16) as [[st1 p]|];
    [|discriminate].
  exists st1. rewrite E. reflexivity.
Qed.

Lemma shrink_outcome st2 r :
  turealloc 4 small_free_then_big_block 4240 16 = Some (st2, r) ->
  r = Returned 4112 /\ HEAD st2 = NULL /\ load_magic (mem st2) 4224 = 0.
Proof.
  intros R.
  assert (E : match turealloc 4 small_free_then_big_block 4240 16 with
              | Some (s, q) => (q, HEAD s, load_magic (mem s) 4224)
              | None => (NoReturn, 1, 1)
              end = (Returned 4112, NULL, 0))
    by (vm_compute; reflexivity).
  rewrite R in E. injection E as -> -> ->. auto.
Qed.

(** C7, as the specification words it, fails.  After [tumalloc 100],
    [tumalloc 1000] and a [tufree] of the first block, the second block (at
    4240, header at 4224) has a valid header; [turealloc] of it to 16 bytes
    is served from the freed node at 4096, and the copy of 1000 bytes to
    4112 runs over the header at 4224, so that [tufree] declines: the call
    returns 4112 with an empty free list, the original block is not freed. *)
Lemma turealloc_shrink_keeps_block :
  ~ realloc_frees_and_returns 4 small_free_then_big_block 4240 16.
Proof.
  intros H.
  assert (Hp : 4240 <> NULL) by discriminate.
  assert (Hm : load_magic (mem small_free_then_big_block)
                 (wrap (4240 - sizeof_header)) = MAGIC)
    by (vm_compute; reflexivity).
  destruct shrink_allocation as (st1 & T).
  assert (Hq : 4112 <> NULL) by discriminate.
  destruct (H Hp Hm st1 4112 T Hq) as (st2 & R & _ & Hs & _).
  destruct (shrink_outcome st2 _ R) as (_ & HH & _).
  exact (Hs HH).
Qed.

(** C10.  On a well-formed heap, for a pointer whose 16 header bytes at
    [X] lie in the heap and in no free node and do not carry the sentinel,
    and for every [new_size] below [2^63 - 32]: the fresh allocation of
    [turealloc] returns, and when it yields a pointer the header at [X]
    still is as it was at the call, so [turealloc] prints its diagnostic
    and falls off the end of the function.  No pointer is returned, no byte
    is copied and nothing is freed: memory, [HEAD] and the break are those
    the allocation left, and the free list is the one the allocation left,
    that is the list from before the call, without the node that was handed
    out when the allocation was served from the list. *)
Theorem turealloc_corrupt (f fuel : nat) (st : state) (l : list Z) (X n : Z) :
  well_formed f st l -> (List.length l < fuel)%nat ->
  0 <= n < 2 ^ 63 - 32 ->
  let ptr := X + sizeof_header in
  in_use st l X sizeof_header ->
  load_magic (mem st) X <> MAGIC ->
  exists st1 p l',
    tumalloc fuel st n = Some (st1, p) /\
    (p <> NULL ->
       exists st2,
         turealloc fuel st ptr n = Some (st2, NoReturn) /\
         out st2 = out st ++ [corruption_message] /\
         mem st2 = mem st1 /\ HEAD st2 = HEAD st1 /\ brk st2 = brk st1 /\
         (forall a, X <= a < X + sizeof_header ->
            byte_at (mem st2) a = byte_at (mem st) a) /\
         free_list f st2 = Some l' /\ ~ In X l' /\
         (l' = l \/
          exists l1 l2, l = l1 ++ (p - sizeof_header) :: l2 /\ l' = l1 ++ l2)).
Proof.
  intros Hwf Hlen Hn ptr Huse Hm.
  destruct (tumalloc_outcome f fuel st l n Hwf Hlen Hn)
    as (st1 & p & l' & T & O1 & _ & _ & Hok).
  destruct Hwf as (Hl & Hb & Hnodes & Hsep).
  destruct Huse as (X0 & Xb & Xout).
  unfold sizeof_header, sizeof_free_block in *.
  assert (Hptr : (ptr =? NULL) = false).
  { apply Z.eqb_neq. subst ptr. unfold NULL, sizeof_header. lia. }
  assert (Hhdr : wrap (ptr - 16) = X).
  { subst ptr. unfold sizeof_header. clear - X0 Xb Hb. wrap_lia. }
  exists st1, p, l'. split; [exact T|].
  intros Hp. destruct (Hok Hp) as (L1 & Hl' & Hfr & Hwhere).
  assert (Hblock : forall a, X <= a < X + 16 ->
            byte_at (mem st1) a = byte_at (mem st) a).
  { intros a Ha. apply Hfr; [lia|]. intros x Hx.
    destruct (Xout x Hx); lia. }
  destruct (fields_kept (mem st1) (mem st) X Hblock) as [_ M1].
  exists (print st1 corruption_message). split.
  { unfold turealloc. rewrite Hptr, T.
    destruct (Z.eqb_spec p NULL) as [|_]; [contradiction|].
    change sizeof_header with 16. rewrite Hhdr, M1.
    destruct (Z.eqb_spec (load_magic (mem st) X) MAGIC) as [|_];
      [contradiction|reflexivity]. }
  cbn [mem HEAD brk out print].
  split; [rewrite O1; reflexivity|]. split; [reflexivity|].
  split; [reflexivity|]. split; [reflexivity|]. split; [exact Hblock|].
  split; [exact L1|]. split.
  { intros Hin. destruct (Hl' X Hin) as [Hin' _].
    pose proof (load_size_range (mem st) X).
    destruct (Xout X Hin'); lia. }
  destruct Hwhere as [(-> & _)|(l1 & c & l2 & E & -> & -> & _)];
    [left; reflexivity|].
  right. exists l1, l2. split; [|reflexivity].
  replace (c + 16 - 16) with c by lia. exact E.
Qed.

Lemma turealloc_corrupt_witness :
  exists st2,
    turealloc 2 big_free_then_block 4368 16 = Some (st2, NoReturn) /\
    out st2 = [corruption_message] /\
    (forall a, 4352 <= a < 4368 ->
       byte_at (mem st2) a = byte_at (mem big_free_then_block) a) /\
    free_list 2 st2 = Some [].
Proof.
  assert (Hl : free_list 2 big_free_then_block = Some [4096])
    by (vm_compute; reflexivity).
  assert (Hb : brk big_free_then_block = 4400) by (vm_compute; reflexivity).
  assert (S0 : load_size (mem big_free_then_block) 4096 = 200)
    by (vm_compute; reflexivity).
  assert (Hwf : well_formed 2 big_free_then_block [4096]).
  { unfold well_formed, sizeof_free_block. rewrite Hb.
    split; [exact Hl|]. split; [unfold WORD; lia|]. split.
    - intros a [<-|[]]. rewrite S0. lia.
    - intros a b [<-|[]] [<-|[]] Hne. contradiction. }
  assert (Hlen : (List.length [4096] < 2)%nat) by (cbn; lia).
  assert (Hn : 0 <= 16 < 2 ^ 63 - 32) by lia.
  assert (Huse : in_use big_free_then_block [4096] 4352 sizeof_header).
  { unfold in_use, sizeof_header, sizeof_free_block. rewrite Hb.
    split; [lia|]. split; [lia|]. intros x [<-|[]]. rewrite S0. lia. }
  assert (Hm : load_magic (mem big_free_then_block) 4352 <> MAGIC)
    by (vm_compute; discriminate).
  destruct (turealloc_corrupt 2 2 big_free_then_block [4096] 4352 16
              Hwf Hlen Hn Huse Hm) as (st1 & p & l' & T & H).
  assert (Ep : match tumalloc 2 big_free_then_block 16 with
               | Some (_, q) => q | None => 0 end = 4112)
    by (vm_compute; reflexivity).
  rewrite T in Ep. subst p.
  assert (Hp : 4112 <> NULL) by discriminate.
  destruct (H Hp) as (st2 & R & O & _ & _ & _ & Hh & L & _ & W).
  assert (O0 : out big_free_then_block = []) by (vm_compute; reflexivity).
  rewrite O0 in O.
  exists st2. split; [exact R|]. split; [exact O|]. split; [exact Hh|].
  assert (Ef : match turealloc 2 big_free_then_block (4352 + sizeof_header) 16 with
               | Some (s, _) => free_list 2 s | None => None end = Some [])
    by (vm_compute; reflexivity).
  rewrite R in Ef. exact Ef.
Defined.

(** What [turealloc] does on a pointer that was just freed, read off by
    running it. *)
Lemma freed_pointer_allocation :
  exists st1, tumalloc 4 released_block 16 = Some (st1, 4112).
Proof.
  assert (E : match tumalloc 4 released_block 16 with
              | Some (_, q) => q | None => 0 end = 4112)
    by (vm_compute; reflexivity).
  destruct (tumalloc 4 released_block 16) as [[st1 p]|]; [|discriminate].
  exists st1. rewrite E. reflexivity.
Qed.

Lemma freed_pointer_outcome st2 r :
  turealloc 4 released_block 4112 16 = Some (st2, r) ->
  r = Returned 4112 /\ out st2 = [].
Proof.
  intros R.
  assert (E : match turealloc 4 released_block 4112 16 with
              | Some (s, q) => (q, out s) | None => (NoReturn, ["x"%string])
              end = (Returned 4112, []))
    by (vm_compute; reflexivity).
  rewrite R in E. injection E as -> ->. auto.
Qed.

(** C10, as the specification words it, fails.  After [tumalloc 100] and
    [tufree], the header at 4096 is a node of the free list and no longer
    carries the sentinel.  [turealloc] of the freed pointer 4112 to 16
    bytes is served from that very node: the allocation stamps the sentinel
    again before the check reads it, and [turealloc] copies, frees and
    returns 4112 without any diagnostic. *)
Lemma turealloc_restamped_header :
  ~ realloc_only_diagnoses 4 released_block 4112 16.
Proof.
  intros H.
  assert (Hp : 4112 <> NULL) by discriminate.
  assert (Hm : load_magic (mem released_block) (wrap (4112 - sizeof_header))
               <> MAGIC)
    by (vm_compute; discriminate).
  destruct freed_pointer_allocation as (st1 & T).
  destruct (H Hp Hm st1 4112 T Hp) as (st2 & r & R & O & _).
  destruct (freed_pointer_outcome st2 r R) as (_ & O').
  rewrite O' in O. destruct (out released_block); discriminate O.
Qed.

(** ** Heap growth and the unchecked sum *)

Lemma overflowing_growth st' p :
  do_alloc booted64 (2 ^ 64 - 16) = (st', p) -> p = 4192 /\ brk st' = 4176.
Proof.
  intros E.
  assert (C : (snd (do_alloc booted64 (2 ^ 64 - 16)),
               brk (fst (do_alloc booted64 (2 ^ 64 - 16)))) = (4192, 4176))
    by (vm_compute; reflexivity).
  rewrite E in C. cbn [fst snd] in C. injection C as -> ->. auto.
Qed.

(** C8.  A process allocates 64 bytes, which puts the break at 4176, and
    then asks for [2^64 - 16] bytes.  In [do_alloc] the sum
    [size + ag + sizeof(header)] wraps to 0, [sbrk(0)] succeeds without
    moving the break, and [do_alloc] stamps a header at 4176, at the break
    itself, and returns 4192: a pointer to memory that was never obtained,
    while the break has not grown by payload, padding and header. *)
Theorem do_alloc_size_overflow :
  observe 2 [Alloc 64; Alloc (2 ^ 64 - 16)] boot
    (fun st ptrs => (ptrs, brk st, load_size (mem st) 4176,
                     load_magic (mem st) 4176))
  = Some ([4112; 4192], 4176, 2 ^ 64 - 16, MAGIC) /\
  brk booted64 = 4176 /\
  ~ grows_by_exact_sum booted64 (2 ^ 64 - 16).
Proof.
  split; [vm_compute; reflexivity|]. split; [vm_compute; reflexivity|].
  intros H.
  destruct (do_alloc booted64 (2 ^ 64 - 16)) as [st' p] eqn:E.
  destruct (overflowing_growth st' p E) as [-> B].
  assert (Hp : 4192 <> NULL) by discriminate.
  specialize (H st' 4192 E Hp). rewrite B in H.
  revert H. vm_compute. discriminate.
Qed.

(** X20.  Heap growth without overflow.  For a payload size whose sum with
    padding and header stays below [2^63], [do_alloc] asks the OS for
    exactly that sum above the current break: when the new break would pass
    the OS limit it returns [NULL] and changes nothing; otherwise the break
    moves up by exactly the sum, the header at the padded break, a multiple
    of 16, records the payload size and the sentinel, and the address after
    the header is returned.  [HEAD], the output and every byte outside the
    12 header bytes written stay as they were, and neither [HEAD] nor the
    contents of memory influence the pointer or the break that result: the
    free list is neither read nor modified. *)
Theorem do_alloc_within_range (st : state) (size : Z) :
  0 <= size -> 0 <= brk st <= WORD - 32 ->
  size + padding (brk st) + sizeof_header < 2 ^ 63 ->
  let head := brk st + padding (brk st) in
  let incr := size + padding (brk st) + sizeof_header in
  head mod 16 = 0 /\
  (brk_max st < brk st + incr -> do_alloc st size = (st, NULL)) /\
  (brk st + incr <= brk_max st ->
     exists st',
       do_alloc st size = (st', head + sizeof_header) /\
       brk st' = brk st + incr /\
       load_size (mem st') head = size /\
       load_magic (mem st') head = MAGIC /\
       HEAD st' = HEAD st /\ out st' = out st /\ brk_max st' = brk_max st /\
       forall a, a < head \/ head + 12 <= a ->
                 byte_at (mem st') a = byte_at (mem st) a) /\
  (forall h m',
     snd (do_alloc (set_mem (set_HEAD st h) m') size) = snd (do_alloc st size) /\
     brk (fst (do_alloc (set_mem (set_HEAD st h) m') size))
     = brk (fst (do_alloc st size))).
Proof.
  intros Hs Hb Hlim head incr.
  pose proof (padding_range (brk st)) as [Hpad Hal].
  assert (Hg : forall s, brk s = brk st -> growth s size = incr).
  { intros s Es. unfold growth. rewrite Es. subst incr.
    clear - Hs Hlim Hpad. wrap_lia. }
  assert (Hsb : forall s, brk s = brk st -> brk_max s = brk_max st ->
            (snd (sbrk s incr) =? SBRK_FAILED)
            = negb (brk st + incr <=? brk_max st)).
  { intros s Es Em. unfold sbrk. rewrite Es, Em.
    destruct (Z.eqb_spec incr 0) as [C|_];
      [subst incr; unfold sizeof_header in C; lia|].
    destruct (Z.leb_spec 0 (brk st + incr));
      [|subst incr; unfold sizeof_header in *; lia].
    destruct (Z.leb_spec (brk st + incr) (brk_max st)); cbn [andb negb snd].
    - apply Z.eqb_neq. change SBRK_FAILED with (WORD - 1). lia.
    - apply Z.eqb_refl. }
  split; [exact Hal|]. split; [|split].
  - intros Hmax. rewrite do_alloc_eq by exact Hb.
    rewrite (Hg st eq_refl), (Hsb st eq_refl eq_refl).
    destruct (Z.leb_spec (brk st + incr) (brk_max st)); [lia|reflexivity].
  - intros Hmax. rewrite do_alloc_eq by exact Hb.
    rewrite (Hg st eq_refl), (Hsb st eq_refl eq_refl). fold head.
    destruct (Z.leb_spec (brk st + incr) (brk_max st)); [|lia].
    cbn [negb]. eexists. split; [reflexivity|].
    cbn [mem HEAD brk brk_max out set_mem set_brk].
    split; [reflexivity|]. split.
    { autorewrite with fields. clear - Hs Hlim Hpad. wrap_lia. }
    split; [apply load_magic_store_magic|].
    split; [reflexivity|]. split; [reflexivity|]. split; [reflexivity|].
    intros a Ha. unfold store_magic, store_size.
    rewrite !store_le_outside by lia. reflexivity.
  - intros h m'.
    rewrite (do_alloc_eq (set_mem (set_HEAD st h) m')) by exact Hb.
    rewrite (do_alloc_eq st) by exact Hb.
    rewrite (Hg st eq_refl), (Hg (set_mem (set_HEAD st h) m') eq_refl).
    rewrite (Hsb st eq_refl eq_refl),
            (Hsb (set_mem (set_HEAD st h) m') eq_refl eq_refl).
    cbn [brk set_mem set_HEAD].
    destruct (brk st + incr <=? brk_max st); cbn [negb fst snd brk set_mem set_brk];
      split; reflexivity.
Qed.

Lemma do_alloc_within_range_witness :
  exists st',
    do_alloc booted64 32 = (st', 4192) /\ brk st' = 4224 /\
    load_size (mem st') 4176 = 32 /\ load_magic (mem st') 4176 = MAGIC.
Proof.
  assert (Hs : 0 <= 32) by lia.
  assert (B : brk booted64 = 4176) by (vm_compute; reflexivity).
  assert (P : padding (brk booted64) = 0) by (vm_compute; reflexivity).
  assert (Hb : 0 <= brk booted64 <= WORD - 32) by (rewrite B; unfold WORD; lia).
  assert (Hlim : 32 + padding (brk booted64) + sizeof_header < 2 ^ 63)
    by (rewrite P; unfold sizeof_header; lia).
  destruct (do_alloc_within_range booted64 32 Hs Hb Hlim) as (_ & _ & Hok & _).
  destruct Hok as (st' & E & Bk & S & M & _).
  - rewrite P, B. replace (brk_max booted64) with 65536 by (vm_compute; reflexivity).
    unfold sizeof_header. lia.
  - rewrite P, B in E, Bk, S, M. exists st'.
    split; [exact E|]. split; [exact Bk|]. split; [exact S|exact M].
Defined.
